(** * Tracer: the time-aggregation engine of [src/app/page.tsx]

    A shallow embedding of the pure helpers of the time tracker
    ([formatHMS], [rangeBounds], [overlapMs], [buildChildMap],
    [computeDirectSeconds], [rollupSeconds], [computeChildGoalSum],
    [computeRootGoalSum], [sharePct]) and the properties the specification
    states about them.

    Conventions of the embedding:
    - millisecond instants ([Date.now()], [Session.start], ...) are integers
      ([Z]); second totals are JavaScript numbers used as exact quantities and
      are modelled as rationals ([Q]), so [ms / 1000] loses nothing;
      where the rounding of a JavaScript number decides a result, in
      [sharePct] and the total it divides by, the operations are rounded to
      binary64 ([binary64]);
    - a [Record<string, number>] is a [gmap string Q] holding the object's own
      properties (ids are assumed not to name a property of
      [Object.prototype]);
    - an optional field [x?: T] is an [option T]; JavaScript truthiness of
      such a field is written out ([truthy_num], [truthy_str]);
    - [Date.now()] is the argument [now] of the functions that read the
      clock: one reading per call. *)

From Stdlib Require Import ZArith QArith Qround Qminmax Qabs Qpower Qreduction.
From Stdlib Require Import String Ascii List Lia.
From Stdlib Require Import DecimalString Lqa.
From Stdlib Require HexadecimalString.
From stdpp Require Import gmap strings list relations.

Local Open Scope Z_scope.

(** ** Data model (page.tsx, lines 9-39) *)

Module Category.
Record t : Type := mk {
  id : string;
  name : string;
  color : string;
  goalPct : option Z;
  icon : option string;
  parentId : option string
}.
End Category.

Module Session.
Record t : Type := mk {
  id : string;
  categoryId : string;
  start : Z;
  end_ : option Z
}.
End Session.

Module Goal.
Record t : Type := mk {
  id : string;
  text : string;
  categoryId : string;
  completed : option bool;
  createdAt : Z;
  totalSeconds : option Q;
  isActive : option bool;
  lastStartTime : option Z
}.
End Goal.

(** ** JavaScript idioms *)

(** [x ?? d] on an optional field. *)
Definition nullish {A : Type} (x : option A) (d : A) : A :=
  match x with Some a => a | None => d end.

(** Truthiness of an optional boolean, number and string. *)
Definition truthy_bool (b : option bool) : bool :=
  match b with Some true => true | _ => false end.

Definition truthy_num (n : option Z) : bool :=
  match n with Some z => negb (z =? 0) | None => false end.

Definition truthy_str (s : option string) : bool :=
  match s with Some EmptyString => false | Some _ => true | None => false end.

(** [a === b] on optional strings ([null] and [undefined] are not told
    apart: the snapshot never mixes them in one comparison). *)
Definition same (a b : option string) : bool := bool_decide (a = b).

(** [x || 0] on an optional number. *)
Definition or_zero (x : option Q) : Q :=
  match x with Some q => if Qeq_bool q 0 then 0%Q else q | None => 0%Q end.

Definition Qltb (a b : Q) : bool := negb (Qle_bool b a).

(** [totals[k] ?? 0] *)
Definition seconds_of (totals : gmap string Q) (k : string) : Q :=
  nullish (totals !! k) 0%Q.

(** [totals[k] = (totals[k] ?? 0) + x] *)
Definition bump (totals : gmap string Q) (k : string) (x : Q) : gmap string Q :=
  <[k := (seconds_of totals k + x)%Q]> totals.

(** ** Interval overlap (page.tsx, lines 118-122) *)

Definition overlapMs (aStart aEnd bStart bEnd : Z) : Z :=
  let start := Z.max aStart bStart in
  let end_ := Z.min aEnd bEnd in
  Z.max 0 (end_ - start).

(** ** Direct seconds (page.tsx, lines 136-167) *)

Definition sessionMs (now windowStart windowEnd : Z) (s : Session.t) : Z :=
  let end_ := nullish (Session.end_ s) now in
  overlapMs (Session.start s) end_ windowStart windowEnd.

Definition addSession (now windowStart windowEnd : Z)
    (totals : gmap string Q) (s : Session.t) : gmap string Q :=
  let ms := sessionMs now windowStart windowEnd s in
  if 0 <? ms then bump totals (Session.categoryId s) (inject_Z ms / 1000)%Q
  else totals.

Definition currentElapsed (now : Z) (g : Goal.t) : Z :=
  if truthy_bool (Goal.isActive g) && truthy_num (Goal.lastStartTime g)
  then (now - nullish (Goal.lastStartTime g) 0) / 1000
  else 0.

Definition goalTotalSeconds (now : Z) (g : Goal.t) : Q :=
  (or_zero (Goal.totalSeconds g) + inject_Z (currentElapsed now g))%Q.

Definition addGoal (now : Z) (totals : gmap string Q) (g : Goal.t)
    : gmap string Q :=
  let totalSeconds := goalTotalSeconds now g in
  if Qltb 0 totalSeconds then bump totals (Goal.categoryId g) totalSeconds
  else totals.

Definition computeDirectSeconds (now : Z) (sessions : list Session.t)
    (windowStart windowEnd : Z) (goals : option (list Goal.t))
    : gmap string Q :=
  let totals := fold_left (addSession now windowStart windowEnd) sessions ∅ in
  match goals with
  | Some gs => fold_left (addGoal now) gs totals
  | None => totals
  end.

(** The chart's direct seconds (page.tsx, lines 1603-1627): while the chart
    is hovered, the instant recorded at mouse-enter replaces the window's
    end. *)
Definition endForChart (chartHover : bool) (hoverNow : option Z)
    (windowEnd : Z) : Z :=
  if chartHover && truthy_num hoverNow then nullish hoverNow 0 else windowEnd.

Definition directSecondsChart (now : Z) (chartHover : bool)
    (hoverNow : option Z) (sessions : list Session.t)
    (windowStart windowEnd : Z) (goals : option (list Goal.t))
    : gmap string Q :=
  computeDirectSeconds now sessions windowStart
    (endForChart chartHover hoverNow windowEnd) goals.

(** ** Hierarchy index (page.tsx, lines 124-133 and 191-193) *)

(** [c.parentId ?? "__root__"]: the key a category is filed under. *)
Definition parentKey (c : Category.t) : string :=
  nullish (Category.parentId c) "__root__"%string.

Definition pushChild (map : gmap string (list string)) (c : Category.t)
    : gmap string (list string) :=
  let key := parentKey c in
  let map' := match map !! key with Some _ => map | None => <[key := []]> map end in
  <[key := nullish (map' !! key) [] ++ [Category.id c]]> map'.

Definition buildChildMap (categories : list Category.t)
    : gmap string (list string) :=
  fold_left pushChild categories ∅.

Definition isLeaf (categories : list Category.t) (id : string) : bool :=
  negb (existsb (fun c => same (Category.parentId c) (Some id)) categories).

(** ** Rollup (page.tsx, lines 169-189) *)

(** [new Set(categories.map(c => c.id))]: the ids in order of first
    occurrence. *)
Definition idSet (categories : list Category.t) : list string :=
  fold_left (fun seen c =>
               if bool_decide (Category.id c ∈ seen) then seen
               else seen ++ [Category.id c])
            categories [].

(** [childMap[id] ?? []] *)
Definition kidsOf (childMap : gmap string (list string)) (id : string)
    : list string :=
  nullish (childMap !! id) [].

Section Rollup.
Variable childMap : gmap string (list string).
Variable direct : gmap string Q.

(** [for (const k of kids) total += dfs(k)], with the memo table threaded
    through the calls; [None] is a call that does not come back. *)
Fixpoint sumKids (visit : string -> gmap string Q -> option (gmap string Q * Q))
    (kids : list string) (memo : gmap string Q) (total : Q)
    : option (gmap string Q * Q) :=
  match kids with
  | [] => Some (memo, total)
  | k :: rest =>
      match visit k memo with
      | Some (memo', v) => sumKids visit rest memo' (total + v)%Q
      | None => None
      end
  end.

(** The recursive closure [dfs]. [depth] bounds the nesting of calls, as the
    call stack of the engine does: [None] is the recursion running past the
    bound (a [RangeError] when the bound is the engine's). The source has no
    other exit: it neither tracks the ids being visited nor raises a fault
    of its own. *)
Fixpoint dfs (depth : nat) (id : string) (memo : gmap string Q)
    : option (gmap string Q * Q) :=
  match depth with
  | O => None
  | S d =>
      match memo !! id with
      | Some v => Some (memo, v)
      | None =>
          match sumKids (dfs d) (kidsOf childMap id)
                        memo (seconds_of direct id) with
          | Some (memo', total) => Some (<[id := total]> memo', total)
          | None => None
          end
      end
  end.

(** [ids.forEach(id => dfs(id))] *)
Fixpoint forEachId (depth : nat) (ids : list string) (memo : gmap string Q)
    : option (gmap string Q) :=
  match ids with
  | [] => Some memo
  | id :: rest =>
      match dfs depth id memo with
      | Some (memo', _) => forEachId depth rest memo'
      | None => None
      end
  end.

End Rollup.

Definition rollupSeconds (depth : nat) (categories : list Category.t)
    (direct : gmap string Q) : option (gmap string Q) :=
  let childMap := buildChildMap categories in
  let ids := idSet categories in
  forEachId childMap direct depth ids ∅.

(** ** Goal sums (page.tsx, lines 299-333 and 2619-2621) *)

(** The [override] argument [{ id?: string; goal?: number }]. *)
Module Override.
Record t : Type := mk {
  id : option string;
  goal : option Z
}.
End Override.

(** [override && override.id === c.id] *)
Definition overrides (override : option Override.t) (c : Category.t) : bool :=
  match override with
  | Some o => same (Override.id o) (Some (Category.id c))
  | None => false
  end.

(** The value one category adds inside the loop. *)
Definition goalVal (override : option Override.t) (c : Category.t) : Z :=
  if overrides override c
  then nullish (override ≫= Override.goal) 0
  else nullish (Category.goalPct c) 0.

Definition computeChildGoalSum (categories : list Category.t)
    (parentId : string) (override : option Override.t) : Z :=
  let sum :=
    fold_left (fun sum c =>
                 if same (Category.parentId c) (Some parentId)
                 then sum + goalVal override c else sum)
              categories 0 in
  let sum :=
    match override with
    | Some o =>
        if truthy_str (Override.id o) &&
           negb (existsb (fun c => same (Some (Category.id c)) (Override.id o))
                         categories)
        then sum + nullish (Override.goal o) 0 else sum
    | None => sum
    end in
  match override with
  | Some o =>
      if negb (truthy_str (Override.id o))
      then sum + nullish (Override.goal o) 0 else sum
  | None => sum
  end.

Definition computeRootGoalSum (categories : list Category.t)
    (override : option Override.t) : Z :=
  let sum :=
    fold_left (fun sum c =>
                 if same (Category.parentId c) None
                 then sum + goalVal override c else sum)
              categories 0 in
  let sum :=
    match override with
    | Some o =>
        if negb (truthy_str (Override.id o))
        then sum + nullish (Override.goal o) 0 else sum
    | None => sum
    end in
  match override with
  | Some o =>
      if truthy_str (Override.id o) &&
         negb (existsb (fun c => same (Some (Category.id c)) (Override.id o)
                                 && same (Category.parentId c) None)
                       categories)
      then sum + nullish (Override.goal o) 0 else sum
  | None => sum
  end.

(** The editor's check (lines 2619-2621): the sum for the level of the
    edited category, and [over = sum > 100]. *)
Definition editorSum (categories : list Category.t) (c : Category.t)
    (proposed : Z) : Z :=
  let override := Some (Override.mk (Some (Category.id c)) (Some proposed)) in
  match Category.parentId c with
  | Some p =>
      if truthy_str (Some p) then computeChildGoalSum categories p override
      else computeRootGoalSum categories override
  | None => computeRootGoalSum categories override
  end.

Definition over (sum : Z) : bool := 100 <? sum.

(** The stored row of a category (lib/supabase.ts, lines 13-24) and its
    conversion to the page's [Category] (page.tsx, lines 1452-1459): the
    conversion keeps six fields and leaves [exclude_from_goals] behind. *)
Module CategoryRow.
Record t : Type := mk {
  id : string;
  user_id : string;
  name : string;
  color : string;
  goal_pct : option Z;
  icon : option string;
  parent_id : option string;
  exclude_from_goals : bool
}.
End CategoryRow.

Definition toCategory (c : CategoryRow.t) : Category.t :=
  Category.mk (CategoryRow.id c) (CategoryRow.name c) (CategoryRow.color c)
    (match CategoryRow.goal_pct c with
     | Some g => if g =? 0 then None else Some g
     | None => None
     end)
    (if truthy_str (CategoryRow.icon c) then CategoryRow.icon c else None)
    (if truthy_str (CategoryRow.parent_id c) then CategoryRow.parent_id c else None).

(** ** Share of the visible total (page.tsx, lines 1608-1611, 1644-1647,
    2215-2218) *)

Definition visibleCategories (categories : list Category.t)
    (currentParentId : option string) : list Category.t :=
  List.filter (fun c => same (Category.parentId c) currentParentId)
              categories.

(** [grandTotalVisible], the [reduce] of lines 1644-1647, on exact
    seconds. *)
Definition grandTotalVisible (visible : list Category.t)
    (rolledSeconds : gmap string Q) : Q :=
  fold_left (fun sum c => (sum + seconds_of rolledSeconds (Category.id c))%Q)
            visible 0%Q.

(** [Math.round]: the nearest integer, halves going up. *)
Definition math_round (x : Q) : Z := Qfloor (x + (1 # 2))%Q.

(** [sharePct] and the total it divides by are computed on JavaScript
    numbers, and their rounding decides which way [Math.round] goes when the
    exact percentage ends in a half: here every operation is rounded to the
    nearest double, a tie to the even significand. *)

(** The nearest integer, a tie going to the even one. *)
Definition roundTiesToEven (q : Q) : Z :=
  let f := Qfloor q in
  match (q - inject_Z f ?= 1 # 2)%Q with
  | Lt => f
  | Gt => f + 1
  | Eq => if Z.even f then f else f + 1
  end.

(** [floor (log2 a)] for a positive rational [a]. *)
Definition ilog2 (a : Q) : Z :=
  let l := Z.log2 (Qnum a) - Z.log2 (Zpos (Qden a)) in
  if Qle_bool (2 ^ l) a then l else l - 1.

(** The exponent of the last place of a double near [a]: 53 significant
    bits, and no place finer than [2 ^ -1074]. *)
Definition exponent64 (a : Q) : Z := Z.max (-1074) (ilog2 a - 52).

(** The double nearest to [x]. Overflow to an infinity is left out: the
    magnitudes here stay far below [2 ^ 1024]. *)
Definition binary64 (x : Q) : Q :=
  let a := Qred (Qabs x) in
  if Qeq_bool a 0 then 0%Q
  else
    let e := exponent64 a in
    let m := roundTiesToEven (a / 2 ^ e) in
    ((if Qle_bool 0 x then 1 else -1) * (inject_Z m * 2 ^ e))%Q.

(** [grandTotalVisible] on JavaScript numbers: the same [reduce], each
    rolled total held as a double and each addition rounded. *)
Definition grandTotalVisible64 (visible : list Category.t)
    (rolledSeconds : gmap string Q) : Q :=
  fold_left (fun sum c =>
               binary64 (sum + binary64 (seconds_of rolledSeconds (Category.id c))))
            visible 0%Q.

Definition sharePct (visible : list Category.t) (rolledSeconds : gmap string Q)
    (catId : string) : Z :=
  let total := grandTotalVisible64 visible rolledSeconds in
  if Qeq_bool total 0 then 0
  else math_round
         (binary64 (binary64 (binary64 (or_zero (rolledSeconds !! catId)) / total)
                    * 100)).

(** ** Duration formatting (page.tsx, lines 44-76) *)

(** A template literal's rendering of an integer count. *)
Definition show (n : Z) : string := NilZero.string_of_int (Z.to_int n).

(** [String.prototype.includes] *)
Fixpoint includes (sub s : string) : bool :=
  String.prefix sub s ||
  match s with
  | EmptyString => false
  | String _ rest => includes sub rest
  end.

(** [parts[0]?.includes(sub)] *)
Definition firstIncludes (sub : string) (parts : list string) : bool :=
  match parts with
  | p :: _ => includes sub p
  | [] => false
  end.

(** The suffix [count === 1 ? "" : "s"]. *)
Definition suffix_s (count : Z) : string :=
  if count =? 1 then ""%string else "s"%string.

Definition yrPart (years : Z) : string := show years +:+ " yr" +:+ suffix_s years.
Definition dayPart (days : Z) : string := show days +:+ " day" +:+ suffix_s days.
Definition hrPart (hours : Z) : string := show hours +:+ " hr" +:+ suffix_s hours.
Definition minPart (mins : Z) : string := show mins +:+ " min".
Definition secPart (secs : Z) : string := show secs +:+ " sec".

Definition YEAR : Z := 365 * 24 * 3600.
Definition DAY : Z := 24 * 3600.
Definition HOUR : Z := 3600.
Definition MIN : Z := 60.

(** The two [parts.push] phases of [formatHMS], on the split counts. *)
Definition firstParts (years days hours mins : Z) : list string :=
  let parts := [] in
  let parts := if negb (years =? 0) then parts ++ [yrPart years] else parts in
  let parts := if negb (days =? 0) then parts ++ [dayPart days] else parts in
  let parts :=
    if (length parts =? 0)%nat && negb (hours =? 0)
    then parts ++ [hrPart hours] else parts in
  if (length parts =? 0)%nat && (hours =? 0) && negb (mins =? 0)
  then parts ++ [minPart mins] else parts.

Definition secondPart (parts : list string) (days hours mins secs : Z)
    : list string :=
  if firstIncludes "yr" parts || firstIncludes "day" parts then
    if negb (days =? 0) && negb (firstIncludes "day" parts)
    then parts ++ [dayPart days]
    else if negb (hours =? 0) then parts ++ [hrPart hours]
    else parts
  else if negb (hours =? 0) then parts ++ [minPart mins]
  else if negb (mins =? 0) then parts ++ [secPart secs]
  else parts ++ [secPart secs].

Definition formatHMS (totalSeconds : Q) : string :=
  let s := Z.max 0 (Qfloor totalSeconds) in
  let years := s / YEAR in
  let s := s - years * YEAR in
  let days := s / DAY in
  let s := s - days * DAY in
  let hours := s / HOUR in
  let s := s - hours * HOUR in
  let mins := s / MIN in
  let secs := Z.rem s MIN in
  let parts := firstParts years days hours mins in
  String.concat " " (secondPart parts days hours mins secs).

(** ** Window of a range (page.tsx, lines 83-116) *)

Module Bounds.
Record t : Type := mk { start : Z; end_ : Z }.
End Bounds.

Section RangeBounds.
(** [startOfDay], [startOfWeek], [startOfMonth] and [startOfYear] build local
    calendar dates with the platform's [Date]; the time zone is the host's,
    so the four are taken as given. *)
Variables startOfDay startOfWeek startOfMonth startOfYear : Z -> Z.

(** [range] is the value that reaches the [switch] at run time: the type
    [Range] is erased, and the preferred range is read back from storage. *)
Definition rangeBounds (now : Z) (range : string) : Bounds.t :=
  if String.eqb range "Today" then Bounds.mk (startOfDay now) now
  else if String.eqb range "Week" then Bounds.mk (startOfWeek now) now
  else if String.eqb range "Month" then Bounds.mk (startOfMonth now) now
  else if String.eqb range "Year" then Bounds.mk (startOfYear now) now
  else Bounds.mk 0 now.

End RangeBounds.

Definition knownRanges : list string :=
  ["Today"; "Week"; "Month"; "Year"; "All"]%string.

(** ** Notions used by the statements *)

(** The parent graph as the hierarchy index holds it: [k] is filed under
    [p]. Root categories are filed under the key ["__root__"]. *)
Definition childOf (categories : list Category.t) (p k : string) : Prop :=
  k ∈ kidsOf (buildChildMap categories) p.

Definition cyclic (categories : list Category.t) : Prop :=
  exists x, tc (childOf categories) x x.

Definition acyclic (categories : list Category.t) : Prop :=
  forall x, ~ tc (childOf categories) x x.

(** The children of [id] by parent link, in snapshot order. *)
Definition childrenOf (categories : list Category.t) (id : string)
    : list string :=
  map Category.id
      (List.filter (fun c => same (Category.parentId c) (Some id))
                   categories).

(** [d + rolled(k1) + ... + rolled(kn)], summed left to right. *)
Definition plusRolled (rolled : gmap string Q) (kids : list string) (d : Q) : Q :=
  fold_left (fun t k => (t + seconds_of rolled k)%Q) kids d.

Definition Qsum (l : list Q) : Q := fold_right Qplus 0%Q l.

Definition Zsum (l : list Z) : Z := fold_right Z.add 0 l.

(** Seconds the sessions of category [c] spend inside the window. *)
Definition sessionSeconds (now windowStart windowEnd : Z) (c : string)
    (sessions : list Session.t) : Q :=
  Qsum (map (fun s => (inject_Z (overlapMs (Session.start s)
                                           (nullish (Session.end_ s) now)
                                           windowStart windowEnd) / 1000)%Q)
            (List.filter (fun s => String.eqb (Session.categoryId s) c) sessions)).

(** A timer is running when it is flagged active and carries a resume
    instant (an instant of [0] reads as unset, as any falsy number does). *)
Definition timerRunning (g : Goal.t) : bool :=
  truthy_bool (Goal.isActive g) && truthy_num (Goal.lastStartTime g).

(** [accumulatedSeconds + (active ? floor((now - lastResume) / 1000) : 0)] *)
Definition timerTotal (now : Z) (g : Goal.t) : Q :=
  (or_zero (Goal.totalSeconds g) +
   inject_Z (if timerRunning g
             then ((now - nullish (Goal.lastStartTime g) 0) / 1000)%Z
             else 0%Z))%Q.

(** Seconds of the goal timers of category [c] whose total is positive. *)
Definition timerSeconds (now : Z) (c : string) (goals : list Goal.t) : Q :=
  Qsum (map (timerTotal now)
            (List.filter (fun g => String.eqb (Goal.categoryId g) c
                                   && Qltb 0 (timerTotal now g)) goals)).

(** The same quantities written from the specification's words alone, with
    none of the program's functions: the overlap formula of its section 4.2,
    the effective end, the accumulated seconds, and the live stretch of a
    timer that is active, which is one flagged active with a resume instant
    on record (the instant [0] is no record). *)
Definition overlap_spec (aStart aEnd bStart bEnd : Z) : Z :=
  Z.max 0 (Z.min aEnd bEnd - Z.max aStart bStart).

Definition effectiveEnd_spec (now : Z) (s : Session.t) : Z :=
  match Session.end_ s with Some e => e | None => now end.

Definition sessionSeconds_spec (now windowStart windowEnd : Z) (c : string)
    (sessions : list Session.t) : Q :=
  Qsum (map (fun s => if String.eqb (Session.categoryId s) c
                      then (inject_Z (overlap_spec (Session.start s)
                                                   (effectiveEnd_spec now s)
                                                   windowStart windowEnd) / 1000)%Q
                      else 0%Q)
            sessions).

Definition accumulated_spec (g : Goal.t) : Q :=
  match Goal.totalSeconds g with Some q => q | None => 0%Q end.

Definition liveElapsed_spec (now : Z) (g : Goal.t) : Z :=
  match Goal.isActive g, Goal.lastStartTime g with
  | Some true, Some lastResume =>
      if lastResume =? 0 then 0 else (now - lastResume) / 1000
  | _, _ => 0
  end.

Definition timerTotal_spec (now : Z) (g : Goal.t) : Q :=
  (accumulated_spec g + inject_Z (liveElapsed_spec now g))%Q.

Definition timerSeconds_spec (now : Z) (c : string) (goals : list Goal.t) : Q :=
  Qsum (map (fun g => if String.eqb (Goal.categoryId g) c
                      then if Qle_bool (timerTotal_spec now g) 0 then 0%Q
                           else timerTotal_spec now g
                      else 0%Q)
            goals).

(** The freeze as the specification words it: the freeze instant stands in
    for [now], the window is left as it is. *)
Definition directSecondsFrozen_spec (freeze : Z) (sessions : list Session.t)
    (windowStart windowEnd : Z) (goals : option (list Goal.t))
    : gmap string Q :=
  computeDirectSeconds freeze sessions windowStart windowEnd goals.

(** The siblings at a level: [None] is the root level. *)
Definition siblingsAt (categories : list Category.t) (level : option string)
    : list Category.t :=
  List.filter (fun c => same (Category.parentId c) level) categories.

(** The goal sum as the specification words it: the siblings' percentages,
    the candidate's value in place of the edited sibling's, or added when no
    sibling carries the candidate's id. *)
Definition goalSum_spec (categories : list Category.t) (level : option string)
    (candidateId : option string) (goalPct : Z) : Z :=
  let siblings := siblingsAt categories level in
  Zsum (map (fun c => if same candidateId (Some (Category.id c))
                      then goalPct else nullish (Category.goalPct c) 0)
            siblings)
  + (if existsb (fun c => same candidateId (Some (Category.id c))) siblings
     then 0 else goalPct).

(** The same over stored rows, leaving out the siblings flagged
    exclude-from-goals, as the specification words it. *)
Definition goalSumIncluded_spec (rows : list CategoryRow.t)
    (level : option string) (candidateId : option string) (goalPct : Z) : Z :=
  goalSum_spec
    (map toCategory
         (List.filter (fun r => negb (CategoryRow.exclude_from_goals r)) rows))
    level candidateId goalPct.


(** The split of a duration into years, days, hours, minutes, seconds. *)
Definition splitSeconds (seconds : Q) : Z * Z * Z * Z * Z :=
  let s := Z.max 0 (Qfloor seconds) in
  (s / YEAR, s mod YEAR / DAY, s mod DAY / HOUR, s mod HOUR / MIN, s mod MIN).





(** ** Predicates and sample values of the proofs *)

(** Every entry of a table of totals is positive. *)
Definition allPositive (totals : gmap string Q) : Prop :=
  forall c v, totals !! c = Some v -> (0 < v)%Q.

Definition noTimerRunning (goals : option (list Goal.t)) : Prop :=
  forall g, g ∈ nullish goals [] -> timerRunning g = false.

(** The members' shares, added up. *)
Definition shareSum (visible : list Category.t) (rolledSeconds : gmap string Q) : Z :=
  Zsum (map (fun c => sharePct visible rolledSeconds (Category.id c)) visible).

Definition rolledOf (rolledSeconds : gmap string Q) (c : Category.t) : Q :=
  seconds_of rolledSeconds (Category.id c).

Definition isDigit (a : ascii) : bool :=
  let n := nat_of_ascii a in (48 <=? n)%nat && (n <=? 57)%nat.

Fixpoint allDigits (s : string) : bool :=
  match s with
  | EmptyString => true
  | String a rest => isDigit a && allDigits rest
  end.

(** [p] is the parent of [k] by parent link. *)
Definition parentLink (categories : list Category.t) (p k : string) : Prop :=
  exists c, c ∈ categories /\ Category.id c = k /\ Category.parentId c = Some p.

(** No category carries the root key as its id. *)
Definition sentinelFree (categories : list Category.t) : Prop :=
  forall c, c ∈ categories -> Category.id c <> "__root__"%string.

(** The memo table has no entry for an id of the set [looping]. *)
Definition avoids (looping : string -> Prop) (memo : gmap string Q) : Prop :=
  forall y, looping y -> memo !! y = None.

(** The memo table holds, for each id it has, the ids of its kids too, and
    as value the id's direct seconds plus the kids' values. *)
Definition memo_ok (childMap : gmap string (list string))
    (direct memo : gmap string Q) : Prop :=
  forall x v, memo !! x = Some v ->
    (forall k, k ∈ kidsOf childMap x -> is_Some (memo !! k)) /\
    v = plusRolled memo (kidsOf childMap x) (seconds_of direct x).

(** What a call [dfs(x)] at depth [d] does to a sound memo table: it comes
    back, keeps the table sound, only adds to it, records [x], and touches
    nothing but [x] and what lies below it. *)
Definition visit_ok (childMap : gmap string (list string))
    (direct : gmap string Q) (R : relation string) (x : string) (d : nat)
    : Prop :=
  forall memo, memo_ok childMap direct memo ->
    exists memo' v,
      dfs childMap direct d x memo = Some (memo', v) /\
      memo_ok childMap direct memo' /\ memo ⊆ memo' /\ memo' !! x = Some v /\
      (forall y, is_Some (memo' !! y) -> is_Some (memo !! y) \/ rtc R x y).

Definition cat (id : string) (parent : option string) (goal : option Z)
    : Category.t :=
  Category.mk id id "#000000" goal None parent.

Definition sess (id cid : string) (start : Z) (end_ : option Z) : Session.t :=
  Session.mk id cid start end_.

Definition goal (id cid : string) (total : option Q) (active : option bool)
    (lastStart : option Z) : Goal.t :=
  Goal.mk id id cid None 0 total active lastStart.

Definition edit (id : string) (goal : Z) : option Override.t :=
  Some (Override.mk (Some id) (Some goal)).

Definition row (id : string) (parent : option string) (goal : option Z)
    (excluded : bool) : CategoryRow.t :=
  CategoryRow.mk id "u1" id "#000000" goal None parent excluded.

Definition selftest_cats : list Category.t :=
  [cat "p" None None; cat "c1" (Some "p"%string) None].

Definition selftest_sessions : list Session.t :=
  [sess "s1" "c1" 0 (Some 10000); sess "s2" "c1" 20000 (Some 40000)].

Definition cycleAB : list Category.t :=
  [cat "A" (Some "B"%string) None; cat "B" (Some "A"%string) None].

Definition family : list Category.t :=
  [cat "p" None None; cat "c1" (Some "p"%string) None;
   cat "c2" (Some "p"%string) None].

Definition familyDirect : gmap string Q :=
  <["p"%string := 5%Q]> (<["c1"%string := 10%Q]> (<["c2"%string := 20%Q]> ∅)).

Definition thirds : list Category.t := [cat "a" None None; cat "b" None None; cat "c" None None].

Definition thirdsRolled : gmap string Q :=
  <["a"%string := 1%Q]> (<["b"%string := 1%Q]> (<["c"%string := 1%Q]> ∅)).

(** Two visible categories with 23 and 17 seconds. *)
Definition twoOfForty : list Category.t := [cat "a" None None; cat "b" None None].

Definition twoOfFortyRolled : gmap string Q :=
  <["a"%string := 23%Q]> (<["b"%string := 17%Q]> ∅).

(** The non-negative doubles: a significand below [2 ^ 53] at an exponent
    from [-1074] up. *)
Definition representable (x : Q) : Prop :=
  exists m e : Z, 0 <= m < 2 ^ 53 /\ -1074 <= e /\ (x == inject_Z m * 2 ^ e)%Q.

(** A running sum of doubles, from [acc] on. *)
Definition sum64 (l : list Q) (acc : Q) : Q :=
  fold_left (fun s v => binary64 (s + binary64 v)) l acc.

(** Visible categories with 0.15 and 0.25 seconds, as doubles. *)
Definition quarterRolled : gmap string Q :=
  <["a"%string := (5404319552844595 # 36028797018963968)%Q]>
    (<["b"%string := (1 # 4)%Q]> ∅).

(** The members' rolled totals are JavaScript numbers, none negative. *)
Definition nonnegDoubles (visible : list Category.t) (rolledSeconds : gmap string Q)
    : Prop :=
  forall m, m ∈ visible ->
    (0 <= rolledOf rolledSeconds m)%Q /\
    (binary64 (rolledOf rolledSeconds m) == rolledOf rolledSeconds m)%Q.

(** ** Percent input (page.tsx, lines 195-203) *)

Definition clampPercent (n : Q) : Z := Z.max 0 (Z.min 100 (math_round n)).

(** [value.replace(/[^0-9]/g, "")] *)
Fixpoint keepDigits (value : string) : string :=
  match value with
  | EmptyString => EmptyString
  | String a rest =>
      if isDigit a then String a (keepDigits rest) else keepDigits rest
  end.

Definition digitValue (a : ascii) : Z := Z.of_nat (nat_of_ascii a) - 48.

Fixpoint numberFrom (acc : Z) (digits : string) : Z :=
  match digits with
  | EmptyString => acc
  | String a rest => numberFrom (10 * acc + digitValue a) rest
  end.

(** [Number(digits)] on a string of decimal digits (the empty string is 0). *)
Definition Number (digits : string) : Z := numberFrom 0 digits.

Definition sanitizeGoalInput (value : string) : string :=
  let digits := keepDigits value in
  if String.eqb digits "" then ""%string
  else show (clampPercent (inject_Z (Number digits))).

(** The editor's [proposed] (line 2619). *)
Definition proposedGoal (editGoal : string) : Z :=
  if String.eqb editGoal "" then 0 else Number (sanitizeGoalInput editGoal).

(** ** Text (page.tsx, lines 78-81) *)

Definition truncateText (text : string) (maxLength : option Z) : string :=
  let maxLength := nullish maxLength 18 in
  if Z.of_nat (String.length text) <=? maxLength then text
  else substring 0 16 text +:+ "..".

(** ** Category lookup (page.tsx, lines 335-341) *)

Definition getCategory (categories : list Category.t) (id : option string)
    : option Category.t :=
  if negb (truthy_str id) then None
  else List.find (fun c => same (Some (Category.id c)) id) categories.

Definition getCategoryColor (categories : list Category.t) (id : option string)
    : string :=
  nullish (option_map Category.color (getCategory categories id)) "#6b7280"%string.

(** ** Adding and editing a category (page.tsx, lines 1969-1983, 2116-2166,
    2264-2266) *)

(** The sum [addCategory] and the add form check for a new category with
    goal [goalPct ?? 0] under [parentId]. *)
Definition adderSum (categories : list Category.t) (parentId : option string)
    (goalPct : option Z) : Z :=
  let override := Some (Override.mk None (Some (nullish goalPct 0))) in
  match parentId with
  | None => computeRootGoalSum categories override
  | Some p => computeChildGoalSum categories p override
  end.

(** [goal || undefined] *)
Definition goalOrUndefined (goal : Z) : option Z :=
  if goal =? 0 then None else Some goal.

Section SaveEditor.
(** [String.prototype.trim] is the platform's. *)
Variable trim : string -> string.

(** [saveEditor] for a user who is not signed in: the new category list, or
    [None] when the function returns without saving. The goal field is a
    string of decimal digits: its input passes through [sanitizeGoalInput],
    and [openEditor] fills it with [String(goalPct)]. *)
Definition saveEditorLocal (categories : list Category.t)
    (editingId : option string) (editName editGoal editColor editIcon : string)
    : option (list Category.t) :=
  if negb (truthy_str editingId) then None else
  match List.find (fun c => same (Some (Category.id c)) editingId) categories with
  | None => None
  | Some cat =>
      let name := trim editName in
      if String.eqb name "" then None else
      let goal := if String.eqb editGoal "" then 0 else Number editGoal in
      let override := Some (Override.mk (Some (Category.id cat)) (Some goal)) in
      let sum :=
        if truthy_str (Category.parentId cat)
        then computeChildGoalSum categories (nullish (Category.parentId cat) "") override
        else computeRootGoalSum categories override in
      if 100 <? sum then None
      else Some (map (fun c =>
                        if same (Some (Category.id c)) editingId
                        then Category.mk (Category.id c) name editColor
                               (goalOrUndefined goal) (Some editIcon)
                               (Category.parentId c)
                        else c)
                     categories)
  end.

End SaveEditor.

(** ** Starting and stopping timers without an account (page.tsx, lines
    554-594, 1654-1854, 2221-2238) *)

Module App.
Record t : Type := mk {
  categories : list Category.t;
  sessions : list Session.t;
  goals : list Goal.t;
  activeId : option string
}.
End App.

(** [{ ...s, end: now }] *)
Definition withEnd (s : Session.t) (now : Z) : Session.t :=
  Session.mk (Session.id s) (Session.categoryId s) (Session.start s) (Some now).

(** The loop of [stopRunning] from the last session down: the first session
    met with [end == null] gets its end, and the loop breaks. The flag tells
    whether that has happened. *)
Fixpoint closeLastOpen (now : Z) (sessions : list Session.t)
    : list Session.t * bool :=
  match sessions with
  | [] => ([], false)
  | s :: rest =>
      let '(rest', closed) := closeLastOpen now rest in
      if closed then (s :: rest', true)
      else match Session.end_ s with
           | None => (withEnd s now :: rest', true)
           | Some _ => (s :: rest', false)
           end
  end.

Definition stopRunningLocal (now : Z) (st : App.t) : App.t :=
  match List.find (fun s => negb (truthy_num (Session.end_ s))) (App.sessions st) with
  | Some _ =>
      App.mk (App.categories st) (fst (closeLastOpen now (App.sessions st)))
             (App.goals st) None
  | None => st
  end.

(** [{ ...g, isActive: false, totalSeconds: (g.totalSeconds || 0) +
    sessionSeconds, lastStartTime: undefined }] *)
Definition stopGoal (now : Z) (g : Goal.t) : Goal.t :=
  let sessionSeconds :=
    if truthy_num (Goal.lastStartTime g)
    then (now - nullish (Goal.lastStartTime g) 0) / 1000 else 0 in
  Goal.mk (Goal.id g) (Goal.text g) (Goal.categoryId g) (Goal.completed g)
          (Goal.createdAt g)
          (Some (or_zero (Goal.totalSeconds g) + inject_Z sessionSeconds)%Q)
          (Some false) None.

Definition stopAllActiveTimersLocal (now : Z) (st : App.t) : App.t :=
  let st := stopRunningLocal now st in
  App.mk (App.categories st) (App.sessions st)
         (map (fun g => if truthy_bool (Goal.isActive g) then stopGoal now g else g)
              (App.goals st))
         (App.activeId st).

(** [newId] is the id [uid()] draws. *)
Definition startCategoryLocal (now : Z) (newId id : string) (st : App.t) : App.t :=
  let st := stopAllActiveTimersLocal now st in
  App.mk (App.categories st)
         (App.sessions st ++ [Session.mk newId id now None])
         (App.goals st) (Some id).

(** [{ ...g, isActive: true, lastStartTime: Date.now() }] *)
Definition startGoal (now : Z) (g : Goal.t) : Goal.t :=
  Goal.mk (Goal.id g) (Goal.text g) (Goal.categoryId g) (Goal.completed g)
          (Goal.createdAt g) (Goal.totalSeconds g) (Some true) (Some now).

Definition toggleGoalTimerLocal (now : Z) (id : string) (st : App.t) : App.t :=
  match List.find (fun g => String.eqb (Goal.id g) id) (App.goals st) with
  | None => st
  | Some goal =>
      if truthy_bool (Goal.completed goal) then st
      else
        let st := stopAllActiveTimersLocal now st in
        App.mk (App.categories st) (App.sessions st)
               (map (fun g => if String.eqb (Goal.id g) id then startGoal now g else g)
                    (App.goals st))
               (App.activeId st)
  end.

(** [[categoryId, ...childIds]] *)
Definition relatedIds (categories : list Category.t) (categoryId : string)
    : list string :=
  categoryId ::
  map Category.id
      (List.filter (fun c => same (Category.parentId c) (Some categoryId))
                   categories).

(** [g.isActive && allRelatedIds.includes(g.categoryId)] *)
Definition activeUnder (related : list string) (g : Goal.t) : bool :=
  truthy_bool (Goal.isActive g) && existsb (String.eqb (Goal.categoryId g)) related.

Definition stopActiveGoalsUnderLocal (now : Z) (categoryId : string) (st : App.t)
    : App.t :=
  let allRelatedIds := relatedIds (App.categories st) categoryId in
  let activeGoalsUnder := List.filter (activeUnder allRelatedIds) (App.goals st) in
  App.mk (App.categories st) (App.sessions st)
         (map (fun g =>
                 if existsb (fun ag => String.eqb (Goal.id ag) (Goal.id g))
                            activeGoalsUnder
                 then stopGoal now g else g)
              (App.goals st))
         (App.activeId st).

Definition isCategoryHighlighted (st : App.t) (catId : string) : bool :=
  if same (App.activeId st) (Some catId) then true
  else if existsb (fun c => same (Category.parentId c) (Some catId)
                            && same (App.activeId st) (Some (Category.id c)))
                  (App.categories st) then true
  else existsb (activeUnder (relatedIds (App.categories st) catId)) (App.goals st).

Definition toggleCategoryLocal (now : Z) (newId id : string) (st : App.t) : App.t :=
  if same (App.activeId st) (Some id) then stopRunningLocal now st
  else if isCategoryHighlighted st id
  then stopActiveGoalsUnderLocal now id (stopRunningLocal now st)
  else startCategoryLocal now newId id st.

(** Sessions still open, goal timers flagged active, and both together. *)
Definition openCount (sessions : list Session.t) : nat :=
  length (List.filter (fun s => match Session.end_ s with None => true | Some _ => false end)
                      sessions).

Definition activeCount (goals : list Goal.t) : nat :=
  length (List.filter (fun g => truthy_bool (Goal.isActive g)) goals).

Definition runningCount (st : App.t) : nat :=
  (openCount (App.sessions st) + activeCount (App.goals st))%nat.

(** The plain goal sum of a level, no candidate. *)
Definition levelSum (categories : list Category.t) (level : option string) : Z :=
  match level with
  | None => computeRootGoalSum categories None
  | Some p => computeChildGoalSum categories p None
  end.

(** ** Completing a goal and going back (page.tsx, lines 596-635, 1959-1963) *)

(** [{ ...g, completed: !g.completed, isActive: false }] *)
Definition flipCompleted (g : Goal.t) : Goal.t :=
  Goal.mk (Goal.id g) (Goal.text g) (Goal.categoryId g)
          (Some (negb (truthy_bool (Goal.completed g)))) (Goal.createdAt g)
          (Goal.totalSeconds g) (Some false) (Goal.lastStartTime g).

Definition toggleGoalCompletionLocal (id : string) (st : App.t) : App.t :=
  match List.find (fun g => String.eqb (Goal.id g) id) (App.goals st) with
  | None => st
  | Some _ =>
      App.mk (App.categories st) (App.sessions st)
             (map (fun g => if String.eqb (Goal.id g) id then flipCompleted g else g)
                  (App.goals st))
             (App.activeId st)
  end.

(** The level [goBack] sets; at the root level it returns without setting
    one. *)
Definition goBack (categories : list Category.t) (currentParentId : option string)
    : option string :=
  match currentParentId with
  | None => None
  | Some p =>
      match List.find (fun c => same (Some (Category.id c)) (Some p)) categories with
      | Some c => Category.parentId c
      | None => None
      end
  end.

(** ** Shades of a colour (page.tsx, lines 368-387) *)

(** [baseColor.replace('#', '')]: the first [#] goes. *)
Fixpoint removeFirstHash (s : string) : string :=
  match s with
  | EmptyString => EmptyString
  | String a rest =>
      if Ascii.eqb a "#" then rest else String a (removeFirstHash rest)
  end.

Definition hexValue (a : ascii) : option Z :=
  let n := Z.of_nat (nat_of_ascii a) in
  if (48 <=? n) && (n <=? 57) then Some (n - 48)
  else if (97 <=? n) && (n <=? 102) then Some (n - 87)
  else if (65 <=? n) && (n <=? 70) then Some (n - 55)
  else None.

Definition isSpace (a : ascii) : bool :=
  let n := nat_of_ascii a in
  ((9 <=? n)%nat && (n <=? 13)%nat) || (n =? 32)%nat.

Fixpoint skipSpace (s : string) : string :=
  match s with
  | String a rest => if isSpace a then skipSpace rest else s
  | EmptyString => s
  end.

(** The longest run of hex digits in front of [s]; [None] when there is
    none. *)
Fixpoint hexPrefix (acc : option Z) (s : string) : option Z :=
  match s with
  | EmptyString => acc
  | String a rest =>
      match hexValue a with
      | Some d => hexPrefix (Some (16 * nullish acc 0 + d)) rest
      | None => acc
      end
  end.

(** [parseInt(s, 16)] on a string of ASCII characters: white space, a sign
    and a prefix [0x] are skipped, then the leading hex digits are read;
    [None] is [NaN]. *)
Definition parseInt16 (s : string) : option Z :=
  let s := skipSpace s in
  let '(negative, s) :=
    match s with
    | String "-" rest => (true, rest)
    | String "+" rest => (false, rest)
    | _ => (false, s)
    end in
  let s :=
    match s with
    | String "0" (String "x" rest) => rest
    | String "0" (String "X" rest) => rest
    | _ => s
    end in
  option_map (fun n => if negative then - n else n) (hexPrefix None s).

(** The multipliers 0.6, 0.8, 1.0, 1.2, 1.4, 1.6 and 1.8. A product of a
    whole number with a whole number of fifths is at least a tenth away
    from every half, so rounding the exact product and rounding the
    floating-point one give the same whole number. *)
Definition multipliers : list Q :=
  [3 # 5; 4 # 5; 1; 6 # 5; 7 # 5; 8 # 5; 9 # 5]%Q.

(** [Math.min(255, Math.round(r * multiplier))], on [NaN] as well. *)
Definition shadeChannel (multiplier : Q) (r : option Z) : option Z :=
  option_map (fun r => Z.min 255 (math_round (inject_Z r * multiplier))) r.

(** [n.toString(16).padStart(2, '0')] *)
Definition toHex (n : option Z) : string :=
  let digits :=
    match n with
    | Some n => HexadecimalString.NilZero.string_of_int (Z.to_hex_int n)
    | None => "NaN"%string
    end in
  match String.length digits with
  | 0%nat => ("00" +:+ digits)%string
  | 1%nat => ("0" +:+ digits)%string
  | _ => digits
  end.

(** [shadeIndex] is a count of subcategories at both call sites. *)
Definition generateColorShade (baseColor : string) (shadeIndex : nat) : string :=
  let hex := removeFirstHash baseColor in
  let r := parseInt16 (substring 0 2 hex) in
  let g := parseInt16 (substring 2 2 hex) in
  let b := parseInt16 (substring 4 2 hex) in
  let multiplier := nth (shadeIndex mod length multipliers) multipliers 1%Q in
  let newR := shadeChannel multiplier r in
  let newG := shadeChannel multiplier g in
  let newB := shadeChannel multiplier b in
  ("#" +:+ toHex newR +:+ toHex newG +:+ toHex newB)%string.

Definition isHexDigit (a : ascii) : bool :=
  match hexValue a with Some _ => true | None => false end.

(** A colour as the palette writes it: [#] and six hex digits. *)
Definition isHexColor (color : string) : bool :=
  match color with
  | String c0 (String a1 (String a2 (String a3 (String a4 (String a5
      (String a6 EmptyString)))))) =>
      Ascii.eqb c0 "#" && forallb isHexDigit [a1; a2; a3; a4; a5; a6]
  | _ => false
  end.

(** The red, green and blue of a colour, as [generateColorShade] reads
    them. *)
Definition channels (color : string) : list (option Z) :=
  let hex := removeFirstHash color in
  [parseInt16 (substring 0 2 hex); parseInt16 (substring 2 2 hex);
   parseInt16 (substring 4 2 hex)].

(** All characters, and the checks run over them. *)
Definition allAscii : list ascii := map ascii_of_nat (seq 0 256).

Definition pairParses (a b : ascii) : bool :=
  match hexValue a, hexValue b with
  | Some da, Some db =>
      match parseInt16 (String a (String b EmptyString)) with
      | Some v => v =? 16 * da + db
      | None => false
      end
  | _, _ => true
  end.

Definition byteShows (n : nat) : bool :=
  let v := Z.of_nat n in
  match toHex (Some v) with
  | String a (String b EmptyString) =>
      match hexValue a, hexValue b with
      | Some x, Some y => (x =? v / 16) && (y =? v mod 16)
      | _, _ => false
      end
  | _ => false
  end.

(** What a call that comes back leaves in the memo table: all that was
    there, the id visited, and beyond that only ids the index files as
    somebody's kid. *)
Definition keys_ok (childMap : gmap string (list string)) (id : string)
    (memo memo' : gmap string Q) : Prop :=
  (forall y, is_Some (memo !! y) -> is_Some (memo' !! y)) /\
  (forall y, is_Some (memo' !! y) ->
             is_Some (memo !! y) \/ y = id \/ exists p, y ∈ kidsOf childMap p).

(** Every value of the memo table is at least the direct seconds of its id. *)
Definition covers (direct memo : gmap string Q) : Prop :=
  forall x v, memo !! x = Some v -> (seconds_of direct x <= v)%Q.

(** The rolled totals of [family] under [familyDirect]. *)
Definition familyRolled : gmap string Q :=
  <["p"%string := 35%Q]> (<["c1"%string := 10%Q]> (<["c2"%string := 20%Q]> ∅)).

(** A state with one session running on ["c1"], a child of ["p"], and one
    with a goal timer running there instead. *)
Definition desk : App.t :=
  App.mk [cat "p" None None; cat "c1" (Some "p"%string) None]
         [sess "s1" "c1" 0 (Some 10000); sess "s2" "c1" 20000 None]
         [goal "g1" "c1" (Some 12%Q) (Some false) None]
         (Some "c1"%string).

Definition deskGoal : App.t :=
  App.mk [cat "p" None None; cat "c1" (Some "p"%string) None]
         [sess "s1" "c1" 0 (Some 10000)]
         [goal "g1" "c1" (Some 12%Q) (Some true) (Some 20000);
          goal "g2" "p" None None None]
         None.

(** * Properties *)
(** * Direct seconds *)

Lemma seconds_of_bump totals k x c :
  seconds_of (bump totals k x) c =
  if decide (k = c) then (seconds_of totals k + x)%Q else seconds_of totals c.
Proof.
  unfold bump, seconds_of at 1. rewrite lookup_insert.
  destruct (decide (k = c)); reflexivity.
Qed.

Lemma overlapMs_nonneg a b c d : 0 <= overlapMs a b c d.
Proof. unfold overlapMs. lia. Qed.

Lemma eqb_decide (a b : string) :
  String.eqb a b = if decide (a = b) then true else false.
Proof.
  destruct (decide (a = b)) as [->|Hne].
  - apply String.eqb_refl.
  - apply String.eqb_neq. exact Hne.
Qed.

Lemma Qltb_lt a b : Qltb a b = true <-> (a < b)%Q.
Proof.
  unfold Qltb. rewrite negb_true_iff. split.
  - intros H. apply Qnot_le_lt. intros Hle.
    apply Qle_bool_iff in Hle. congruence.
  - intros H. destruct (Qle_bool b a) eqn:E; [|reflexivity].
    apply Qle_bool_iff in E. exfalso. exact (Qlt_not_le _ _ H E).
Qed.

Lemma Qltb_ge a b : Qltb a b = false <-> (b <= a)%Q.
Proof.
  unfold Qltb. rewrite negb_false_iff. apply Qle_bool_iff.
Qed.

Lemma goalTotalSeconds_timerTotal now g : goalTotalSeconds now g = timerTotal now g.
Proof. reflexivity. Qed.

(** One session moves its own category by its overlap and nothing else. *)
Lemma addSession_seconds now ws we totals s c :
  (seconds_of (addSession now ws we totals s) c ==
   seconds_of totals c +
   (if String.eqb (Session.categoryId s) c
    then inject_Z (sessionMs now ws we s) / 1000 else 0))%Q.
Proof.
  unfold addSession. rewrite eqb_decide.
  destruct (0 <? sessionMs now ws we s) eqn:E.
  - rewrite seconds_of_bump.
    destruct (decide (Session.categoryId s = c)) as [->|]; [reflexivity|ring].
  - apply Z.ltb_ge in E.
    assert (sessionMs now ws we s = 0) as ->
      by (pose proof (overlapMs_nonneg (Session.start s)
            (nullish (Session.end_ s) now) ws we); unfold sessionMs in *; lia).
    destruct (decide (Session.categoryId s = c)); [|ring].
    assert (inject_Z 0 / 1000 == 0)%Q as -> by reflexivity. ring.
Qed.

Lemma addGoal_seconds now totals g c :
  (seconds_of (addGoal now totals g) c ==
   seconds_of totals c +
   (if String.eqb (Goal.categoryId g) c && Qltb 0 (timerTotal now g)
    then timerTotal now g else 0))%Q.
Proof.
  unfold addGoal. rewrite goalTotalSeconds_timerTotal, eqb_decide.
  destruct (Qltb 0 (timerTotal now g)) eqn:E.
  - rewrite seconds_of_bump.
    destruct (decide (Goal.categoryId g = c)) as [->|]; simpl; [reflexivity|ring].
  - rewrite andb_false_r. ring.
Qed.

Lemma sessions_fold_seconds now ws we c sessions totals :
  (seconds_of (fold_left (addSession now ws we) sessions totals) c ==
   seconds_of totals c + sessionSeconds now ws we c sessions)%Q.
Proof.
  revert totals. induction sessions as [|s l IH]; intros totals.
  - unfold sessionSeconds. simpl. ring.
  - simpl fold_left. rewrite IH, addSession_seconds.
    unfold sessionSeconds. simpl List.filter.
    destruct (String.eqb (Session.categoryId s) c); simpl.
    + unfold sessionMs. ring.
    + ring.
Qed.

Lemma goals_fold_seconds now c goals totals :
  (seconds_of (fold_left (addGoal now) goals totals) c ==
   seconds_of totals c + timerSeconds now c goals)%Q.
Proof.
  revert totals. induction goals as [|g l IH]; intros totals.
  - unfold timerSeconds. simpl. ring.
  - simpl fold_left. rewrite IH, addGoal_seconds.
    unfold timerSeconds. simpl List.filter.
    destruct (String.eqb (Goal.categoryId g) c && Qltb 0 (timerTotal now g));
      simpl; ring.
Qed.

(** The totals of one category, as a sum over its sessions and timers. *)
Lemma direct_seconds_formula now sessions ws we goals c :
  (seconds_of (computeDirectSeconds now sessions ws we goals) c
   == sessionSeconds now ws we c sessions + timerSeconds now c (nullish goals []))%Q.
Proof.
  unfold computeDirectSeconds. destruct goals as [gs|]; simpl nullish.
  - rewrite goals_fold_seconds, sessions_fold_seconds.
    unfold seconds_of at 1. rewrite lookup_empty. simpl. ring.
  - rewrite sessions_fold_seconds.
    unfold seconds_of at 1. rewrite lookup_empty. unfold timerSeconds. simpl. ring.
Qed.

(** The program's overlap is the specification's formula. *)
Lemma overlapMs_overlap_spec aStart aEnd bStart bEnd :
  overlapMs aStart aEnd bStart bEnd = overlap_spec aStart aEnd bStart bEnd.
Proof. unfold overlapMs, overlap_spec. lia. Qed.

Lemma sessionSeconds_sessionSeconds_spec now ws we c sessions :
  (sessionSeconds now ws we c sessions == sessionSeconds_spec now ws we c sessions)%Q.
Proof.
  unfold sessionSeconds, sessionSeconds_spec.
  induction sessions as [|s l IH]; [reflexivity|]. cbn [List.filter map].
  destruct (String.eqb (Session.categoryId s) c).
  - unfold Qsum in *. cbn [map fold_right]. rewrite IH.
    rewrite overlapMs_overlap_spec. unfold effectiveEnd_spec, nullish. reflexivity.
  - unfold Qsum in *. cbn [fold_right]. rewrite IH. ring.
Qed.

(** The program's [x || 0] is the accumulated seconds, and its guard
    [isActive && lastStartTime] the live stretch of an active timer. *)
Lemma timerTotal_timerTotal_spec now g :
  (timerTotal now g == timerTotal_spec now g)%Q.
Proof.
  unfold timerTotal, timerTotal_spec.
  assert (or_zero (Goal.totalSeconds g) == accumulated_spec g)%Q as ->.
  { unfold or_zero, accumulated_spec. destruct (Goal.totalSeconds g) as [q|];
      [|reflexivity].
    destruct (Qeq_bool q 0) eqn:E; [|reflexivity].
    apply Qeq_bool_iff in E. by rewrite E. }
  assert ((if timerRunning g
           then (now - nullish (Goal.lastStartTime g) 0) / 1000 else 0)
          = liveElapsed_spec now g) as ->; [|reflexivity].
  unfold timerRunning, liveElapsed_spec, truthy_bool, truthy_num.
  destruct (Goal.isActive g) as [[|]|]; destruct (Goal.lastStartTime g) as [t|];
    simpl; try reflexivity.
  destruct (t =? 0); reflexivity.
Qed.

Lemma timerSeconds_timerSeconds_spec now c goals :
  (timerSeconds now c goals == timerSeconds_spec now c goals)%Q.
Proof.
  unfold timerSeconds, timerSeconds_spec.
  induction goals as [|g l IH]; [reflexivity|]. cbn [List.filter map].
  pose proof (timerTotal_timerTotal_spec now g) as Ht.
  assert (Qltb 0 (timerTotal now g) = negb (Qle_bool (timerTotal_spec now g) 0)) as Hb.
  { unfold Qltb. f_equal. destruct (Qle_bool (timerTotal_spec now g) 0) eqn:E.
    - apply Qle_bool_iff. apply Qle_bool_iff in E. by rewrite Ht.
    - destruct (Qle_bool (timerTotal now g) 0) eqn:E'; [|reflexivity].
      apply Qle_bool_iff in E'. rewrite Ht in E'. apply Qle_bool_iff in E'.
      congruence. }
  rewrite Hb. unfold Qsum in *.
  destruct (String.eqb (Goal.categoryId g) c);
    destruct (Qle_bool (timerTotal_spec now g) 0);
    cbn [andb negb map fold_right]; rewrite IH; try rewrite Ht; ring.
Qed.

(** C2. For every clock reading, sessions, goal timers and window, the
    direct seconds of each category are, summed over its sessions,
    [max(0, min(end ?? now, windowEnd) - max(start, windowStart)) / 1000],
    plus, summed over its goal timers whose total is positive, the full total
    [accumulatedSeconds + floor((now - lastResume) / 1000)] for an active
    timer and [accumulatedSeconds] for one that is not. The timers' share
    does not mention the window. *)
Theorem computeDirectSeconds_sums (now : Z) (sessions : list Session.t)
    (windowStart windowEnd : Z) (goals : option (list Goal.t)) (c : string) :
  (seconds_of (computeDirectSeconds now sessions windowStart windowEnd goals) c
   == sessionSeconds_spec now windowStart windowEnd c sessions
      + timerSeconds_spec now c (match goals with Some gs => gs | None => [] end))%Q.
Proof.
  rewrite direct_seconds_formula.
  rewrite sessionSeconds_sessionSeconds_spec, timerSeconds_timerSeconds_spec.
  destruct goals; reflexivity.
Qed.

Lemma seconds_of_nonneg totals c : allPositive totals -> (0 <= seconds_of totals c)%Q.
Proof.
  intros H. unfold seconds_of. destruct (totals !! c) as [v|] eqn:E; simpl.
  - apply Qlt_le_weak. exact (H c v E).
  - apply Qle_refl.
Qed.

Lemma bump_positive totals k x :
  allPositive totals -> (0 < x)%Q -> allPositive (bump totals k x).
Proof.
  intros H Hx c v. unfold bump. rewrite lookup_insert.
  destruct (decide (k = c)) as [->|Hne]; [|apply H].
  intros [= <-].
  apply Qlt_le_trans with (y := (0 + x)%Q).
  - rewrite Qplus_0_l. exact Hx.
  - apply Qplus_le_l. apply seconds_of_nonneg, H.
Qed.

Lemma ms_seconds_positive ms : 0 < ms -> (0 < inject_Z ms / 1000)%Q.
Proof.
  intros H. apply Qlt_shift_div_l; [reflexivity|].
  rewrite Qmult_0_l. change 0%Q with (inject_Z 0). rewrite <- Zlt_Qlt. exact H.
Qed.

Lemma addSession_positive now ws we totals s :
  allPositive totals -> allPositive (addSession now ws we totals s).
Proof.
  intros H. unfold addSession.
  destruct (0 <? sessionMs now ws we s) eqn:E; [|exact H].
  apply bump_positive; [exact H|]. apply ms_seconds_positive, Z.ltb_lt, E.
Qed.

Lemma addGoal_positive now totals g :
  allPositive totals -> allPositive (addGoal now totals g).
Proof.
  intros H. unfold addGoal.
  destruct (Qltb 0 (goalTotalSeconds now g)) eqn:E; [|exact H].
  apply bump_positive; [exact H|]. apply Qltb_lt, E.
Qed.

Lemma fold_positive {A : Type} (step : gmap string Q -> A -> gmap string Q)
    (l : list A) (totals : gmap string Q) :
  (forall t a, allPositive t -> allPositive (step t a)) ->
  allPositive totals -> allPositive (fold_left step l totals).
Proof.
  intros Hstep. revert totals.
  induction l as [|a l IH]; intros totals H; simpl; [exact H|].
  apply IH, Hstep, H.
Qed.

(** A fold that never writes key [c] leaves it as it was. *)
Lemma fold_untouched {A : Type} (step : gmap string Q -> A -> gmap string Q)
    (l : list A) (totals : gmap string Q) (c : string) :
  (forall t a, a ∈ l -> step t a !! c = t !! c) ->
  fold_left step l totals !! c = totals !! c.
Proof.
  revert totals. induction l as [|a l IH]; intros totals H; simpl; [reflexivity|].
  rewrite IH.
  - apply H. left.
  - intros t b Hb. apply H. right. exact Hb.
Qed.

Lemma bump_other totals k x c : k <> c -> bump totals k x !! c = totals !! c.
Proof. intros H. unfold bump. apply lookup_insert_ne, H. Qed.

(** C10. Every value of the mapping [computeDirectSeconds] returns is
    strictly positive, and a category whose sessions all have zero overlap
    with the window and whose goal timers all have a non-positive total has
    no entry at all. *)
Theorem computeDirectSeconds_positive (now : Z) (sessions : list Session.t)
    (windowStart windowEnd : Z) (goals : option (list Goal.t)) :
  (forall c v,
     computeDirectSeconds now sessions windowStart windowEnd goals !! c = Some v ->
     (0 < v)%Q) /\
  (forall c,
     (forall s, s ∈ sessions -> Session.categoryId s = c ->
                overlapMs (Session.start s) (nullish (Session.end_ s) now)
                          windowStart windowEnd = 0) ->
     (forall g, g ∈ nullish goals [] -> Goal.categoryId g = c ->
                (timerTotal now g <= 0)%Q) ->
     computeDirectSeconds now sessions windowStart windowEnd goals !! c = None).
Proof.
  split.
  - assert (allPositive (fold_left (addSession now windowStart windowEnd) sessions ∅))
      as Hs.
    { apply fold_positive; [intros; by apply addSession_positive|].
      intros c v. rewrite lookup_empty. discriminate. }
    unfold computeDirectSeconds. destruct goals as [gs|]; [|exact Hs].
    apply fold_positive; [intros; by apply addGoal_positive|exact Hs].
  - intros c Hsess Hgoals.
    assert (fold_left (addSession now windowStart windowEnd) sessions ∅ !! c = None)
      as Hs.
    { rewrite fold_untouched; [apply lookup_empty|].
      intros t s Hin. unfold addSession.
      destruct (0 <? sessionMs now windowStart windowEnd s) eqn:E; [|reflexivity].
      apply bump_other. intros Hc. apply Z.ltb_lt in E.
      unfold sessionMs in E. rewrite (Hsess s Hin Hc) in E. lia. }
    unfold computeDirectSeconds. destruct goals as [gs|]; [|exact Hs].
    rewrite fold_untouched; [exact Hs|].
    intros t g Hin. unfold addGoal. rewrite goalTotalSeconds_timerTotal.
    destruct (Qltb 0 (timerTotal now g)) eqn:E; [|reflexivity].
    apply bump_other. intros Hc. apply Qltb_lt in E.
    exact (Qlt_not_le _ _ E (Hgoals g Hin Hc)).
Qed.

Lemma fold_left_ext_in {A B : Type} (f g : A -> B -> A) (l : list B) (a : A) :
  (forall x b, b ∈ l -> f x b = g x b) -> fold_left f l a = fold_left g l a.
Proof.
  revert a. induction l as [|b l IH]; intros a H; simpl; [reflexivity|].
  rewrite (H a b) by left. apply IH. intros x b' Hb'. apply H. right. exact Hb'.
Qed.

(** Past the window's end the clock no longer shows in a session's overlap. *)
Lemma sessionMs_clock now ws we s :
  we <= now -> sessionMs now ws we s = sessionMs we ws we s.
Proof.
  intros H. unfold sessionMs, overlapMs.
  destruct (Session.end_ s); simpl; lia.
Qed.

Lemma addGoal_clock now now' totals g :
  timerRunning g = false -> addGoal now totals g = addGoal now' totals g.
Proof.
  intros H. unfold addGoal, goalTotalSeconds, currentElapsed.
  unfold timerRunning in H. rewrite H. reflexivity.
Qed.

Lemma computeDirectSeconds_clock now sessions ws we goals :
  we <= now -> noTimerRunning goals ->
  computeDirectSeconds now sessions ws we goals =
  computeDirectSeconds we sessions ws we goals.
Proof.
  intros Hle Hgoals. unfold computeDirectSeconds.
  assert (fold_left (addSession now ws we) sessions ∅ =
          fold_left (addSession we ws we) sessions ∅) as ->.
  { apply fold_left_ext_in. intros t s _. unfold addSession.
    rewrite (sessionMs_clock now) by exact Hle. reflexivity. }
  destruct goals as [gs|]; [|reflexivity].
  apply fold_left_ext_in. intros t g Hin. apply addGoal_clock, Hgoals, Hin.
Qed.

(** C5, as stated, fails: a session that ran from 1 s to 4 s, the window
    [0, 5 s), the chart hovered since 2 s and the clock at 5 s. The frozen
    chart cuts the window at 2 s and counts 1 s of the session; with the
    freeze standing in for [now] and the window kept, it would count 3 s. *)
Lemma directSecondsChart_changes_window :
  directSecondsChart 5000 true (Some 2000) [sess "s1" "work" 1000 (Some 4000)]
                     0 5000 None
  <> directSecondsFrozen_spec 2000 [sess "s1" "work" 1000 (Some 4000)]
                              0 5000 None.
Proof.
  intros H.
  assert (directSecondsChart 5000 true (Some 2000)
            [sess "s1" "work" 1000 (Some 4000)] 0 5000 None !! "work"%string
          = Some (0 + inject_Z 1000 / 1000)%Q) as H1 by (vm_compute; reflexivity).
  assert (directSecondsFrozen_spec 2000
            [sess "s1" "work" 1000 (Some 4000)] 0 5000 None !! "work"%string
          = Some (0 + inject_Z 3000 / 1000)%Q) as H2 by (vm_compute; reflexivity).
  rewrite H, H2 in H1. discriminate H1.
Qed.

Lemma addSession_ended now now' ws we totals s :
  Session.end_ s <> None ->
  addSession now ws we totals s = addSession now' ws we totals s.
Proof.
  intros H. unfold addSession, sessionMs.
  destruct (Session.end_ s); [reflexivity|contradiction].
Qed.

(** C5, amended. The clock is an input of [computeDirectSeconds] beside its
    arguments: it shows only through running sessions and running goal
    timers. In the chart path the freeze instant replaces the end of the
    window: when no goal timer is running and the freeze instant is not later
    than the clock, the frozen chart shows exactly the mapping computed at the
    freeze instant for the window ending there, so a running session is
    counted up to the freeze instant. *)
Theorem directSecondsChart_freeze (now freeze : Z) (sessions : list Session.t)
    (windowStart windowEnd : Z) (goals : option (list Goal.t)) :
  noTimerRunning goals ->
  (freeze <> 0 -> freeze <= now ->
   directSecondsChart now true (Some freeze) sessions windowStart windowEnd goals
   = computeDirectSeconds freeze sessions windowStart freeze goals) /\
  ((forall s, s ∈ sessions -> Session.end_ s <> None) ->
   forall now',
     computeDirectSeconds now sessions windowStart windowEnd goals
     = computeDirectSeconds now' sessions windowStart windowEnd goals).
Proof.
  intros Hgoals. split.
  - intros Hnz Hle. unfold directSecondsChart, endForChart. simpl.
    destruct (freeze =? 0) eqn:E; [apply Z.eqb_eq in E; contradiction|].
    simpl. apply computeDirectSeconds_clock; assumption.
  - intros Hended now'. unfold computeDirectSeconds.
    assert (fold_left (addSession now windowStart windowEnd) sessions ∅ =
            fold_left (addSession now' windowStart windowEnd) sessions ∅) as ->.
    { apply fold_left_ext_in. intros t s Hs. by apply addSession_ended, Hended. }
    destruct goals as [gs|]; [|reflexivity].
    apply fold_left_ext_in. intros t g Hin. apply addGoal_clock, Hgoals, Hin.
Qed.

Lemma directSecondsChart_freeze_witness :
  directSecondsChart 5000 true (Some 2000)
    [sess "s1" "work" 1000 None] 0 5000
    (Some [goal "g1" "work" (Some 20%Q) (Some false) None])
  = computeDirectSeconds 2000 [sess "s1" "work" 1000 None] 0 2000
    (Some [goal "g1" "work" (Some 20%Q) (Some false) None]).
Proof.
  apply (proj1 (directSecondsChart_freeze 5000 2000
                  [sess "s1" "work" 1000 None] 0 5000
                  (Some [goal "g1" "work" (Some 20%Q) (Some false) None])
                  ltac:(intros g Hg; apply list_elem_of_singleton in Hg;
                        subst g; reflexivity)));
    lia.
Defined.

Lemma computeDirectSeconds_positive_witness :
  computeDirectSeconds 5000 [sess "s1" "idle" 6000 (Some 7000)] 0 5000
    (Some [goal "g1" "idle" None (Some false) None]) !! "idle"%string = None.
Proof.
  apply (proj2 (computeDirectSeconds_positive 5000
                  [sess "s1" "idle" 6000 (Some 7000)] 0 5000
                  (Some [goal "g1" "idle" None (Some false) None]))).
  - intros s Hs _. apply list_elem_of_singleton in Hs. subst s. reflexivity.
  - intros g Hg _. apply list_elem_of_singleton in Hg. subst g. vm_compute. discriminate.
Defined.

(** The end-to-end scenario of the specification: a 10 s session inside
    [0, 60 s) and a stopped timer holding 20 s give 30 s. *)
Example direct_end_to_end :
  let direct :=
    computeDirectSeconds 60000 [sess "s1" "root" 5000 (Some 15000)] 0 60000
      (Some [goal "g1" "root" (Some 20%Q) (Some false) None]) in
  (seconds_of direct "root" == 30)%Q.
Proof. vm_compute. reflexivity. Qed.

(** A timer flagged active whose resume instant is 0 (or missing) is summed
    without live seconds: the guard reads such an instant as unset. *)
Example timer_resume_unset :
  timerTotal 10000 (goal "g1" "work" (Some 5%Q) (Some true) (Some 0)) = (5 + 0)%Q /\
  timerTotal 10000 (goal "g1" "work" (Some 5%Q) (Some true) None) = (5 + 0)%Q /\
  timerTotal 10000 (goal "g1" "work" (Some 5%Q) (Some true) (Some 4000)) = (5 + 6)%Q.
Proof. repeat split; reflexivity. Qed.

(** * Goal sums *)

Lemma fold_left_cond_sum {A : Type} (P : A -> bool) (f : A -> Z) (l : list A) (a : Z) :
  fold_left (fun sum c => if P c then sum + f c else sum) l a
  = a + Zsum (map f (List.filter P l)).
Proof.
  revert a. induction l as [|c l IH]; intros a; simpl; [lia|].
  rewrite IH. destruct (P c); simpl; lia.
Qed.

Lemma existsb_filter {A : Type} (P Q : A -> bool) (l : list A) :
  existsb (fun c => P c && Q c) l = existsb P (List.filter Q l).
Proof.
  induction l as [|c l IH]; simpl; [reflexivity|].
  destruct (Q c); simpl; rewrite IH; [rewrite andb_true_r|rewrite andb_false_r];
    reflexivity.
Qed.

Lemma existsb_ext_in {A : Type} (P Q : A -> bool) (l : list A) :
  (forall c, P c = Q c) -> existsb P l = existsb Q l.
Proof. intros H. induction l as [|c l IH]; simpl; [|rewrite H, IH]; reflexivity. Qed.

Lemma existsb_elem {A : Type} (P : A -> bool) (l : list A) :
  existsb P l = true <-> exists c, c ∈ l /\ P c = true.
Proof.
  rewrite existsb_exists. split; intros [c [H1 H2]]; exists c; split;
    try assumption; by apply list_elem_of_In.
Qed.

Lemma truthy_str_id (i : option string) :
  i <> Some ""%string -> truthy_str i = match i with Some _ => true | None => false end.
Proof. destruct i as [[|a s]|]; simpl; congruence. Qed.

Lemma same_true a b : same a b = true <-> a = b.
Proof. apply bool_decide_eq_true. Qed.

Lemma same_sym a b : same a b = same b a.
Proof. apply bool_decide_ext. split; congruence. Qed.

Lemma existsb_never {A : Type} (l : list A) : existsb (fun _ => false) l = false.
Proof. induction l; simpl; auto. Qed.

Lemma add_if_new (e1 e2 : bool) (S g : Z) :
  e1 = e2 -> (if negb e1 then 0 + S + g else 0 + S) = S + (if e2 then 0 else g).
Proof. intros ->. destruct e2; simpl; lia. Qed.

Lemma computeRootGoalSum_spec categories ov :
  Override.id ov <> Some ""%string ->
  computeRootGoalSum categories (Some ov)
  = goalSum_spec categories None (Override.id ov) (nullish (Override.goal ov) 0).
Proof.
  destruct ov as [oid og]. simpl. intros Hid.
  unfold computeRootGoalSum, goalSum_spec, siblingsAt.
  rewrite fold_left_cond_sum, (truthy_str_id _ Hid). simpl.
  rewrite <- existsb_filter.
  unfold goalVal, overrides. simpl.
  destruct oid as [i|]; simpl.
  - apply add_if_new, existsb_ext_in. intros c. f_equal. apply same_sym.
  - rewrite existsb_never. lia.
Qed.

Lemma computeChildGoalSum_spec categories p ov :
  Override.id ov <> Some ""%string ->
  (forall i, Override.id ov = Some i ->
             i ∈ map Category.id categories ->
             i ∈ map Category.id (siblingsAt categories (Some p))) ->
  computeChildGoalSum categories p (Some ov)
  = goalSum_spec categories (Some p) (Override.id ov) (nullish (Override.goal ov) 0).
Proof.
  destruct ov as [oid og]. simpl. intros Hid Hlevel.
  unfold computeChildGoalSum, goalSum_spec.
  rewrite fold_left_cond_sum, (truthy_str_id _ Hid). simpl.
  fold (siblingsAt categories (Some p)).
  unfold goalVal, overrides. simpl.
  destruct oid as [i|]; simpl.
  - apply add_if_new.
    { apply eq_true_iff_eq. rewrite !existsb_elem. split.
      - intros [c [Hc Hb]]. apply same_true in Hb. injection Hb as Hb.
        assert (i ∈ map Category.id (siblingsAt categories (Some p))) as Hs.
        { apply Hlevel; [reflexivity|]. apply list_elem_of_fmap. exists c. auto. }
        apply list_elem_of_fmap in Hs as [c' [-> Hc']].
        exists c'. split; [exact Hc'|]. by apply same_true.
      - intros [c [Hc Hb]]. exists c. split.
        + unfold siblingsAt in Hc. apply list_elem_of_In, filter_In in Hc.
          apply list_elem_of_In. tauto.
        + rewrite same_sym. exact Hb. }
  - rewrite existsb_never. lia.
Qed.

(** The editor always edits a category of the snapshot, at its own level. *)
Lemma editorSum_spec categories c proposed :
  c ∈ categories ->
  Category.id c <> ""%string -> Category.parentId c <> Some ""%string ->
  editorSum categories c proposed
  = goalSum_spec categories (Category.parentId c) (Some (Category.id c)) proposed.
Proof.
  intros Hin Hid Hp. unfold editorSum.
  destruct (Category.parentId c) as [p|] eqn:Ep.
  - rewrite (truthy_str_id _ Hp).
    rewrite computeChildGoalSum_spec; [reflexivity|simpl; congruence|].
    simpl. intros i [= <-] _. apply list_elem_of_fmap. exists c.
    split; [reflexivity|]. unfold siblingsAt. apply list_elem_of_In, filter_In.
    split; [by apply list_elem_of_In|]. by apply same_true.
  - rewrite computeRootGoalSum_spec; [reflexivity|simpl; congruence].
Qed.

(** C7, as stated, fails on its own example: with roots A at 60 and B at 40,
    editing A to 70 gives 70 + 40 = 110, which exceeds; the claim has 100,
    not exceeding. *)
Lemma goalSum_edit_70_is_110 :
  computeRootGoalSum [cat "A" None (Some 60); cat "B" None (Some 40)] (edit "A" 70)
  <> 100 /\
  over (computeRootGoalSum [cat "A" None (Some 60); cat "B" None (Some 40)]
                           (edit "A" 70)) = true.
Proof. split; [vm_compute; discriminate|reflexivity]. Qed.

(** C7, amended. For the siblings at one level the goal sum is the sum of
    their goal percentages with the candidate's value in place of the edited
    sibling's, or added when the candidate is new (it has no id, or no
    sibling carries its id; at a child level an id found only at another
    level is not covered; the editor, which edits a category of the snapshot
    at its own level, never passes one), and [over] holds exactly when the
    sum is above 100. For roots A at 60 and B at 40: editing A to 50 gives
    90, not over; to 70 gives 110, over; to 71 gives 111, over. *)
Theorem goalSum_validation (categories : list Category.t) (ov : Override.t) :
  Override.id ov <> Some ""%string ->
  computeRootGoalSum categories (Some ov)
  = goalSum_spec categories None (Override.id ov) (nullish (Override.goal ov) 0)
  /\ (forall p,
        (forall i, Override.id ov = Some i ->
                   i ∈ map Category.id categories ->
                   i ∈ map Category.id (siblingsAt categories (Some p))) ->
        computeChildGoalSum categories p (Some ov)
        = goalSum_spec categories (Some p) (Override.id ov)
                       (nullish (Override.goal ov) 0))
  /\ (forall c proposed,
        c ∈ categories ->
        Category.id c <> ""%string -> Category.parentId c <> Some ""%string ->
        editorSum categories c proposed
        = goalSum_spec categories (Category.parentId c) (Some (Category.id c))
                       proposed)
  /\ (forall sum, over sum = true <-> 100 < sum)
  /\ (let ab := [cat "A" None (Some 60); cat "B" None (Some 40)] in
      computeRootGoalSum ab (edit "A" 50) = 90 /\ over 90 = false /\
      computeRootGoalSum ab (edit "A" 70) = 110 /\ over 110 = true /\
      computeRootGoalSum ab (edit "A" 71) = 111 /\ over 111 = true).
Proof.
  intros Hid. split; [by apply computeRootGoalSum_spec|].
  split; [intros p Hp; by apply computeChildGoalSum_spec|].
  split; [intros c proposed; apply editorSum_spec|].
  split; [intros sum; unfold over; apply Z.ltb_lt|].
  repeat split; reflexivity.
Qed.

Lemma goalSum_validation_witness :
  computeRootGoalSum [cat "r1" None (Some 50); cat "r2" None (Some 50)]
                     (Some (Override.mk (Some "r2"%string) (Some 40)))
  = goalSum_spec [cat "r1" None (Some 50); cat "r2" None (Some 50)] None
                 (Some "r2"%string) 40.
Proof.
  apply (proj1 (goalSum_validation
                  [cat "r1" None (Some 50); cat "r2" None (Some 50)]
                  (Override.mk (Some "r2"%string) (Some 40))
                  ltac:(discriminate))).
Defined.

(** The self-tests of page.tsx, lines 274-291. *)
Example selftest_goal_sums :
  let testCats := [cat "p" None None; cat "c1" (Some "p"%string) (Some 60);
                   cat "c2" (Some "p"%string) (Some 40)] in
  let rootCats := [cat "r1" None (Some 50); cat "r2" None (Some 50)] in
  computeChildGoalSum testCats "p" None = 100 /\
  computeChildGoalSum testCats "p" (edit "c2" 50) = 110 /\
  computeChildGoalSum testCats "p" (Some (Override.mk None (Some 20))) = 120 /\
  computeRootGoalSum rootCats None = 100 /\
  computeRootGoalSum rootCats (edit "r2" 40) = 90 /\
  computeRootGoalSum rootCats (Some (Override.mk None (Some 30))) = 130.
Proof. repeat split; reflexivity. Qed.
Lemma same_false a b : a <> b -> same a b = false.
Proof. intros H. apply bool_decide_eq_false. exact H. Qed.

(** C3. The code breaks the claim. With the stored roots A (goal 60, flagged
    exclude-from-goals) and B (goal 40, not flagged), the validation of the
    edit of B to 50 reports 60 + 50 = 110, which is over 100, where the
    siblings that are not excluded sum to 50; and likewise for two such
    children of a parent. The flag is left behind when the page builds its
    categories from the stored rows, and neither sum reads it. *)
Theorem goalSum_counts_excluded_sibling :
  computeRootGoalSum
    (map toCategory [row "A" None (Some 60) true; row "B" None (Some 40) false])
    (edit "B" 50) = 110 /\
  over 110 = true /\
  goalSumIncluded_spec
    [row "A" None (Some 60) true; row "B" None (Some 40) false]
    None (Some "B"%string) 50 = 50 /\
  computeChildGoalSum
    (map toCategory [row "p" None None false;
                     row "A" (Some "p"%string) (Some 60) true;
                     row "B" (Some "p"%string) (Some 40) false])
    "p" (edit "B" 50) = 110 /\
  goalSumIncluded_spec
    [row "p" None None false; row "A" (Some "p"%string) (Some 60) true;
     row "B" (Some "p"%string) (Some 40) false]
    (Some "p"%string) (Some "B"%string) 50 = 50.
Proof. repeat split; vm_compute; reflexivity. Qed.

(** * Window of a range *)

Lemma rangeBounds_default sod sow som soy now range :
  range <> "Today"%string -> range <> "Week"%string ->
  range <> "Month"%string -> range <> "Year"%string ->
  rangeBounds sod sow som soy now range = Bounds.mk 0 now.
Proof.
  intros H1 H2 H3 H4. unfold rangeBounds.
  apply String.eqb_neq in H1, H2, H3, H4. rewrite H1, H2, H3, H4. reflexivity.
Qed.

(** C9, as stated, fails: the selector "Decade" is outside the closed set,
    and at the instant 1000 [rangeBounds] returns the window [0, 1000),
    whatever the host's calendar; nothing is raised. *)
Lemma rangeBounds_unknown_returns :
  exists w, w = Bounds.mk 0 1000 /\
    forall sod sow som soy, rangeBounds sod sow som soy 1000 "Decade" = w.
Proof.
  eexists. split; [reflexivity|]. intros. reflexivity.
Qed.

(** C9, amended. For every reference instant [now], a range selector outside
    {Today, Week, Month, Year, All} falls to the default branch and gets the
    window of All, from 0 to [now]; no fault is raised. *)
Theorem rangeBounds_unknown_is_all (startOfDay startOfWeek startOfMonth
    startOfYear : Z -> Z) (now : Z) (range : string) :
  ~ In range knownRanges ->
  rangeBounds startOfDay startOfWeek startOfMonth startOfYear now range
  = Bounds.mk 0 now /\
  rangeBounds startOfDay startOfWeek startOfMonth startOfYear now range
  = rangeBounds startOfDay startOfWeek startOfMonth startOfYear now "All".
Proof.
  intros H. unfold knownRanges in H.
  assert (rangeBounds startOfDay startOfWeek startOfMonth startOfYear now range
          = Bounds.mk 0 now) as E.
  { apply rangeBounds_default; intros ->; apply H; simpl; tauto. }
  split; [exact E|]. rewrite E. reflexivity.
Qed.

Lemma rangeBounds_unknown_is_all_witness :
  rangeBounds (fun t => t - t mod 86400000) (fun t => t) (fun t => t) (fun t => t)
              1000 "Decade"
  = Bounds.mk 0 1000.
Proof.
  apply (proj1 (rangeBounds_unknown_is_all
                  (fun t => t - t mod 86400000) (fun t => t) (fun t => t)
                  (fun t => t) 1000 "Decade"
                  ltac:(simpl; intuition discriminate))).
Defined.

(** * Share of the visible total *)

Lemma or_zero_seconds_of (m : gmap string Q) k : (or_zero (m !! k) == seconds_of m k)%Q.
Proof.
  unfold or_zero, seconds_of. destruct (m !! k) as [q|]; simpl; [|reflexivity].
  destruct (Qeq_bool q 0) eqn:E; [|reflexivity].
  apply Qeq_bool_iff in E. symmetry. exact E.
Qed.

Lemma fold_left_Qplus_sum {A : Type} (f : A -> Q) (l : list A) (a : Q) :
  (fold_left (fun sum c => sum + f c) l a == a + Qsum (map f l))%Q.
Proof.
  revert a. induction l as [|c l IH]; intros a; simpl; [ring|].
  rewrite IH. ring.
Qed.

Lemma grandTotalVisible_sum visible rolled :
  (grandTotalVisible visible rolled == Qsum (map (rolledOf rolled) visible))%Q.
Proof.
  unfold grandTotalVisible.
  rewrite (fold_left_Qplus_sum (rolledOf rolled) visible 0). ring.
Qed.

Lemma math_round_bounds x :
  (2 * inject_Z (math_round x) <= 2 * x + 1)%Q /\
  (2 * x - 1 < 2 * inject_Z (math_round x))%Q.
Proof.
  unfold math_round.
  pose proof (Qfloor_le (x + (1 # 2))) as H1.
  pose proof (Qlt_floor (x + (1 # 2))) as H2.
  rewrite inject_Z_plus in H2. change (inject_Z 1) with 1%Q in H2.
  split; lra.
Qed.

Lemma math_round_comp x y : (x == y)%Q -> math_round x = math_round y.
Proof. intros H. unfold math_round. apply Qfloor_comp. rewrite H. reflexivity. Qed.

Lemma math_round_Z z : math_round (inject_Z z) = z.
Proof.
  unfold math_round.
  pose proof (Qfloor_le (inject_Z z + (1 # 2))) as H1.
  pose proof (Qlt_floor (inject_Z z + (1 # 2))) as H2.
  rewrite inject_Z_plus in H2. change (inject_Z 1) with 1%Q in H2.
  assert (inject_Z (Qfloor (inject_Z z + (1 # 2))) < inject_Z (z + 1))%Q as A
    by (rewrite inject_Z_plus; change (inject_Z 1) with 1%Q; lra).
  assert (inject_Z (z - 1) < inject_Z (Qfloor (inject_Z z + (1 # 2))))%Q as B
    by (unfold Z.sub; rewrite inject_Z_plus, inject_Z_opp;
        change (inject_Z 1) with 1%Q; lra).
  rewrite <- Zlt_Qlt in A, B. lia.
Qed.

Lemma Qsum_scale {A : Type} (f : A -> Q) (k : Q) (l : list A) :
  (Qsum (map (fun c => f c * k) l) == Qsum (map f l) * k)%Q.
Proof.
  induction l as [|c l IH]; simpl; [ring|]. rewrite IH. ring.
Qed.

Lemma Qsum_ext {A : Type} (f g : A -> Q) (l : list A) :
  (forall c, f c == g c)%Q -> (Qsum (map f l) == Qsum (map g l))%Q.
Proof.
  intros H. induction l as [|c l IH]; simpl; [reflexivity|].
  rewrite H, IH. reflexivity.
Qed.

(** ** Rounding to binary64 *)

Lemma roundTiesToEven_error q :
  (Qabs (inject_Z (roundTiesToEven q) - q) <= 1 # 2)%Q.
Proof.
  unfold roundTiesToEven.
  pose proof (Qfloor_le q) as H1. pose proof (Qlt_floor q) as H2.
  rewrite inject_Z_plus in H2. change (inject_Z 1) with 1%Q in H2.
  apply Qabs_Qle_condition.
  destruct (q - inject_Z (Qfloor q) ?= 1 # 2)%Q eqn:E.
  - apply Qeq_alt in E. destruct (Z.even (Qfloor q));
      [|rewrite inject_Z_plus; change (inject_Z 1) with 1%Q]; split; lra.
  - apply Qlt_alt in E. split; lra.
  - apply Qgt_alt in E. rewrite inject_Z_plus. change (inject_Z 1) with 1%Q.
    split; lra.
Qed.

Lemma roundTiesToEven_nonneg q : (0 <= q)%Q -> 0 <= roundTiesToEven q.
Proof.
  intros H. unfold roundTiesToEven.
  assert (0 <= Qfloor q) by (change 0 with (Qfloor 0); by apply Qfloor_resp_le).
  destruct (q - inject_Z (Qfloor q) ?= 1 # 2)%Q; [destruct (Z.even _)| |]; lia.
Qed.

Lemma two_power_pos e : (0 < 2 ^ e)%Q.
Proof. apply Qpower_0_lt. reflexivity. Qed.

Lemma ilog2_lower a : (0 < a)%Q -> (2 ^ ilog2 a <= a)%Q.
Proof.
  intros Ha. unfold ilog2.
  set (n := Qnum a). set (d := Zpos (Qden a)).
  destruct (Qle_bool (2 ^ (Z.log2 n - Z.log2 d)) a) eqn:E;
    [by apply Qle_bool_iff|].
  assert (0 < n) as Hn by (unfold n; destruct a as [an ad]; unfold Qlt in Ha;
                           simpl in *; lia).
  assert (0 < d) as Hd by (unfold d; lia).
  destruct (Z.log2_spec n Hn) as [Hn1 _].
  destruct (Z.log2_spec d Hd) as [_ Hd2].
  pose proof (Z.log2_nonneg n) as Ln. pose proof (Z.log2_nonneg d) as Ld.
  assert (a == inject_Z n / inject_Z d)%Q as ->
    by (unfold n, d; destruct a as [an ad]; simpl; apply Qmake_Qdiv).
  assert (0 < inject_Z d)%Q as Hd' by (change 0%Q with (inject_Z 0); by rewrite <- Zlt_Qlt).
  apply Qle_shift_div_l; [exact Hd'|].
  replace (Z.log2 n - Z.log2 d - 1) with (Z.log2 n - Z.succ (Z.log2 d)) by lia.
  rewrite Qpower_minus by discriminate.
  assert (inject_Z d <= 2 ^ Z.succ (Z.log2 d))%Q as B1.
  { change 2%Q with (inject_Z 2). rewrite <- Zpower_Qpower by lia.
    rewrite <- Zle_Qle. lia. }
  assert (2 ^ Z.log2 n <= inject_Z n)%Q as B2.
  { change 2%Q with (inject_Z 2). rewrite <- Zpower_Qpower by lia.
    by rewrite <- Zle_Qle. }
  pose proof (two_power_pos (Z.succ (Z.log2 d))) as P1.
  pose proof (two_power_pos (Z.log2 n)) as P2.
  apply Qle_trans with (2 ^ Z.log2 n)%Q; [|exact B2].
  unfold Qdiv. rewrite <- Qmult_assoc.
  rewrite <- (Qmult_1_r (2 ^ Z.log2 n)) at 2.
  apply Qmult_le_l; [exact P2|].
  rewrite Qmult_comm. apply Qle_shift_div_r; [exact P1|].
  by rewrite Qmult_1_l.
Qed.

Lemma Qred_abs_eq x : (Qred (Qabs x) == Qabs x)%Q.
Proof. apply Qred_correct. Qed.

Lemma binary64_comp x y : (x == y)%Q -> binary64 x = binary64 y.
Proof.
  intros H. unfold binary64.
  assert (Qred (Qabs x) = Qred (Qabs y)) as ->
    by (apply Qred_complete; by rewrite H).
  assert (Qle_bool 0 x = Qle_bool 0 y) as ->; [|reflexivity].
  destruct (Qle_bool 0 y) eqn:E.
  - apply Qle_bool_iff. apply Qle_bool_iff in E. by rewrite H.
  - destruct (Qle_bool 0 x) eqn:E'; [|reflexivity].
    apply Qle_bool_iff in E'. rewrite H in E'. apply Qle_bool_iff in E'. congruence.
Qed.

Lemma binary64_nonneg x : (0 <= x)%Q -> (0 <= binary64 x)%Q.
Proof.
  intros H. unfold binary64.
  destruct (Qeq_bool (Qred (Qabs x)) 0); [apply Qle_refl|].
  rewrite (proj2 (Qle_bool_iff 0 x) H). rewrite Qmult_1_l.
  apply Qmult_le_0_compat; [|apply Qlt_le_weak, two_power_pos].
  change 0%Q with (inject_Z 0). rewrite <- Zle_Qle.
  apply roundTiesToEven_nonneg.
  apply Qle_shift_div_l; [apply two_power_pos|].
  rewrite Qmult_0_l, Qred_abs_eq. apply Qabs_nonneg.
Qed.

(** A value up to [2 ^ k] is moved by at most half a unit in the last place
    of [2 ^ k]. *)
Lemma binary64_error x k :
  (0 <= x)%Q -> (x <= 2 ^ k)%Q -> -1022 <= k ->
  (Qabs (binary64 x - x) <= 2 ^ (k - 53))%Q.
Proof.
  intros H0 Hk Hmin. unfold binary64.
  set (a := Qred (Qabs x)).
  assert (a == x)%Q as Ha by (unfold a; rewrite Qred_abs_eq; by apply Qabs_pos).
  destruct (Qeq_bool a 0) eqn:E.
  - apply Qeq_bool_iff in E. rewrite <- Ha, E.
    assert (0 - 0 == 0)%Q as -> by ring. apply Qlt_le_weak, two_power_pos.
  - apply Qeq_bool_neq in E.
    assert (0 < a)%Q as Hpos.
    { destruct (Qlt_le_dec 0 a) as [?|Hle]; [assumption|].
      exfalso. apply E. apply Qle_antisym; [exact Hle|by rewrite Ha]. }
    rewrite (proj2 (Qle_bool_iff 0 x) H0), Qmult_1_l.
    set (e := exponent64 a).
    assert (e <= k - 52) as He.
    { unfold e, exponent64. apply Z.max_lub; [lia|].
      assert (ilog2 a <= k); [|lia].
      apply (Qpower_le_compat_l_inv 2); [|reflexivity].
      eapply Qle_trans; [apply ilog2_lower, Hpos|]. by rewrite Ha. }
    pose proof (two_power_pos e) as Pe.
    pose proof (roundTiesToEven_error (a / 2 ^ e)) as Hr.
    set (m := inject_Z (roundTiesToEven (a / 2 ^ e))) in *.
    assert (m * 2 ^ e - x == (m - a / 2 ^ e) * 2 ^ e)%Q as ->
      by (rewrite <- Ha; field; lra).
    rewrite Qabs_Qmult, (Qabs_pos (2 ^ e)) by lra.
    apply Qle_trans with ((1 # 2) * 2 ^ e)%Q;
      [apply Qmult_le_compat_r; [exact Hr|lra]|].
    apply Qle_trans with (2 ^ (e - 1))%Q.
    + rewrite Qpower_minus by discriminate. change (2 ^ 1)%Q with 2%Q.
      apply Qle_lteq. right. field.
    + apply Qpower_le_compat_l; [lia|discriminate].
Qed.
Lemma ilog2_upper a : (0 < a)%Q -> (a < 2 ^ (ilog2 a + 1))%Q.
Proof.
  intros Ha. unfold ilog2.
  set (n := Qnum a). set (d := Zpos (Qden a)).
  destruct (Qle_bool (2 ^ (Z.log2 n - Z.log2 d)) a) eqn:E.
  - assert (0 < n) as Hn by (unfold n; destruct a as [an ad]; unfold Qlt in Ha;
                             simpl in *; lia).
    assert (0 < d) as Hd by (unfold d; lia).
    destruct (Z.log2_spec n Hn) as [_ Hn2].
    destruct (Z.log2_spec d Hd) as [Hd1 _].
    pose proof (Z.log2_nonneg n) as Ln. pose proof (Z.log2_nonneg d) as Ld.
    assert (a == inject_Z n / inject_Z d)%Q as ->
      by (unfold n, d; destruct a as [an ad]; simpl; apply Qmake_Qdiv).
    assert (0 < inject_Z d)%Q as Hd'
      by (change 0%Q with (inject_Z 0); by rewrite <- Zlt_Qlt).
    apply Qlt_shift_div_r; [exact Hd'|].
    replace (Z.log2 n - Z.log2 d + 1) with (Z.succ (Z.log2 n) - Z.log2 d) by lia.
    rewrite Qpower_minus by discriminate.
    assert (2 ^ Z.log2 d <= inject_Z d)%Q as B1.
    { change 2%Q with (inject_Z 2). rewrite <- Zpower_Qpower by lia.
      by rewrite <- Zle_Qle. }
    assert (inject_Z n < 2 ^ Z.succ (Z.log2 n))%Q as B2.
    { change 2%Q with (inject_Z 2). rewrite <- Zpower_Qpower by lia.
      by rewrite <- Zlt_Qlt. }
    pose proof (two_power_pos (Z.succ (Z.log2 n))) as P1.
    pose proof (two_power_pos (Z.log2 d)) as P2.
    eapply Qlt_le_trans; [exact B2|].
    unfold Qdiv. rewrite <- Qmult_assoc.
    rewrite <- (Qmult_1_r (2 ^ Z.succ (Z.log2 n))) at 1.
    apply Qmult_le_l; [exact P1|].
    rewrite Qmult_comm. apply Qle_shift_div_l; [exact P2|]. by rewrite Qmult_1_l.
  - replace (Z.log2 n - Z.log2 d - 1 + 1) with (Z.log2 n - Z.log2 d) by lia.
    apply Qnot_le_lt. intros Hle. apply Qle_bool_iff in Hle. congruence.
Qed.

Lemma roundTiesToEven_comp q q' : (q == q')%Q -> roundTiesToEven q = roundTiesToEven q'.
Proof.
  intros H. unfold roundTiesToEven.
  rewrite (Qfloor_comp _ _ H).
  assert ((q - inject_Z (Qfloor q') ?= 1 # 2) = (q' - inject_Z (Qfloor q') ?= 1 # 2))%Q
    as -> by (by rewrite H).
  reflexivity.
Qed.

Lemma roundTiesToEven_Z z : roundTiesToEven (inject_Z z) = z.
Proof.
  unfold roundTiesToEven. rewrite Qfloor_Z.
  assert ((inject_Z z - inject_Z z ?= 1 # 2)%Q = Lt) as ->; [|reflexivity].
  apply Qlt_alt. assert (inject_Z z - inject_Z z == 0)%Q as -> by ring. reflexivity.
Qed.

Lemma roundTiesToEven_cases q :
  roundTiesToEven q = Qfloor q \/ roundTiesToEven q = Qfloor q + 1.
Proof.
  unfold roundTiesToEven.
  destruct (q - inject_Z (Qfloor q) ?= 1 # 2)%Q; [destruct (Z.even _)| |]; auto.
Qed.

Lemma roundTiesToEven_mono q1 q2 :
  (q1 <= q2)%Q -> roundTiesToEven q1 <= roundTiesToEven q2.
Proof.
  intros H. pose proof (Qfloor_resp_le _ _ H) as Hf.
  destruct (Z.eq_dec (Qfloor q1) (Qfloor q2)) as [E|E].
  - unfold roundTiesToEven. rewrite E.
    destruct (q1 - inject_Z (Qfloor q2) ?= 1 # 2)%Q eqn:C1;
      destruct (q2 - inject_Z (Qfloor q2) ?= 1 # 2)%Q eqn:C2;
      try (destruct (Z.even (Qfloor q2)); lia); try lia;
      repeat match goal with
             | C : (_ ?= _)%Q = Eq |- _ => apply Qeq_alt in C
             | C : (_ ?= _)%Q = Lt |- _ => apply Qlt_alt in C
             | C : (_ ?= _)%Q = Gt |- _ => apply Qgt_alt in C
             end;
      exfalso; lra.
  - destruct (roundTiesToEven_cases q1), (roundTiesToEven_cases q2); lia.
Qed.

Lemma binary64_zero x : (x == 0)%Q -> binary64 x = 0%Q.
Proof.
  intros H. unfold binary64.
  assert (Qeq_bool (Qred (Qabs x)) 0 = true) as ->; [|reflexivity].
  apply Qeq_bool_iff. rewrite Qred_abs_eq, H. reflexivity.
Qed.

(** The double of a positive number: significand times a power of two. *)
Lemma binary64_pos x :
  (0 < x)%Q ->
  exists a, (a == x)%Q /\
    (binary64 x
     == inject_Z (roundTiesToEven (a / 2 ^ exponent64 a)) * 2 ^ exponent64 a)%Q.
Proof.
  intros Hx. exists (Qred (Qabs x)).
  assert (Qred (Qabs x) == x)%Q as Ha
    by (rewrite Qred_abs_eq; apply Qabs_pos; lra).
  split; [exact Ha|]. unfold binary64.
  destruct (Qeq_bool (Qred (Qabs x)) 0) eqn:E.
  - apply Qeq_bool_iff in E. rewrite Ha in E. lra.
  - rewrite (proj2 (Qle_bool_iff 0 x) ltac:(lra)). ring.
Qed.

Lemma ilog2_comp_le a b : (0 < a)%Q -> (a <= b)%Q -> ilog2 a <= ilog2 b.
Proof.
  intros Ha Hab.
  pose proof (ilog2_lower a Ha) as H1.
  pose proof (ilog2_upper b ltac:(lra)) as H2.
  assert (ilog2 a < ilog2 b + 1); [|lia].
  apply (Qpower_lt_compat_l_inv 2); [lra|reflexivity].
Qed.

Lemma two_power_plus e k : (2 ^ (e + k) == 2 ^ e * 2 ^ k)%Q.
Proof. apply Qpower_plus. discriminate. Qed.

Lemma mant_upper a :
  (0 < a)%Q -> roundTiesToEven (a / 2 ^ exponent64 a) <= 2 ^ 53.
Proof.
  intros Ha. rewrite <- (roundTiesToEven_Z (2 ^ 53)).
  apply roundTiesToEven_mono.
  apply Qle_shift_div_r; [apply two_power_pos|].
  change (inject_Z (2 ^ 53)) with (2 ^ 53)%Q. rewrite <- two_power_plus.
  eapply Qle_trans; [apply Qlt_le_weak, ilog2_upper, Ha|].
  apply Qpower_le_compat_l; [unfold exponent64; lia|discriminate].
Qed.

Lemma mant_lower a :
  (0 < a)%Q -> -1074 < exponent64 a ->
  2 ^ 52 <= roundTiesToEven (a / 2 ^ exponent64 a).
Proof.
  intros Ha He. rewrite <- (roundTiesToEven_Z (2 ^ 52)) at 1.
  apply roundTiesToEven_mono.
  apply Qle_shift_div_l; [apply two_power_pos|].
  change (inject_Z (2 ^ 52)) with (2 ^ 52)%Q. rewrite <- two_power_plus.
  eapply Qle_trans; [|apply ilog2_lower, Ha].
  apply Qpower_le_compat_l; [unfold exponent64 in *; lia|discriminate].
Qed.

Lemma binary64_mono x y : (0 <= x)%Q -> (x <= y)%Q -> (binary64 x <= binary64 y)%Q.
Proof.
  intros Hx Hxy.
  destruct (Qlt_le_dec 0 x) as [Hpos|Hle].
  - destruct (binary64_pos x Hpos) as (a & Ha & ->).
    destruct (binary64_pos y ltac:(lra)) as (b & Hb & ->).
    assert (0 < a)%Q as Ha0 by lra. assert (0 < b)%Q as Hb0 by lra.
    assert (a <= b)%Q as Hab by lra.
    pose proof (ilog2_comp_le a b Ha0 Hab) as HL.
    assert (exponent64 a <= exponent64 b) as He by (unfold exponent64; lia).
    pose proof (two_power_pos (exponent64 a)) as Pa.
    pose proof (two_power_pos (exponent64 b)) as Pb.
    destruct (Z.eq_dec (exponent64 a) (exponent64 b)) as [E|E].
    + rewrite E in *. apply Qmult_le_compat_r; [|lra].
      rewrite <- Zle_Qle. apply roundTiesToEven_mono.
      apply Qmult_le_compat_r; [exact Hab|].
      apply Qlt_le_weak, Qinv_lt_0_compat, Pb.
    + pose proof (mant_upper a Ha0) as Hu.
      pose proof (mant_lower b Hb0 ltac:(unfold exponent64 in *; lia)) as Hl.
      apply Qle_trans with (2 ^ (exponent64 a + 53))%Q.
      * rewrite two_power_plus, (Qmult_comm (2 ^ exponent64 a)).
        apply Qmult_le_compat_r; [|lra].
        change (2 ^ 53)%Q with (inject_Z (2 ^ 53)). by rewrite <- Zle_Qle.
      * apply Qle_trans with (2 ^ (exponent64 b + 52))%Q.
        -- apply Qpower_le_compat_l; [lia|discriminate].
        -- rewrite two_power_plus, (Qmult_comm (2 ^ exponent64 b)).
           apply Qmult_le_compat_r; [|lra].
           change (2 ^ 52)%Q with (inject_Z (2 ^ 52)). by rewrite <- Zle_Qle.
  - rewrite (binary64_zero x) by lra. apply binary64_nonneg. lra.
Qed.

Lemma binary64_representable x : (0 <= x)%Q -> representable (binary64 x).
Proof.
  intros Hx. destruct (Qlt_le_dec 0 x) as [Hpos|Hle].
  - destruct (binary64_pos x Hpos) as (a & Ha & E).
    assert (0 < a)%Q as Ha0 by lra.
    pose proof (mant_upper a Ha0) as Hu.
    assert (0 <= roundTiesToEven (a / 2 ^ exponent64 a)) as Hm.
    { apply roundTiesToEven_nonneg. apply Qle_shift_div_l; [apply two_power_pos|].
      lra. }
    destruct (Z.eq_dec (roundTiesToEven (a / 2 ^ exponent64 a)) (2 ^ 53)) as [Em|Em].
    + exists (2 ^ 52), (exponent64 a + 1). split; [lia|].
      split; [unfold exponent64; lia|].
      rewrite E, Em, two_power_plus.
      change (inject_Z (2 ^ 53)) with (inject_Z (2 ^ 52) * 2 ^ 1)%Q. ring.
    + exists (roundTiesToEven (a / 2 ^ exponent64 a)), (exponent64 a).
      split; [lia|]. split; [unfold exponent64; lia|exact E].
  - rewrite (binary64_zero x) by lra. exists 0, 0. split; [lia|].
    split; [lia|reflexivity].
Qed.

Lemma representable_nonneg x : representable x -> (0 <= x)%Q.
Proof.
  intros (m & e & Hm & _ & ->).
  apply Qmult_le_0_compat; [|apply Qlt_le_weak, two_power_pos].
  change 0%Q with (inject_Z 0). rewrite <- Zle_Qle. lia.
Qed.

Lemma representable_fixed x : representable x -> (binary64 x == x)%Q.
Proof.
  intros (m & e & Hm & He & Hx).
  destruct (Z.eq_dec m 0) as [->|Hm0].
  - rewrite binary64_zero; rewrite Hx; change (inject_Z 0) with 0%Q; ring.
  - assert (0 < inject_Z m)%Q as Hmq
      by (change 0%Q with (inject_Z 0); rewrite <- Zlt_Qlt; lia).
    pose proof (two_power_pos e) as Pe.
    assert (0 < x)%Q as Hpos by (rewrite Hx; by apply Qmult_lt_0_compat).
    destruct (binary64_pos x Hpos) as (a & Ha & ->).
    assert (0 < a)%Q as Ha0 by lra.
    set (ea := exponent64 a).
    assert (ea <= e) as Hea.
    { unfold ea, exponent64. apply Z.max_lub; [exact He|].
      assert (ilog2 a < e + 53); [|lia].
      apply (Qpower_lt_compat_l_inv 2); [|reflexivity].
      eapply Qle_lt_trans; [apply ilog2_lower, Ha0|].
      rewrite Ha, Hx, two_power_plus, (Qmult_comm (2 ^ e)).
      apply Qmult_lt_compat_r; [exact Pe|].
      change (2 ^ 53)%Q with (inject_Z (2 ^ 53)). rewrite <- Zlt_Qlt. lia. }
    pose proof (two_power_pos ea) as Pa.
    assert (a / 2 ^ ea == inject_Z (m * 2 ^ (e - ea)))%Q as Hq.
    { rewrite inject_Z_mult, Zpower_Qpower by lia.
      change (inject_Z 2) with 2%Q. rewrite Qpower_minus by discriminate.
      rewrite Ha, Hx. field; repeat split; lra. }
    rewrite (roundTiesToEven_comp _ _ Hq), roundTiesToEven_Z.
    rewrite inject_Z_mult, Zpower_Qpower by lia.
    change (inject_Z 2) with 2%Q. rewrite Qpower_minus by discriminate.
    rewrite Hx. field; repeat split; lra.
Qed.

Lemma binary64_idem x : (0 <= x)%Q -> (binary64 (binary64 x) == binary64 x)%Q.
Proof. intros H. apply representable_fixed, binary64_representable, H. Qed.

(** Doubles are whole multiples of [2 ^ -1074]. *)
Lemma representable_grid x :
  representable x -> exists j : Z, 0 <= j /\ (x == inject_Z j * 2 ^ (-1074))%Q.
Proof.
  intros (m & e & Hm & He & Hx). exists (m * 2 ^ (e + 1074)). split; [nia|].
  rewrite Hx, inject_Z_mult, Zpower_Qpower by lia.
  change (inject_Z 2) with 2%Q. rewrite two_power_plus.
  assert (2 ^ 1074 * 2 ^ (-1074) == 1)%Q as H.
  { rewrite <- two_power_plus. reflexivity. }
  rewrite <- !Qmult_assoc, H. ring.
Qed.

(** Adding two doubles moves the sum by at most [2 ^ -52] of itself. *)
Lemma binary64_sum_error x y :
  representable x -> representable y ->
  (Qabs (binary64 (x + y) - (x + y)) <= 2 ^ (-52) * (x + y))%Q.
Proof.
  intros Rx Ry.
  pose proof (representable_nonneg x Rx) as Hx.
  pose proof (representable_nonneg y Ry) as Hy.
  set (z := (x + y)%Q). assert (0 <= z)%Q as Hz by (unfold z; lra).
  assert (0 < 2 ^ (-52))%Q as Pu by apply two_power_pos.
  destruct (Qlt_le_dec 0 z) as [Hpos|Hle].
  2:{ rewrite (binary64_zero z) by lra.
      assert (z == 0)%Q as -> by lra.
      assert (0 - 0 == 0)%Q as -> by ring. rewrite Qmult_0_r. apply Qle_refl. }
  destruct (Z_lt_le_dec (ilog2 z) (-1023)) as [Hsmall|Hbig].
  - (* below the normal range the sum is itself a double *)
    assert (representable z) as Rz.
    { destruct (representable_grid x Rx) as (j1 & Hj1 & E1).
      destruct (representable_grid y Ry) as (j2 & Hj2 & E2).
      exists (j1 + j2), (-1074). split; [|split; [lia|]].
      - split; [lia|].
        assert (inject_Z (j1 + j2) < inject_Z (2 ^ 53))%Q as H;
          [|by rewrite <- Zlt_Qlt in H].
        pose proof (ilog2_upper z Hpos) as Hu.
        assert (2 ^ (ilog2 z + 1) <= 2 ^ (-1022))%Q as Hp
          by (apply Qpower_le_compat_l; [lia|discriminate]).
        assert (z == inject_Z (j1 + j2) * 2 ^ (-1074))%Q as Ez
          by (unfold z; rewrite E1, E2, inject_Z_plus; ring).
        assert (2 ^ (-1022) == inject_Z (2 ^ 52) * 2 ^ (-1074))%Q as E52
          by (change (inject_Z (2 ^ 52)) with (2 ^ 52)%Q;
              rewrite <- two_power_plus; reflexivity).
        pose proof (two_power_pos (-1074)) as P.
        assert (inject_Z (j1 + j2) * 2 ^ (-1074) < inject_Z (2 ^ 52) * 2 ^ (-1074))%Q
          as Hlt by (rewrite <- Ez, <- E52; lra).
        apply Qmult_lt_r in Hlt; [|exact P].
        eapply Qlt_le_trans; [exact Hlt|]. rewrite <- Zle_Qle. lia.
      - unfold z. rewrite E1, E2, inject_Z_plus. ring. }
    rewrite (representable_fixed z Rz).
    assert (z - z == 0)%Q as -> by ring.
    apply Qmult_le_0_compat; lra.
  - pose proof (ilog2_lower z Hpos) as Hl.
    pose proof (ilog2_upper z Hpos) as Hu.
    pose proof (binary64_error z (ilog2 z + 1) Hz (Qlt_le_weak _ _ Hu) ltac:(lia)) as E.
    eapply Qle_trans; [exact E|].
    replace (ilog2 z + 1 - 53) with (-52 + ilog2 z) by lia.
    rewrite two_power_plus. apply Qmult_le_l; [exact Pu|exact Hl].
Qed.

Lemma sum_step_bounds (k A v acc z acc1 : Q) :
  (0 <= k)%Q -> (2 * k * (1 # 4503599627370496) <= 1)%Q ->
  (0 <= A)%Q -> (0 <= v)%Q ->
  ((1 - k * (1 # 4503599627370496)) * A <= acc)%Q ->
  (acc <= (1 + 2 * k * (1 # 4503599627370496)) * A)%Q ->
  (z == acc + v)%Q ->
  (z - (1 # 4503599627370496) * z <= acc1)%Q ->
  (acc1 <= z + (1 # 4503599627370496) * z)%Q ->
  ((1 - (k + 1) * (1 # 4503599627370496)) * (A + v) <= acc1)%Q /\
  (acc1 <= (1 + 2 * (k + 1) * (1 # 4503599627370496)) * (A + v))%Q.
Proof.
  intros Hk Hk2 HA Hv L U Ez L1 U1. split; nra.
Qed.

(** A running sum of non-negative doubles stays within [2 ^ -52] per
    addition of the exact sum, below, and twice that, above. *)
Lemma sum64_bounds l :
  forall acc A (k : Z),
    0 <= k -> k + Z.of_nat (length l) <= 2 ^ 51 ->
    representable acc -> (0 <= A)%Q ->
    ((1 - inject_Z k * (1 # 4503599627370496)) * A <= acc)%Q ->
    (acc <= (1 + 2 * inject_Z k * (1 # 4503599627370496)) * A)%Q ->
    (forall v, In v l -> representable v) ->
    representable (sum64 l acc) /\
    ((1 - inject_Z (k + Z.of_nat (length l)) * (1 # 4503599627370496))
     * (A + Qsum l) <= sum64 l acc)%Q /\
    (sum64 l acc
     <= (1 + 2 * inject_Z (k + Z.of_nat (length l)) * (1 # 4503599627370496))
        * (A + Qsum l))%Q.
Proof.
  induction l as [|v l IH]; intros acc A k Hk Hn Racc HA L U Hl.
  - cbn [sum64 fold_left length Qsum fold_right Z.of_nat].
    rewrite Z.add_0_r, Qplus_0_r. auto.
  - cbn [length] in Hn. rewrite Nat2Z.inj_succ in Hn.
    assert (representable v) as Rv by (apply Hl; by left).
    pose proof (representable_nonneg v Rv) as Hv.
    pose proof (representable_nonneg acc Racc) as Hacc.
    cbn [sum64 fold_left].
    rewrite (binary64_comp (acc + binary64 v) (acc + v))
      by (by rewrite (representable_fixed v Rv)).
    fold (sum64 l (binary64 (acc + v))).
    pose proof (binary64_sum_error acc v Racc Rv) as E.
    change (2 ^ (-52))%Q with (1 # 4503599627370496)%Q in E.
    apply Qabs_Qle_condition in E as [E1 E2].
    assert (0 <= inject_Z k)%Q as Hkq
      by (change 0%Q with (inject_Z 0); by rewrite <- Zle_Qle).
    assert (2 * inject_Z k * (1 # 4503599627370496) <= 1)%Q as Hk2.
    { assert (inject_Z k <= inject_Z (2 ^ 51))%Q as B by (rewrite <- Zle_Qle; lia).
      change (inject_Z (2 ^ 51)) with 2251799813685248%Q in B. lra. }
    destruct (sum_step_bounds (inject_Z k) A v acc (acc + v)
                (binary64 (acc + v)) Hkq Hk2 HA Hv L U ltac:(reflexivity)
                ltac:(lra) ltac:(lra)) as [L1 U1].
    assert (inject_Z k + 1 == inject_Z (k + 1))%Q as Ek
      by (rewrite inject_Z_plus; reflexivity).
    rewrite Ek in L1, U1.
    assert (0 <= acc + v)%Q as Hz by lra.
    assert (0 <= A + v)%Q as HAv by lra.
    destruct (IH (binary64 (acc + v)) (A + v)%Q (k + 1) ltac:(lia) ltac:(lia)
                (binary64_representable _ Hz) HAv L1 U1
                (fun w Hw => Hl w (or_intror Hw))) as (R & L2 & U2).
    cbn [length Qsum fold_right]. fold (Qsum l).
    rewrite Nat2Z.inj_succ.
    replace (k + Z.succ (Z.of_nat (length l))) with (k + 1 + Z.of_nat (length l))
      by lia.
    assert (A + (v + Qsum l) == A + v + Qsum l)%Q as -> by ring.
    auto.
Qed.

(** A running sum of doubles is a double at least as large as each of its
    terms. *)
Lemma sum64_ge l :
  forall acc, representable acc -> (forall v, In v l -> (0 <= v)%Q) ->
    representable (sum64 l acc) /\ (acc <= sum64 l acc)%Q /\
    forall v, In v l -> (binary64 v <= sum64 l acc)%Q.
Proof.
  induction l as [|v l IH]; intros acc Racc Hl.
  - cbn [sum64 fold_left]. split; [exact Racc|]. split; [apply Qle_refl|].
    intros v [].
  - pose proof (representable_nonneg acc Racc) as Hacc.
    assert (0 <= v)%Q as Hv by (apply Hl; by left).
    pose proof (binary64_nonneg v Hv) as Hfv.
    cbn [sum64 fold_left]. fold (sum64 l (binary64 (acc + binary64 v))).
    assert (0 <= acc + binary64 v)%Q as Hz by lra.
    destruct (IH (binary64 (acc + binary64 v))
                (binary64_representable _ Hz)
                (fun w Hw => Hl w (or_intror Hw))) as (R & G & Gl).
    assert (acc <= binary64 (acc + binary64 v))%Q as G1.
    { rewrite <- (representable_fixed acc Racc) at 1.
      apply binary64_mono; lra. }
    assert (binary64 v <= binary64 (acc + binary64 v))%Q as G2.
    { rewrite <- (binary64_idem v Hv) at 1. apply binary64_mono; lra. }
    split; [exact R|]. split; [lra|].
    intros w [<-|Hw]; [lra|by apply Gl].
Qed.

Lemma grandTotalVisible64_sum64 visible rolled :
  grandTotalVisible64 visible rolled = sum64 (map (rolledOf rolled) visible) 0.
Proof.
  unfold grandTotalVisible64, sum64. generalize 0%Q.
  induction visible as [|c l IH]; intros acc; [reflexivity|]. cbn [map fold_left].
  apply IH.
Qed.

Lemma representable_0 : representable 0.
Proof. exists 0, 0. split; [lia|]. split; [lia|reflexivity]. Qed.

Lemma representable_comp x y : (x == y)%Q -> representable x -> representable y.
Proof. intros H (m & e & Hm & He & E). exists m, e. by rewrite <- H. Qed.

(** The total the page holds is at least the double of every member. *)
Lemma member_le_total64 visible rolled c :
  (forall m, m ∈ visible -> (0 <= rolledOf rolled m)%Q) -> c ∈ visible ->
  (0 <= grandTotalVisible64 visible rolled)%Q /\
  (binary64 (rolledOf rolled c) <= grandTotalVisible64 visible rolled)%Q.
Proof.
  intros Hpos Hc. rewrite grandTotalVisible64_sum64.
  destruct (sum64_ge (map (rolledOf rolled) visible) 0 representable_0) as (_ & G & Gl).
  { intros v Hv. apply in_map_iff in Hv as [m [<- Hm]].
    apply Hpos. by apply list_elem_of_In. }
  split; [exact G|]. apply Gl. apply in_map_iff.
  exists c. split; [reflexivity|by apply list_elem_of_In].
Qed.

Lemma sharePct_formula visible rolled id :
  sharePct visible rolled id =
  if Qeq_bool (grandTotalVisible64 visible rolled) 0 then 0
  else math_round
         (binary64 (binary64 (binary64 (seconds_of rolled id)
                              / grandTotalVisible64 visible rolled) * 100)).
Proof.
  unfold sharePct. destruct (Qeq_bool (grandTotalVisible64 visible rolled) 0);
    [reflexivity|].
  rewrite (binary64_comp (or_zero (rolled !! id)) (seconds_of rolled id))
    by apply or_zero_seconds_of.
  reflexivity.
Qed.

(** The double the share is rounded from is not negative and lies within
    [2 ^ -45] of the percentage of the two doubles. *)
Lemma share_value_error (r T : Q) :
  (0 <= r)%Q -> (r <= T)%Q -> (0 < T)%Q ->
  (0 <= binary64 (binary64 (r / T) * 100))%Q /\
  (Qabs (binary64 (binary64 (r / T) * 100) - 100 * r / T) <= 2 ^ (-45))%Q.
Proof.
  intros Hr HrT HT.
  assert (0 <= r / T)%Q as Hq0
    by (apply Qle_shift_div_l; [exact HT|by rewrite Qmult_0_l]).
  assert (r / T <= 1)%Q as Hq1
    by (apply Qle_shift_div_r; [exact HT|by rewrite Qmult_1_l]).
  pose proof (binary64_nonneg _ Hq0) as F0.
  pose proof (binary64_error (r / T) 0 Hq0 Hq1 ltac:(lia)) as E1.
  assert (2 ^ (0 - 53) == 1 # 9007199254740992)%Q as P53 by reflexivity.
  assert (2 ^ (7 - 53) == 1 # 70368744177664)%Q as P46 by reflexivity.
  assert (2 ^ (-45) == 1 # 35184372088832)%Q as P45 by reflexivity.
  rewrite P53 in E1. apply Qabs_Qle_condition in E1 as [E1a E1b].
  set (f := binary64 (r / T)) in *.
  assert (0 <= f * 100)%Q as Hz0 by lra.
  assert (f * 100 <= 2 ^ 7)%Q as Hz1 by (change (2 ^ 7)%Q with 128%Q; lra).
  pose proof (binary64_nonneg _ Hz0) as G0.
  pose proof (binary64_error (f * 100) 7 Hz0 Hz1 ltac:(lia)) as E2.
  rewrite P46 in E2. apply Qabs_Qle_condition in E2 as [E2a E2b].
  split; [exact G0|].
  assert (100 * r / T == 100 * (r / T))%Q as -> by (field; lra).
  rewrite P45. apply Qabs_Qle_condition. split; lra.
Qed.

Lemma Qfloor_unique x k :
  (inject_Z k <= x)%Q -> (x < inject_Z k + 1)%Q -> Qfloor x = k.
Proof.
  intros H1 H2.
  pose proof (Qfloor_le x) as F1. pose proof (Qlt_floor x) as F2.
  rewrite inject_Z_plus in F2. change (inject_Z 1) with 1%Q in F2.
  assert (inject_Z (Qfloor x) < inject_Z (k + 1))%Q as A
    by (rewrite inject_Z_plus; change (inject_Z 1) with 1%Q; lra).
  assert (inject_Z k < inject_Z (Qfloor x + 1))%Q as B
    by (rewrite inject_Z_plus; change (inject_Z 1) with 1%Q; lra).
  rewrite <- Zlt_Qlt in A, B. lia.
Qed.

Lemma nonnegDoubles_representable visible rolled m :
  nonnegDoubles visible rolled -> m ∈ visible -> representable (rolledOf rolled m).
Proof.
  intros H Hm. destruct (H m Hm) as [H0 Hd].
  apply (representable_comp _ _ Hd). by apply binary64_representable.
Qed.

(** The total the page holds against the exact sum of the members. *)
Lemma total64_bounds visible rolled :
  nonnegDoubles visible rolled -> Z.of_nat (length visible) <= 2 ^ 51 ->
  ((1 - inject_Z (Z.of_nat (length visible)) * (1 # 4503599627370496))
   * grandTotalVisible visible rolled <= grandTotalVisible64 visible rolled)%Q /\
  (grandTotalVisible64 visible rolled
   <= (1 + 2 * inject_Z (Z.of_nat (length visible)) * (1 # 4503599627370496))
      * grandTotalVisible visible rolled)%Q.
Proof.
  intros Hd Hn. rewrite grandTotalVisible64_sum64, grandTotalVisible_sum.
  destruct (sum64_bounds (map (rolledOf rolled) visible) 0 0 0 ltac:(lia)
              ltac:(rewrite length_map; lia) representable_0 ltac:(apply Qle_refl)
              ltac:(rewrite Qmult_0_r; apply Qle_refl)
              ltac:(rewrite Qmult_0_r; apply Qle_refl)) as (_ & L & U).
  { intros v Hv. apply in_map_iff in Hv as [m [<- Hm]].
    apply (nonnegDoubles_representable visible); [exact Hd|by apply list_elem_of_In]. }
  rewrite length_map, Z.add_0_l, Qplus_0_l in L, U. split; assumption.
Qed.

Lemma Qsum_nonneg (l : list Q) : (forall x, In x l -> (0 <= x)%Q) -> (0 <= Qsum l)%Q.
Proof.
  induction l as [|x l IH]; intros H; simpl; [apply Qle_refl|].
  rewrite <- (Qplus_0_r 0). apply Qplus_le_compat; [apply H; by left|].
  apply IH. intros y Hy. apply H. by right.
Qed.

Lemma grandTotalVisible_nonneg visible rolled :
  (forall m, m ∈ visible -> (0 <= rolledOf rolled m)%Q) ->
  (0 <= grandTotalVisible visible rolled)%Q.
Proof.
  intros H. rewrite grandTotalVisible_sum. apply Qsum_nonneg.
  intros y Hy. apply in_map_iff in Hy as [m [<- Hm]]. apply H.
  by apply list_elem_of_In.
Qed.

(** With up to [2 ^ 32] members the two totals differ by less than a
    millionth of themselves. *)
Lemma total64_close visible rolled :
  nonnegDoubles visible rolled -> Z.of_nat (length visible) <= 2 ^ 32 ->
  ((1 - (1 # 1048576)) * grandTotalVisible visible rolled
   <= grandTotalVisible64 visible rolled)%Q /\
  (grandTotalVisible64 visible rolled
   <= (1 + (1 # 524288)) * grandTotalVisible visible rolled)%Q.
Proof.
  intros Hd Hn.
  destruct (total64_bounds visible rolled Hd ltac:(lia)) as [L U].
  pose proof (grandTotalVisible_nonneg visible rolled (fun m Hm => proj1 (Hd m Hm)))
    as HT.
  set (T := grandTotalVisible visible rolled) in *.
  set (n := inject_Z (Z.of_nat (length visible))) in *.
  assert (0 <= n)%Q as Hn0
    by (unfold n; change 0%Q with (inject_Z 0); rewrite <- Zle_Qle; lia).
  assert (n <= 4294967296)%Q as Hn1
    by (unfold n; change 4294967296%Q with (inject_Z (2 ^ 32));
        by rewrite <- Zle_Qle).
  split; nra.
Qed.

(** A share against the percentage of the doubles the page holds. *)
Lemma share_near64 visible rolled c :
  (forall m, m ∈ visible -> (0 <= rolledOf rolled m)%Q) -> c ∈ visible ->
  (0 < grandTotalVisible64 visible rolled)%Q ->
  sharePct visible rolled (Category.id c)
  = math_round (binary64 (binary64 (binary64 (rolledOf rolled c)
                                    / grandTotalVisible64 visible rolled) * 100)) /\
  (0 <= binary64 (binary64 (binary64 (rolledOf rolled c)
                            / grandTotalVisible64 visible rolled) * 100))%Q /\
  (Qabs (binary64 (binary64 (binary64 (rolledOf rolled c)
                             / grandTotalVisible64 visible rolled) * 100)
         - 100 * binary64 (rolledOf rolled c) / grandTotalVisible64 visible rolled)
   <= 2 ^ (-45))%Q.
Proof.
  intros Hpos Hc HT. rewrite sharePct_formula.
  assert (Qeq_bool (grandTotalVisible64 visible rolled) 0 = false) as ->.
  { destruct (Qeq_bool _ 0) eqn:E; [|reflexivity].
    apply Qeq_bool_iff in E. rewrite E in HT. inversion HT. }
  split; [reflexivity|].
  apply share_value_error; [apply binary64_nonneg, Hpos, Hc| |exact HT].
  by apply member_le_total64.
Qed.

(** A share is within a half and [(n + 1) * 2 ^ -44] of the exact
    percentage, and is the rounded exact percentage unless that lies as
    near to a half. *)
Lemma share_near visible rolled c :
  nonnegDoubles visible rolled -> Z.of_nat (length visible) <= 2 ^ 32 ->
  c ∈ visible -> (0 < grandTotalVisible visible rolled)%Q ->
  (Qabs (inject_Z (sharePct visible rolled (Category.id c))
         - 100 * rolledOf rolled c / grandTotalVisible visible rolled)
   <= (1 # 2) + (inject_Z (Z.of_nat (length visible)) + 1) * 2 ^ (-44))%Q /\
  ((forall k : Z,
      ((inject_Z (Z.of_nat (length visible)) + 1) * 2 ^ (-44)
       < Qabs (100 * rolledOf rolled c / grandTotalVisible visible rolled
               - (inject_Z k + (1 # 2))))%Q) ->
   sharePct visible rolled (Category.id c)
   = math_round (100 * rolledOf rolled c / grandTotalVisible visible rolled)).
Proof.
  intros Hd Hn Hc HT.
  assert (forall m, m ∈ visible -> (0 <= rolledOf rolled m)%Q) as Hpos
    by (intros m Hm; apply (Hd m Hm)).
  destruct (total64_bounds visible rolled Hd ltac:(lia)) as [L U].
  destruct (total64_close visible rolled Hd Hn) as [L' _].
  destruct (member_le_total64 visible rolled c Hpos Hc) as [_ Hle].
  destruct (Hd c Hc) as [Hr Hdc].
  set (T := grandTotalVisible visible rolled) in *.
  set (T64 := grandTotalVisible64 visible rolled) in *.
  set (r := rolledOf rolled c) in *.
  set (n := inject_Z (Z.of_nat (length visible))) in *.
  assert (0 < T64)%Q as HT64 by lra.
  destruct (share_near64 visible rolled c Hpos Hc HT64) as (-> & Y0 & YE).
  fold T64 r in Y0, YE |- *.
  set (y := binary64 (binary64 (binary64 r / T64) * 100)) in *.
  rewrite Hdc in Hle, YE.
  assert (0 <= n)%Q as Hn0
    by (unfold n; change 0%Q with (inject_Z 0); rewrite <- Zle_Qle; lia).
  assert (2 ^ (-45) == 1 # 35184372088832)%Q as P45 by reflexivity.
  assert (2 ^ (-44) == 1 # 17592186044416)%Q as P44 by reflexivity.
  rewrite P45 in YE. rewrite P44. apply Qabs_Qle_condition in YE as [YEa YEb].
  (* the percentage of the doubles against the exact one *)
  set (p64 := (100 * r / T64)%Q) in *. set (p := (100 * r / T)%Q).
  set (rho := (T64 / T)%Q).
  assert (p64 == 100 * (r / T64))%Q as Ep64 by (unfold p64; field; lra).
  assert (p == p64 * rho)%Q as Ep by (unfold p, p64, rho; field; split; lra).
  assert (0 <= r / T64)%Q as Q0
    by (apply Qle_shift_div_l; [exact HT64|by rewrite Qmult_0_l]).
  assert (r / T64 <= 1)%Q as Q1
    by (apply Qle_shift_div_r; [exact HT64|by rewrite Qmult_1_l]).
  assert (1 - n * (1 # 4503599627370496) <= rho)%Q as R1
    by (unfold rho; apply Qle_shift_div_l; [exact HT|exact L]).
  assert (rho <= 1 + 2 * n * (1 # 4503599627370496))%Q as R2
    by (unfold rho; apply Qle_shift_div_r; [exact HT|exact U]).
  assert (p64 - n * (1 # 17592186044416) <= p)%Q as D1 by nra.
  assert (p <= p64 + n * (1 # 17592186044416))%Q as D2 by nra.
  destruct (math_round_bounds y) as [B1 B2].
  split.
  - apply Qabs_Qle_condition. split; lra.
  - intros Hfar. unfold math_round.
    set (k := Qfloor (p + (1 # 2))).
    pose proof (Qfloor_le (p + (1 # 2))) as K1.
    pose proof (Qlt_floor (p + (1 # 2))) as K2.
    fold k in K1, K2. rewrite inject_Z_plus in K2.
    change (inject_Z 1) with 1%Q in K2.
    pose proof (Hfar k) as Hk. pose proof (Hfar (k - 1)) as Hk'.
    unfold Z.sub in Hk'. rewrite inject_Z_plus, inject_Z_opp in Hk'.
    change (inject_Z 1) with 1%Q in Hk'.
    rewrite Qabs_neg in Hk by lra. rewrite Qabs_pos in Hk' by lra.
    apply Qfloor_unique; lra.
Qed.

(** Shares that each lie near their term move the sum by at most a half
    and a little per term. *)
Lemma near_sum_bounds {A : Type} (s : A -> Z) (x : A -> Q) (delta : Q) (l : list A) :
  (forall c, In c l ->
     (2 * inject_Z (s c) <= 2 * x c + 1 + delta)%Q /\
     (2 * x c - 1 - delta <= 2 * inject_Z (s c))%Q) ->
  (2 * inject_Z (Zsum (map s l))
   <= 2 * Qsum (map x l) + inject_Z (Z.of_nat (length l)) * (1 + delta))%Q /\
  (2 * Qsum (map x l) - inject_Z (Z.of_nat (length l)) * (1 + delta)
   <= 2 * inject_Z (Zsum (map s l)))%Q.
Proof.
  induction l as [|c l IH]; intros H.
  - cbn [map Zsum Qsum fold_right length Z.of_nat].
    change (inject_Z (Z.of_nat 0)) with 0%Q. change (inject_Z 0) with 0%Q.
    split; lra.
  - destruct (IH (fun a Ha => H a (or_intror Ha))) as [IH1 IH2].
    destruct (H c (or_introl eq_refl)) as [B1 B2].
    cbn [map length]. unfold Zsum, Qsum in *. cbn [fold_right].
    rewrite Nat2Z.inj_succ. unfold Z.succ. rewrite !inject_Z_plus.
    change (inject_Z 1) with 1%Q.
    set (n := inject_Z (Z.of_nat (length l))) in *.
    assert ((n + 1) * (1 + delta) == n * (1 + delta) + 1 + delta)%Q as -> by ring.
    split; lra.
Qed.

Lemma shareSum_bound visible rolled :
  nonnegDoubles visible rolled -> Z.of_nat (length visible) <= 2 ^ 32 ->
  (0 < grandTotalVisible visible rolled)%Q ->
  Z.abs (shareSum visible rolled - 100) <= Z.of_nat (length visible) - 1.
Proof.
  intros Hd Hlen HT.
  assert (forall m, m ∈ visible -> (0 <= rolledOf rolled m)%Q) as Hpos
    by (intros m Hm; apply (Hd m Hm)).
  destruct (total64_close visible rolled Hd Hlen) as [L U].
  set (T := grandTotalVisible visible rolled) in *.
  set (T64 := grandTotalVisible64 visible rolled) in *.
  assert (0 < T64)%Q as HT64 by lra.
  set (x := fun c : Category.t => (100 * rolledOf rolled c / T64)%Q).
  assert (Qsum (map x visible) == 100 * T / T64)%Q as Hx.
  { rewrite (Qsum_ext x (fun c => rolledOf rolled c * (100 / T64))%Q)
      by (intros c; unfold x; field; lra).
    rewrite Qsum_scale, <- grandTotalVisible_sum. fold T. field. lra. }
  assert (100 * T / T64 <= 100 + (1 # 4096))%Q as P1
    by (apply Qle_shift_div_r; [exact HT64|lra]).
  assert (100 - (1 # 4096) <= 100 * T / T64)%Q as P2
    by (apply Qle_shift_div_l; [exact HT64|lra]).
  assert (2 ^ (-45) == 1 # 35184372088832)%Q as P45 by reflexivity.
  destruct (near_sum_bounds (fun c => sharePct visible rolled (Category.id c)) x
              (1 # 17592186044416) visible) as [B1 B2].
  { intros c Hc. apply list_elem_of_In in Hc.
    destruct (share_near64 visible rolled c Hpos Hc HT64) as (-> & _ & YE).
    fold T64 in YE |- *. destruct (Hd c Hc) as [_ Hdc].
    set (y := binary64 (binary64 (binary64 (rolledOf rolled c) / T64) * 100)) in *.
    rewrite Hdc in YE. fold (x c) in YE.
    rewrite P45 in YE. apply Qabs_Qle_condition in YE as [YEa YEb].
    destruct (math_round_bounds y) as [M1 M2].
    split; lra. }
  fold (shareSum visible rolled) in B1, B2. rewrite Hx in B1, B2.
  set (S := shareSum visible rolled) in *.
  set (n := Z.of_nat (length visible)) in *.
  assert (1 <= n) as Hn.
  { unfold n. destruct visible; [|simpl length; lia].
    exfalso. unfold T, grandTotalVisible in HT. simpl in HT. inversion HT. }
  assert (1 <= inject_Z n)%Q as Hn'
    by (change 1%Q with (inject_Z 1); by rewrite <- Zle_Qle).
  assert (inject_Z (2 * (S - 100)) == 2 * inject_Z S - 200)%Q as HA.
  { unfold Z.sub. rewrite inject_Z_mult, inject_Z_plus, inject_Z_opp.
    change (inject_Z 2) with 2%Q. change (inject_Z 100) with 100%Q. ring. }
  assert (inject_Z (2 * (S - 100)) < inject_Z (2 * n))%Q as A1.
  { rewrite HA, inject_Z_mult. change (inject_Z 2) with 2%Q. lra. }
  assert (inject_Z (- (2 * n)) < inject_Z (2 * (S - 100)))%Q as A2.
  { rewrite HA, inject_Z_opp, inject_Z_mult. change (inject_Z 2) with 2%Q. lra. }
  rewrite <- Zlt_Qlt in A1, A2. lia.
Qed.

(** C6, as stated, fails: of a visible total of 40 seconds a category with
    23 has the exact percentage 57.5, which rounds to 58; the quotient 23/40
    is not a double, the double next to it lies below, and so does its
    product with 100: the share is 57. *)
Lemma sharePct_23_of_40 :
  grandTotalVisible twoOfForty twoOfFortyRolled = 40%Q /\
  sharePct twoOfForty twoOfFortyRolled "a" = 57 /\
  math_round (100 * seconds_of twoOfFortyRolled "a"
              / grandTotalVisible twoOfForty twoOfFortyRolled) = 58.
Proof. repeat split; vm_compute; reflexivity. Qed.

(** C6, amended. Over a visible list of [n] categories, at most [2 ^ 32],
    whose rolled totals are JavaScript numbers, none negative, the visible
    total is the sum of the members' rolled seconds and [sharePct(id)] is
    [Math.round] of the double [(rolled(id) / total) * 100], the total added
    up in doubles as well: it lies within a half and [(n + 1) * 2 ^ -44] of
    the exact percentage [100 * rolled(id) / visibleTotal], and it is that
    percentage rounded, halves going up, unless the percentage lies as near
    to a half. When the total is positive the members' shares add up to 100
    within [n - 1], and when it is 0 every share is 0. *)
Theorem sharePct_spec (visible : list Category.t) (rolledSeconds : gmap string Q) :
  nonnegDoubles visible rolledSeconds ->
  Z.of_nat (length visible) <= 2 ^ 32 ->
  (grandTotalVisible visible rolledSeconds
   == Qsum (map (rolledOf rolledSeconds) visible))%Q /\
  (forall c, c ∈ visible -> (0 < grandTotalVisible visible rolledSeconds)%Q ->
     (Qabs (inject_Z (sharePct visible rolledSeconds (Category.id c))
            - 100 * rolledOf rolledSeconds c / grandTotalVisible visible rolledSeconds)
      <= (1 # 2) + (inject_Z (Z.of_nat (length visible)) + 1) * 2 ^ (-44))%Q /\
     ((forall k : Z,
         ((inject_Z (Z.of_nat (length visible)) + 1) * 2 ^ (-44)
          < Qabs (100 * rolledOf rolledSeconds c
                  / grandTotalVisible visible rolledSeconds
                  - (inject_Z k + (1 # 2))))%Q) ->
      sharePct visible rolledSeconds (Category.id c)
      = math_round (100 * rolledOf rolledSeconds c
                    / grandTotalVisible visible rolledSeconds))) /\
  ((0 < grandTotalVisible visible rolledSeconds)%Q ->
   Z.abs (shareSum visible rolledSeconds - 100) <= Z.of_nat (length visible) - 1) /\
  ((grandTotalVisible visible rolledSeconds == 0)%Q ->
   forall id, sharePct visible rolledSeconds id = 0).
Proof.
  intros Hd Hn. split; [apply grandTotalVisible_sum|].
  split; [intros c Hc HT; by apply share_near|].
  split; [by apply shareSum_bound|].
  intros E id. rewrite sharePct_formula.
  destruct (total64_close visible rolledSeconds Hd Hn) as [_ U].
  destruct (sum64_ge (map (rolledOf rolledSeconds) visible) 0 representable_0)
    as (_ & G & _).
  { intros v Hv. apply in_map_iff in Hv as [m [<- Hm]].
    apply (Hd m). by apply list_elem_of_In. }
  rewrite <- grandTotalVisible64_sum64 in G. rewrite E in U.
  assert (grandTotalVisible64 visible rolledSeconds == 0)%Q as E0 by lra.
  apply Qeq_bool_iff in E0. rewrite E0. reflexivity.
Qed.

Lemma thirds_nonnegDoubles : nonnegDoubles thirds thirdsRolled.
Proof.
  intros m Hm. unfold thirds in Hm.
  repeat (apply elem_of_cons in Hm as [->|Hm]); [| | |inversion Hm];
    (split; [vm_compute; discriminate|vm_compute; reflexivity]).
Qed.

Lemma sharePct_spec_witness :
  Z.abs (shareSum thirds thirdsRolled - 100) <= Z.of_nat (length thirds) - 1.
Proof.
  apply (proj1 (proj2 (proj2 (sharePct_spec thirds thirdsRolled thirds_nonnegDoubles
                                ltac:(vm_compute; discriminate))))).
  vm_compute. reflexivity.
Defined.

(** Three equal members get 33 each: the shares add up to 99. *)
Example shares_of_thirds :
  map (fun c => sharePct thirds thirdsRolled (Category.id c)) thirds = [33; 33; 33].
Proof. vm_compute. reflexivity. Qed.

(** 0.15 s of 0.15 s + 0.25 s: the doubles add up to the double of 0.4, the
    quotient falls below 0.375, and the share is 37. *)
Example shares_of_quarter :
  sharePct twoOfForty quarterRolled "a" = 37 /\
  sharePct twoOfForty quarterRolled "b" = 63.
Proof. split; vm_compute; reflexivity. Qed.

(** * Duration formatting *)

Lemma allDigits_string_of_uint d : allDigits (NilEmpty.string_of_uint d) = true.
Proof. induction d; simpl; auto. Qed.

Lemma allDigits_show n : 0 <= n -> allDigits (show n) = true.
Proof.
  intros H. unfold show. destruct n as [|p|p]; [reflexivity| |lia].
  simpl. unfold NilZero.string_of_uint.
  destruct (Pos.to_uint p) eqn:E; try reflexivity;
    rewrite <- E; apply allDigits_string_of_uint.
Qed.

(** Digits in front of a text do not help a word that starts with a letter. *)
Lemma includes_digits a sub ds rest :
  isDigit a = false -> allDigits ds = true ->
  includes (String a sub) (ds +:+ rest) = includes (String a sub) rest.
Proof.
  intros Ha. induction ds as [|d ds IH]; intros Hd; [reflexivity|].
  simpl in Hd. apply andb_prop in Hd as [Hd1 Hd2].
  change (String d ds +:+ rest) with (String d (ds +:+ rest)).
  cbn [includes String.prefix].
  destruct (ascii_dec a d) as [->|_]; [congruence|].
  simpl. apply IH, Hd2.
Qed.

Lemma includes_show a sub n rest :
  isDigit a = false -> 0 <= n ->
  includes (String a sub) (show n +:+ rest) = includes (String a sub) rest.
Proof. intros Ha Hn. apply includes_digits; [exact Ha|apply allDigits_show, Hn]. Qed.

(** The running remainders of [formatHMS] are the remainders of the whole. *)
Lemma split_counts s :
  0 <= s ->
  let years := s / YEAR in
  let s1 := s - years * YEAR in
  let days := s1 / DAY in
  let s2 := s1 - days * DAY in
  let hours := s2 / HOUR in
  let s3 := s2 - hours * HOUR in
  days = s mod YEAR / DAY /\ hours = s mod DAY / HOUR /\
  s3 / MIN = s mod HOUR / MIN /\ Z.rem s3 MIN = s mod MIN /\
  0 <= years /\ 0 <= days /\ 0 <= hours /\ 0 <= s3 / MIN.
Proof.
  intros Hs. cbv zeta. unfold YEAR, DAY, HOUR, MIN.
  rewrite Z.rem_mod_nonneg by (try lia; Z.div_mod_to_equations; lia).
  repeat split; Z.div_mod_to_equations; lia.
Qed.

Lemma formatHMS_parts seconds :
  formatHMS seconds =
  let '(years, days, hours, mins, secs) := splitSeconds seconds in
  String.concat " " (secondPart (firstParts years days hours mins)
                                days hours mins secs).
Proof.
  unfold formatHMS, splitSeconds. cbv zeta.
  destruct (split_counts (Z.max 0 (Qfloor seconds)) ltac:(lia))
    as (E1 & E2 & E3 & E4 & _).
  cbv zeta in E1, E2, E3, E4. rewrite E4, E3, E2, E1. reflexivity.
Qed.








(** The self-tests of page.tsx, lines 230-235, and the table's rows. *)
Example selftest_formatHMS :
  formatHMS 0 = "0 sec"%string /\
  formatHMS 65 = "1 min 5 sec"%string /\
  formatHMS (inject_Z (26 * 3600)) = "1 day 2 hrs"%string /\
  formatHMS (inject_Z 3600) = "1 hr 0 min"%string /\
  formatHMS (inject_Z (365 * 24 * 3600 + 5 * 3600)) = "1 yr 5 hrs"%string.
Proof. repeat split; reflexivity. Qed.

(** With whole years and whole days both present the day part is pushed
    twice: three parts, not two. *)
Example formatHMS_400_days :
  formatHMS (inject_Z (400 * 24 * 3600)) = "1 yr 35 days 35 days"%string.
Proof. reflexivity. Qed.

(** * Hierarchy index *)

Lemma kidsOf_pushChild map c p :
  kidsOf (pushChild map c) p =
  if decide (parentKey c = p) then kidsOf map p ++ [Category.id c]
  else kidsOf map p.
Proof.
  unfold pushChild, kidsOf.
  destruct (decide (parentKey c = p)) as [<-|Hne].
  - rewrite lookup_insert_eq. simpl.
    destruct (map !! parentKey c) as [l|] eqn:E; simpl.
    + rewrite E. reflexivity.
    + rewrite lookup_insert_eq. reflexivity.
  - rewrite lookup_insert_ne by exact Hne.
    destruct (map !! parentKey c); [reflexivity|].
    rewrite lookup_insert_ne by exact Hne. reflexivity.
Qed.

Lemma kidsOf_fold categories map p :
  kidsOf (fold_left pushChild categories map) p =
  kidsOf map p ++
  List.map Category.id
    (List.filter (fun c => String.eqb (parentKey c) p) categories).
Proof.
  revert map. induction categories as [|c l IH]; intros map; simpl.
  - rewrite app_nil_r. reflexivity.
  - rewrite IH, kidsOf_pushChild, eqb_decide.
    destruct (decide (parentKey c = p)); simpl; [|reflexivity].
    rewrite <- app_assoc. reflexivity.
Qed.

(** The index files under each key the ids of the categories with that
    parent key, in snapshot order. *)
Lemma kidsOf_buildChildMap categories p :
  kidsOf (buildChildMap categories) p =
  List.map Category.id
    (List.filter (fun c => String.eqb (parentKey c) p) categories).
Proof. unfold buildChildMap. rewrite kidsOf_fold. reflexivity. Qed.

Lemma childOf_iff categories p k :
  childOf categories p k <->
  exists c, c ∈ categories /\ Category.id c = k /\ parentKey c = p.
Proof.
  unfold childOf. rewrite kidsOf_buildChildMap, list_elem_of_In, in_map_iff.
  split.
  - intros [c [Hid Hc]]. apply filter_In in Hc as [Hin Hp].
    exists c. apply list_elem_of_In in Hin. apply String.eqb_eq in Hp. auto.
  - intros [c (Hin & Hid & Hp)]. exists c. split; [exact Hid|].
    apply filter_In. split; [by apply list_elem_of_In|by apply String.eqb_eq].
Qed.

(** Away from the root key the index lists the children by parent link. *)
Lemma kidsOf_childrenOf categories id :
  id <> "__root__"%string ->
  kidsOf (buildChildMap categories) id = childrenOf categories id.
Proof.
  intros Hid. rewrite kidsOf_buildChildMap. unfold childrenOf. f_equal.
  induction categories as [|c l IH]; simpl; [reflexivity|].
  rewrite IH.
  assert (String.eqb (parentKey c) id = same (Category.parentId c) (Some id)) as ->;
    [|reflexivity].
  apply eq_true_iff_eq. rewrite String.eqb_eq, same_true. unfold parentKey.
  destruct (Category.parentId c); simpl; split; congruence.
Qed.

Lemma idSet_fold categories seen x :
  x ∈ fold_left (fun seen c =>
                   if bool_decide (Category.id c ∈ seen) then seen
                   else seen ++ [Category.id c]) categories seen
  <-> x ∈ seen \/ exists c, c ∈ categories /\ Category.id c = x.
Proof.
  revert seen. induction categories as [|c l IH]; intros seen; simpl.
  - split; [auto|]. intros [H|[c [Hc _]]]; [exact H|inversion Hc].
  - rewrite IH. split.
    + intros [H|[c' [Hc' Hid]]].
      * destruct (bool_decide (Category.id c ∈ seen)); [auto|].
        apply elem_of_app in H as [H|H]; [auto|].
        apply list_elem_of_singleton in H. right. exists c. split; [left|auto].
      * right. exists c'. split; [by right|exact Hid].
    + intros [H|[c' [Hc' Hid]]].
      * left. destruct (bool_decide (Category.id c ∈ seen)); [exact H|].
        apply elem_of_app. auto.
      * apply elem_of_cons in Hc' as [->|Hc'].
        -- left. destruct (bool_decide (Category.id c ∈ seen)) eqn:E.
           ++ apply bool_decide_eq_true in E. congruence.
           ++ apply elem_of_app. right. apply list_elem_of_singleton. auto.
        -- right. exists c'. auto.
Qed.

Lemma elem_of_idSet categories x :
  x ∈ idSet categories <-> exists c, c ∈ categories /\ Category.id c = x.
Proof.
  unfold idSet. rewrite idSet_fold. split; [|auto].
  intros [H|H]; [inversion H|exact H].
Qed.

Lemma tc_target {A : Type} (R : relation A) x y : tc R x y -> exists z, R z y.
Proof. induction 1 as [x y H|x y z _ _ IH]; [exists x; exact H|exact IH]. Qed.

Lemma tc_first {A : Type} (R : relation A) x y :
  tc R x y -> exists k, R x k /\ rtc R k y.
Proof.
  destruct 1 as [x y H|x k y H Ht].
  - exists y. split; [exact H|reflexivity].
  - exists k. split; [exact H|by apply tc_rtc].
Qed.

Lemma childOf_idSet categories p k : childOf categories p k -> k ∈ idSet categories.
Proof.
  intros H. apply childOf_iff in H as [c (Hin & Hid & _)].
  apply elem_of_idSet. exists c. auto.
Qed.

(** * Rollup on a cyclic snapshot *)

Section OnCycle.
Variable childMap : gmap string (list string).
Variable direct : gmap string Q.
(** A set of ids each of which has a kid in the set. *)
Variable looping : string -> Prop.
Hypothesis loop_kid : forall x, looping x -> exists k, k ∈ kidsOf childMap x /\ looping k.

Lemma sumKids_avoids visit kids :
  (forall k memo memo' v,
     avoids looping memo -> visit k memo = Some (memo', v) -> avoids looping memo' /\ ~ looping k) ->
  forall memo total memo' total',
    avoids looping memo ->
    sumKids visit kids memo total = Some (memo', total') ->
    avoids looping memo' /\ forall k, k ∈ kids -> ~ looping k.
Proof.
  intros Hvisit. induction kids as [|k rest IH]; intros memo total memo' total' Ha.
  - simpl. intros [= <- _]. split; [exact Ha|]. intros k Hk. inversion Hk.
  - simpl. destruct (visit k memo) as [[memo1 v]|] eqn:E; [|discriminate].
    intros Hrest. destruct (Hvisit _ _ _ _ Ha E) as [Ha1 Hk].
    destruct (IH _ _ _ _ Ha1 Hrest) as [Ha' Hks].
    split; [exact Ha'|]. intros k' Hk'.
    apply elem_of_cons in Hk' as [->|Hk']; [exact Hk|by apply Hks].
Qed.

(** A call of [dfs] that comes back has stayed off the set. *)
Lemma dfs_avoids depth :
  forall id memo memo' v,
    avoids looping memo -> dfs childMap direct depth id memo = Some (memo', v) ->
    avoids looping memo' /\ ~ looping id.
Proof.
  induction depth as [|d IH]; intros id memo memo' v Ha; simpl; [discriminate|].
  destruct (memo !! id) as [v0|] eqn:E.
  - intros [= <- _]. split; [exact Ha|]. intros Hs. rewrite (Ha _ Hs) in E.
    discriminate.
  - destruct (sumKids (dfs childMap direct d) (kidsOf childMap id) memo
                      (seconds_of direct id)) as [[memo1 total]|] eqn:Ek;
      [|discriminate].
    intros [= <- _].
    destruct (sumKids_avoids _ _ IH _ _ _ _ Ha Ek) as [Ha1 Hkids].
    assert (~ looping id) as Hid.
    { intros Hs. destruct (loop_kid _ Hs) as [k [Hk Hsk]]. exact (Hkids k Hk Hsk). }
    split; [|exact Hid].
    intros y Hy. rewrite lookup_insert_ne by (intros ->; contradiction).
    apply Ha1, Hy.
Qed.

Lemma forEachId_cycle depth ids :
  forall memo, avoids looping memo -> (exists x, x ∈ ids /\ looping x) ->
               forEachId childMap direct depth ids memo = None.
Proof.
  induction ids as [|id rest IH]; intros memo Ha [x [Hx Hs]]; [inversion Hx|].
  simpl. destruct (dfs childMap direct depth id memo) as [[memo1 v]|] eqn:E;
    [|reflexivity].
  destruct (dfs_avoids _ _ _ _ _ Ha E) as [Ha1 Hid].
  apply IH; [exact Ha1|]. exists x. split; [|exact Hs].
  apply elem_of_cons in Hx as [->|Hx]; [contradiction|exact Hx].
Qed.

End OnCycle.

Lemma cycleAB_cyclic : cyclic cycleAB.
Proof.
  exists "A"%string. apply tc_l with (y := "B"%string); [|apply tc_once];
    apply childOf_iff.
  - exists (cat "B" (Some "A"%string) None). split; [|split; reflexivity]. set_solver.
  - exists (cat "A" (Some "B"%string) None). split; [|split; reflexivity]. set_solver.
Qed.

(** C1, as stated, fails: for categories A (parent B) and B (parent A) there
    is no depth of calls at which [rollupSeconds] comes back, with a fault or
    with a mapping: the recursion goes on until the stack gives out. *)
Lemma rollupSeconds_cycleAB_never_returns :
  ~ exists depth, rollupSeconds depth cycleAB ∅ <> None.
Proof.
  intros [depth H]. apply H. unfold rollupSeconds.
  apply (forEachId_cycle (buildChildMap cycleAB) ∅
           (fun y => y = "A"%string \/ y = "B"%string)).
  - intros y [-> | ->]; [exists "B"%string|exists "A"%string];
      (split; [vm_compute; left|tauto]).
  - intros y _. apply lookup_empty.
  - exists "A"%string. split; [vm_compute; left|tauto].
Qed.

(** C1, amended. For every category snapshot whose parent graph contains a
    cycle and every direct-seconds mapping, [rollupSeconds] has no guard
    against the cycle and raises no fault of its own: whatever the depth of
    calls allowed, the recursion exceeds it. *)
Theorem rollupSeconds_cyclic_diverges (categories : list Category.t)
    (direct : gmap string Q) :
  cyclic categories ->
  forall depth, rollupSeconds depth categories direct = None.
Proof.
  intros [x Hx] depth. unfold rollupSeconds.
  apply (forEachId_cycle (buildChildMap categories) direct
           (fun y => tc (childOf categories) y y)).
  - intros y Hy. apply tc_first in Hy as [k [Hk Hrest]].
    exists k. split; [exact Hk|]. eapply tc_rtc_l; [exact Hrest|by apply tc_once].
  - intros y _. apply lookup_empty.
  - exists x. split; [|exact Hx].
    apply tc_target in Hx as [z Hz]. eapply childOf_idSet, Hz.
Qed.

Lemma rollupSeconds_cyclic_diverges_witness :
  rollupSeconds 1000 cycleAB ∅ = None.
Proof. apply (rollupSeconds_cyclic_diverges cycleAB ∅ cycleAB_cyclic 1000). Defined.

(** * Rollup on an acyclic snapshot *)

Lemma plusRolled_ext m1 m2 kids d :
  (forall k, k ∈ kids -> seconds_of m1 k = seconds_of m2 k) ->
  plusRolled m1 kids d = plusRolled m2 kids d.
Proof.
  unfold plusRolled. intros H. apply fold_left_ext_in.
  intros t k Hk. rewrite (H k Hk). reflexivity.
Qed.

Lemma seconds_of_weaken (m1 m2 : gmap string Q) k :
  m1 ⊆ m2 -> is_Some (m1 !! k) -> seconds_of m2 k = seconds_of m1 k.
Proof.
  intros Hsub [v Hv]. unfold seconds_of.
  rewrite (lookup_weaken _ _ _ _ Hv Hsub), Hv. reflexivity.
Qed.

(** A common bound for finitely many eventually-true properties. *)
Lemma common_depth {A : Type} (P : A -> nat -> Prop) (l : list A) :
  (forall a, a ∈ l -> exists d0, forall d, (d0 <= d)%nat -> P a d) ->
  exists d0, forall a, a ∈ l -> forall d, (d0 <= d)%nat -> P a d.
Proof.
  induction l as [|a l IH]; intros H.
  - exists 0%nat. intros a Ha. inversion Ha.
  - destruct (H a ltac:(left)) as [da Hda].
    destruct IH as [dl Hdl]; [intros b Hb; apply H; by right|].
    exists (Nat.max da dl). intros b Hb d Hd.
    apply elem_of_cons in Hb as [->|Hb]; [apply Hda|apply Hdl; [exact Hb|]]; lia.
Qed.

Section Acyclic.
Variable categories : list Category.t.
Variable direct : gmap string Q.
Hypothesis no_cycle : acyclic categories.

Let childMap := buildChildMap categories.
Let R := childOf categories.

Lemma sumKids_ok d kids :
  (forall k, k ∈ kids -> visit_ok childMap direct R k d) ->
  forall memo total, memo_ok childMap direct memo ->
    exists memo' total',
      sumKids (dfs childMap direct d) kids memo total = Some (memo', total') /\
      memo_ok childMap direct memo' /\ memo ⊆ memo' /\
      (forall k, k ∈ kids -> is_Some (memo' !! k)) /\
      total' = plusRolled memo' kids total /\
      (forall y, is_Some (memo' !! y) ->
                 is_Some (memo !! y) \/ exists k, k ∈ kids /\ rtc R k y).
Proof.
  induction kids as [|k rest IH]; intros Hkids memo total Hok.
  - exists memo, total. simpl. split_and!; auto.
    intros k Hk. inversion Hk.
  - destruct (Hkids k ltac:(left) memo Hok) as (memo1 & v & E & Hok1 & Hsub1 & Hk & Htr1).
    destruct (IH ltac:(intros; apply Hkids; by right) memo1 (total + v)%Q Hok1)
      as (memo' & total' & E' & Hok' & Hsub' & Hrest & Htot & Htr').
    exists memo', total'. simpl. rewrite E. split_and!; auto.
    + etrans; eauto.
    + intros k' Hk'. apply elem_of_cons in Hk' as [->|Hk']; [|by apply Hrest].
      exists v. eapply lookup_weaken; eauto.
    + rewrite Htot. unfold plusRolled. simpl. f_equal.
      unfold seconds_of. rewrite (lookup_weaken _ _ _ _ Hk Hsub'). reflexivity.
    + intros y Hy. destruct (Htr' y Hy) as [Hy1|[k' [Hk' Hr]]].
      * destruct (Htr1 y Hy1) as [Hy0|Hr]; [by left|].
        right. exists k. split; [left|exact Hr].
      * right. exists k'. split; [by right|exact Hr].
Qed.

Lemma kid_not_self x : x ∉ kidsOf childMap x.
Proof. intros H. apply (no_cycle x). apply tc_once. exact H. Qed.

Lemma dfs_ok x d :
  (forall k, k ∈ kidsOf childMap x -> visit_ok childMap direct R k d) -> visit_ok childMap direct R x (S d).
Proof.
  intros Hkids memo Hok. simpl.
  destruct (memo !! x) as [v0|] eqn:Ex.
  - exists memo, v0. split_and!; auto.
  - destruct (sumKids_ok d _ Hkids memo (seconds_of direct x) Hok)
      as (memo' & total & E & Hok' & Hsub & Hin & Htot & Htr).
    rewrite E. exists (<[x := total]> memo'), total.
    assert (memo' !! x = None) as Hx.
    { destruct (memo' !! x) as [w|] eqn:Ew; [|reflexivity]. exfalso.
      destruct (Htr x ltac:(eauto)) as [[w' Hw']|[k [Hk Hr]]]; [congruence|].
      apply (no_cycle x). eapply tc_rtc_r; [apply tc_once; exact Hk|exact Hr]. }
    assert (forall t k, is_Some (memo' !! k) ->
                        seconds_of (<[x := t]> memo') k = seconds_of memo' k) as Hsame.
    { intros t k [w Hw]. unfold seconds_of.
      rewrite lookup_insert_ne by (intros ->; congruence). reflexivity. }
    split_and!; [reflexivity| | | |].
    + intros y w Hy. rewrite lookup_insert in Hy.
      destruct (decide (x = y)) as [<-|Hne].
      * injection Hy as <-. split.
        -- intros k Hk. apply lookup_insert_is_Some'. right. by apply Hin.
        -- rewrite Htot. apply plusRolled_ext. intros k Hk. symmetry.
           by apply Hsame, Hin.
      * destruct (Hok' y w Hy) as [Hk Hv]. split.
        -- intros k Hkin. apply lookup_insert_is_Some'. right. by apply Hk.
        -- rewrite Hv. apply plusRolled_ext. intros k Hkin. symmetry.
           by apply Hsame, Hk.
    + etrans; [exact Hsub|]. by apply insert_subseteq.
    + apply lookup_insert_eq.
    + intros y Hy. apply lookup_insert_is_Some' in Hy as [<-|Hy]; [by right|].
      destruct (Htr y Hy) as [Hy0|[k [Hk Hr]]]; [by left|].
      right. eapply rtc_l; [exact Hk|exact Hr].
Qed.

(** Below a node without cycles a deep enough stack is enough. *)
Lemma visit_depth x : sn R x -> exists d0, forall d, (d0 <= d)%nat -> visit_ok childMap direct R x d.
Proof.
  induction 1 as [x _ IH].
  destruct (common_depth (fun k d => visit_ok childMap direct R k d) (kidsOf childMap x))
    as [d0 Hd0]; [intros k Hk; apply IH; exact Hk|].
  exists (S d0). intros d Hd. destruct d as [|d]; [lia|].
  apply dfs_ok. intros k Hk. apply Hd0; [exact Hk|lia].
Qed.

Lemma all_sn x : sn R x.
Proof.
  apply tc_finite_sn.
  - intros y Hy. exact (no_cycle y Hy).
  - exists (idSet categories). intros y Hy.
    apply tc_target in Hy as [z Hz]. eapply childOf_idSet, Hz.
Qed.

Lemma forEachId_ok d ids :
  (forall x, x ∈ ids -> visit_ok childMap direct R x d) ->
  forall memo, memo_ok childMap direct memo ->
    exists memo',
      forEachId childMap direct d ids memo = Some memo' /\
      memo_ok childMap direct memo' /\ memo ⊆ memo' /\
      forall x, x ∈ ids -> is_Some (memo' !! x).
Proof.
  induction ids as [|x rest IH]; intros Hids memo Hok.
  - exists memo. simpl. split_and!; auto. intros x Hx. inversion Hx.
  - destruct (Hids x ltac:(left) memo Hok) as (memo1 & v & E & Hok1 & Hsub1 & Hx & _).
    destruct (IH ltac:(intros; apply Hids; by right) memo1 Hok1)
      as (memo' & E' & Hok' & Hsub' & Hrest).
    exists memo'. simpl. rewrite E. split_and!; auto.
    + etrans; eauto.
    + intros y Hy. apply elem_of_cons in Hy as [->|Hy]; [|by apply Hrest].
      exists v. eapply lookup_weaken; eauto.
Qed.

Lemma rollupSeconds_ok :
  exists d0, forall depth, (d0 <= depth)%nat ->
    exists rolled,
      rollupSeconds depth categories direct = Some rolled /\
      forall c, c ∈ categories ->
        rolled !! Category.id c
        = Some (plusRolled rolled (kidsOf childMap (Category.id c))
                           (seconds_of direct (Category.id c))).
Proof.
  destruct (common_depth (fun x d => visit_ok childMap direct R x d) (idSet categories))
    as [d0 Hd0]; [intros x _; apply visit_depth, all_sn|].
  exists d0. intros depth Hdepth.
  destruct (forEachId_ok depth (idSet categories)
              ltac:(intros x Hx; by apply Hd0) ∅)
    as (rolled & E & Hok & _ & Hall).
  { intros x v. rewrite lookup_empty. discriminate. }
  exists rolled. split; [exact E|].
  intros c Hc.
  destruct (Hall (Category.id c)) as [v Hv];
    [apply elem_of_idSet; exists c; auto|].
  rewrite Hv. f_equal. apply (Hok _ _ Hv).
Qed.

End Acyclic.

(** * Parent links and the index *)

Lemma parentLink_childOf categories p k :
  parentLink categories p k -> childOf categories p k.
Proof.
  intros [c (Hin & Hid & Hp)]. apply childOf_iff. exists c.
  unfold parentKey. rewrite Hp. auto.
Qed.

Lemma childOf_parentLink categories p k :
  p <> "__root__"%string -> childOf categories p k -> parentLink categories p k.
Proof.
  intros Hp H. apply childOf_iff in H as [c (Hin & Hid & Hk)].
  exists c. split; [exact Hin|]. split; [exact Hid|].
  unfold parentKey in Hk. destruct (Category.parentId c); simpl in Hk; congruence.
Qed.

Lemma childOf_target_id categories z a :
  sentinelFree categories -> childOf categories z a -> a <> "__root__"%string.
Proof.
  intros Hfree H. apply childOf_iff in H as [c (Hin & <- & _)]. by apply Hfree.
Qed.

(** A cycle of parent links is a cycle of the index. *)
Lemma parent_cycle_cyclic categories x :
  tc (parentLink categories) x x -> cyclic categories.
Proof.
  intros H. exists x.
  eapply tc_congruence with (f := fun y => y); [|exact H].
  intros p k. apply parentLink_childOf.
Qed.

(** When no category is named like the root key, the index has a cycle only
    if the parent links have one. *)
Lemma acyclic_iff_parent_links categories :
  sentinelFree categories ->
  acyclic categories <-> forall x, ~ tc (parentLink categories) x x.
Proof.
  intros Hfree. split.
  - intros Hac x Hx. destruct (parent_cycle_cyclic _ _ Hx) as [y Hy].
    exact (Hac y Hy).
  - intros Hno x Hx. apply (Hno x).
    assert (forall a b, tc (childOf categories) a b ->
                        a <> "__root__"%string -> tc (parentLink categories) a b)
      as Hlift.
    { induction 1 as [a b H|a y b H _ IH]; intros Ha.
      - apply tc_once. by apply childOf_parentLink.
      - eapply tc_l; [by apply childOf_parentLink|].
        apply IH. eapply childOf_target_id; eauto. }
    apply Hlift; [exact Hx|].
    destruct (tc_target _ _ _ Hx) as [z Hz]. eapply childOf_target_id; eauto.
Qed.

Lemma acyclic_by_rank categories (rank : string -> nat) :
  (forall c, c ∈ categories -> (rank (Category.id c) < rank (parentKey c))%nat) ->
  acyclic categories.
Proof.
  intros Hrank.
  assert (forall x y, tc (childOf categories) x y -> (rank y < rank x)%nat) as Hdown.
  { induction 1 as [x y H|x y z H _ IH].
    - apply childOf_iff in H as [c (Hin & <- & <-)]. by apply Hrank.
    - apply childOf_iff in H as [c (Hin & <- & <-)].
      specialize (Hrank c Hin). lia. }
  intros x Hx. specialize (Hdown x x Hx). lia.
Qed.

Lemma isLeaf_no_kids categories id :
  id <> "__root__"%string ->
  isLeaf categories id = true <-> kidsOf (buildChildMap categories) id = [].
Proof.
  intros Hid. rewrite kidsOf_childrenOf by exact Hid.
  unfold isLeaf, childrenOf. rewrite negb_true_iff.
  induction categories as [|c l IH]; simpl; [tauto|].
  destruct (same (Category.parentId c) (Some id)); simpl; [|exact IH].
  split; discriminate.
Qed.

Lemma family_acyclic : acyclic family.
Proof.
  apply acyclic_by_rank with
    (rank := fun s => if String.eqb s "__root__" then 2%nat
                      else if String.eqb s "p" then 1%nat else 0%nat).
  intros c Hc. unfold family in Hc.
  repeat (apply elem_of_cons in Hc as [->|Hc]); [| | |inversion Hc];
    vm_compute; lia.
Qed.

(** C4, as stated, fails: the single root category with the id ["__root__"]
    has no parent link at all, so no cycle of them, and yet there is no depth
    of calls at which [rollupSeconds] comes back: roots are filed under the
    key ["__root__"], so this one is indexed as its own child. *)
Lemma rollupSeconds_root_key_never_returns :
  (forall x, ~ tc (parentLink [cat "__root__" None None]) x x) /\
  ~ exists depth, rollupSeconds depth [cat "__root__" None None] ∅ <> None.
Proof.
  split.
  - intros x Hx. apply tc_target in Hx as [z [c (Hc & _ & Hp)]].
    apply list_elem_of_singleton in Hc. subst c. discriminate Hp.
  - intros [depth H]. apply H. unfold rollupSeconds.
    apply (forEachId_cycle (buildChildMap [cat "__root__" None None]) ∅
             (fun y => y = "__root__"%string)).
    + intros y ->. exists "__root__"%string. split; [vm_compute; left|reflexivity].
    + intros y _. apply lookup_empty.
    + exists "__root__"%string. split; [vm_compute; left|reflexivity].
Qed.

(** C4, amended. For every category snapshot in which no category is its own
    ancestor by parent links and none carries the id ["__root__"], and for
    every direct-seconds mapping, [rollupSeconds] returns once the stack is
    deep enough, and the mapping it returns is defined on every category id
    with [rolled(id) = direct(id) + rolled(k1) + ... + rolled(kn)] over the
    categories [k1 .. kn] whose parent is [id]; so [rolled = direct] where
    no category has [id] as parent, and
    [rolled(p) = direct(p) + rolled(c1) + rolled(c2)] for a parent of exactly
    [c1] and [c2], whatever the direct values. *)
Theorem rollupSeconds_acyclic (categories : list Category.t)
    (direct : gmap string Q) :
  (forall x, ~ tc (parentLink categories) x x) ->
  sentinelFree categories ->
  exists d0, forall depth, (d0 <= depth)%nat ->
    exists rolled,
      rollupSeconds depth categories direct = Some rolled /\
      forall c, c ∈ categories ->
        let id := Category.id c in
        let kids := childrenOf categories id in
        rolled !! id = Some (plusRolled rolled kids (seconds_of direct id)) /\
        (kids = [] -> rolled !! id = Some (seconds_of direct id)) /\
        (forall c1 c2, kids = [c1; c2] ->
           rolled !! id = Some (seconds_of direct id + seconds_of rolled c1
                                + seconds_of rolled c2)%Q).
Proof.
  intros Hlinks Hfree.
  assert (acyclic categories) as Hac by (by apply acyclic_iff_parent_links).
  destruct (rollupSeconds_ok categories direct Hac) as [d0 H].
  exists d0. intros depth Hd. destruct (H depth Hd) as (rolled & E & Hall).
  exists rolled. split; [exact E|]. intros c Hc. cbv zeta.
  specialize (Hall c Hc).
  rewrite kidsOf_childrenOf in Hall by (by apply Hfree).
  split; [exact Hall|]. split.
  - intros Hk. rewrite Hk in Hall. exact Hall.
  - intros c1 c2 Hk. rewrite Hk in Hall. exact Hall.
Qed.

Lemma family_parent_links : forall x, ~ tc (parentLink family) x x.
Proof.
  apply acyclic_iff_parent_links; [|exact family_acyclic].
  intros c Hc. unfold family in Hc.
  repeat (apply elem_of_cons in Hc as [->|Hc]); [| | |inversion Hc]; discriminate.
Qed.

Lemma family_sentinelFree : sentinelFree family.
Proof.
  intros c Hc. unfold family in Hc.
  repeat (apply elem_of_cons in Hc as [->|Hc]); [| | |inversion Hc]; discriminate.
Qed.

Lemma rollupSeconds_acyclic_witness :
  exists d0, forall depth, (d0 <= depth)%nat ->
    exists rolled,
      rollupSeconds depth family familyDirect = Some rolled /\
      forall c, c ∈ family ->
        let id := Category.id c in
        let kids := childrenOf family id in
        rolled !! id = Some (plusRolled rolled kids (seconds_of familyDirect id)) /\
        (kids = [] -> rolled !! id = Some (seconds_of familyDirect id)) /\
        (forall c1 c2, kids = [c1; c2] ->
           rolled !! id = Some (seconds_of familyDirect id + seconds_of rolled c1
                                + seconds_of rolled c2)%Q).
Proof.
  exact (rollupSeconds_acyclic family familyDirect family_parent_links
           family_sentinelFree).
Defined.

(** The family above, run: 5 + 10 + 20 for the parent. *)
Example rollup_family :
  exists rolled, rollupSeconds 2 family familyDirect = Some rolled /\
    (seconds_of rolled "p" == 35)%Q /\ (seconds_of rolled "c1" == 10)%Q /\
    (seconds_of rolled "c2" == 20)%Q /\
    childrenOf family "p" = ["c1"; "c2"]%string.
Proof.
  eexists. split; [vm_compute; reflexivity|].
  repeat split; vm_compute; reflexivity.
Qed.

(** * The self-test of page.tsx, lines 237-257 *)

Example selftest_overlap :
  overlapMs 0 1000 500 1500 = 500 /\ overlapMs 0 1000 1000 2000 = 0.
Proof. split; reflexivity. Qed.

Example selftest_rollup :
  let direct := computeDirectSeconds 99999 selftest_sessions 0 60000 None in
  (seconds_of direct "c1" == 30)%Q /\
  (exists rolled, rollupSeconds 5 selftest_cats direct = Some rolled /\
                  (seconds_of rolled "p" == 30)%Q) /\
  isLeaf selftest_cats "c1" = true /\ isLeaf selftest_cats "p" = false.
Proof.
  split; [vm_compute; reflexivity|].
  split; [eexists; split; vm_compute; reflexivity|].
  split; reflexivity.
Qed.

(** * Further properties: overlap and direct seconds *)

(** X1. The overlap of two intervals is never negative, never longer than
    either interval, the same whichever interval comes first, and zero
    exactly when the intervals share no stretch. *)
Theorem overlapMs_bounds (aStart aEnd bStart bEnd : Z) :
  0 <= overlapMs aStart aEnd bStart bEnd /\
  overlapMs aStart aEnd bStart bEnd <= Z.max 0 (aEnd - aStart) /\
  overlapMs aStart aEnd bStart bEnd <= Z.max 0 (bEnd - bStart) /\
  overlapMs aStart aEnd bStart bEnd = overlapMs bStart bEnd aStart aEnd /\
  (overlapMs aStart aEnd bStart bEnd = 0 <->
   Z.min aEnd bEnd <= Z.max aStart bStart).
Proof. unfold overlapMs. repeat split; lia. Qed.

(** X2. Cutting a window in two at an instant inside it cuts the overlap in
    two: the parts add up to the whole. *)
Theorem overlapMs_split (aStart aEnd windowStart mid windowEnd : Z) :
  windowStart <= mid -> mid <= windowEnd ->
  overlapMs aStart aEnd windowStart windowEnd
  = overlapMs aStart aEnd windowStart mid + overlapMs aStart aEnd mid windowEnd.
Proof. unfold overlapMs. lia. Qed.

Lemma overlapMs_split_witness :
  overlapMs 0 10000 2000 9000
  = overlapMs 0 10000 2000 5000 + overlapMs 0 10000 5000 9000.
Proof. apply overlapMs_split; lia. Defined.


Lemma overlapMs_wider a b c d c' d' :
  c' <= c -> d <= d' -> overlapMs a b c d <= overlapMs a b c' d'.
Proof. unfold overlapMs. lia. Qed.


Lemma ms_seconds_le a b : a <= b -> (inject_Z a / 1000 <= inject_Z b / 1000)%Q.
Proof.
  intros H. apply Qmult_le_compat_r; [|discriminate].
  rewrite <- Zle_Qle. exact H.
Qed.


Lemma sessionSeconds_wider now ws we ws' we' c sessions :
  ws' <= ws -> we <= we' ->
  (sessionSeconds now ws we c sessions <= sessionSeconds now ws' we' c sessions)%Q.
Proof.
  intros H1 H2. unfold sessionSeconds.
  induction sessions as [|s l IH]; simpl; [apply Qle_refl|].
  destruct (String.eqb (Session.categoryId s) c); simpl; [|exact IH].
  apply Qplus_le_compat; [|exact IH].
  apply ms_seconds_le, overlapMs_wider; assumption.
Qed.



(** X4. A wider window never shows less: for every category the direct
    seconds grow, or stay, when the window's start moves back or its end
    moves on. *)
Theorem computeDirectSeconds_wider (now : Z) (sessions : list Session.t)
    (windowStart windowEnd windowStart' windowEnd' : Z)
    (goals : option (list Goal.t)) (c : string) :
  windowStart' <= windowStart -> windowEnd <= windowEnd' ->
  (seconds_of (computeDirectSeconds now sessions windowStart windowEnd goals) c
   <= seconds_of (computeDirectSeconds now sessions windowStart' windowEnd' goals) c)%Q.
Proof.
  intros H1 H2. rewrite !direct_seconds_formula.
  apply Qplus_le_compat; [|apply Qle_refl].
  apply sessionSeconds_wider; assumption.
Qed.

Lemma computeDirectSeconds_wider_witness :
  (seconds_of (computeDirectSeconds 9000 [sess "s1" "work" 1000 None] 2000 5000 None)
              "work"
   <= seconds_of (computeDirectSeconds 9000 [sess "s1" "work" 1000 None] 0 9000 None)
                 "work")%Q.
Proof. apply computeDirectSeconds_wider; lia. Defined.

(** * Further properties: the hierarchy index *)

Lemma pushChild_lookup map c p :
  pushChild map c !! p =
  if decide (parentKey c = p) then Some (kidsOf map p ++ [Category.id c])
  else map !! p.
Proof.
  unfold pushChild, kidsOf.
  destruct (decide (parentKey c = p)) as [<-|Hne].
  - rewrite lookup_insert_eq.
    destruct (map !! parentKey c) as [l|] eqn:E; simpl.
    + rewrite E. reflexivity.
    + rewrite lookup_insert_eq. reflexivity.
  - rewrite lookup_insert_ne by exact Hne.
    destruct (map !! parentKey c); [reflexivity|].
    rewrite lookup_insert_ne by exact Hne. reflexivity.
Qed.

Lemma fold_pushChild_lookup categories map p :
  fold_left pushChild categories map !! p =
  match List.filter (fun c => String.eqb (parentKey c) p) categories with
  | [] => map !! p
  | filed => Some (kidsOf map p ++ List.map Category.id filed)
  end.
Proof.
  revert map. induction categories as [|c l IH]; intros map; [reflexivity|].
  simpl fold_left. rewrite IH. simpl List.filter.
  rewrite eqb_decide, kidsOf_pushChild, pushChild_lookup.
  destruct (decide (parentKey c = p)) as [E|E].
  - destruct (List.filter _ l) as [|c' l'].
    + reflexivity.
    + simpl. rewrite <- app_assoc. reflexivity.
  - reflexivity.
Qed.

Lemma filter_nil_iff {A : Type} (P : A -> bool) (l : list A) :
  List.filter P l = [] <-> forall a, a ∈ l -> P a = false.
Proof.
  induction l as [|a l IH]; simpl.
  - split; [intros _ a Ha; inversion Ha|reflexivity].
  - destruct (P a) eqn:E.
    + split; [discriminate|]. intros H. specialize (H a ltac:(left)). congruence.
    + rewrite IH. split.
      * intros H b Hb. apply elem_of_cons in Hb as [->|Hb]; [exact E|by apply H].
      * intros H b Hb. apply H. by right.
Qed.

(** X5. The index [buildChildMap] builds has an entry for a key exactly when
    some category is filed under it (its parent id, or ["__root__"] for a
    root); the entry is never an empty list, and it lists the ids of those
    categories once each, in snapshot order. *)
Theorem buildChildMap_entries (categories : list Category.t) (key : string) :
  (buildChildMap categories !! key = None <->
   forall c, c ∈ categories -> parentKey c <> key) /\
  (forall kids, buildChildMap categories !! key = Some kids ->
     kids <> [] /\
     kids = map Category.id
                (List.filter (fun c => String.eqb (parentKey c) key) categories)).
Proof.
  unfold buildChildMap. rewrite fold_pushChild_lookup.
  destruct (List.filter (fun c => String.eqb (parentKey c) key) categories)
    as [|c l] eqn:E.
  - rewrite lookup_empty. split.
    + split; [|reflexivity]. intros _ c Hc.
      apply (proj1 (filter_nil_iff _ _) E) in Hc. by apply String.eqb_neq.
    + discriminate.
  - split.
    + split; [discriminate|]. intros H. exfalso.
      assert (In c (List.filter (fun c => String.eqb (parentKey c) key) categories))
        as Hc by (rewrite E; left; reflexivity).
      apply filter_In in Hc as [Hin Hk]. apply String.eqb_eq in Hk.
      apply (H c); [by apply list_elem_of_In|exact Hk].
    + intros kids [= <-]. unfold kidsOf. rewrite lookup_empty. simpl.
      split; [discriminate|reflexivity].
Qed.

Lemma childrenOf_visible categories id :
  childrenOf categories id = map Category.id (visibleCategories categories (Some id)).
Proof. reflexivity. Qed.

(** X6. [isLeaf] holds for an id exactly when its page of subcategories is
    empty, and, for an id other than the root key, exactly when the index
    files no children under it. *)
Theorem isLeaf_spec (categories : list Category.t) (id : string) :
  (isLeaf categories id = true <-> visibleCategories categories (Some id) = []) /\
  (id <> "__root__"%string ->
   (isLeaf categories id = true <-> kidsOf (buildChildMap categories) id = [])).
Proof.
  assert (isLeaf categories id = true <-> visibleCategories categories (Some id) = [])
    as Hvis.
  { unfold isLeaf, visibleCategories. rewrite negb_true_iff.
    induction categories as [|c l IH]; simpl; [tauto|].
    destruct (same (Category.parentId c) (Some id)); simpl; [|exact IH].
    split; discriminate. }
  split; [exact Hvis|]. intros Hid.
  rewrite Hvis, kidsOf_childrenOf by exact Hid. rewrite childrenOf_visible.
  split; [intros ->; reflexivity|].
  destruct (visibleCategories categories (Some id)); [reflexivity|discriminate].
Qed.

Lemma isLeaf_spec_witness :
  isLeaf family "c1" = true <-> kidsOf (buildChildMap family) "c1" = [].
Proof. apply (proj2 (isLeaf_spec family "c1")). discriminate. Defined.

Lemma idSet_fold_NoDup categories seen :
  NoDup seen ->
  NoDup (fold_left (fun seen c =>
                      if bool_decide (Category.id c ∈ seen) then seen
                      else seen ++ [Category.id c]) categories seen).
Proof.
  revert seen. induction categories as [|c l IH]; intros seen H; [exact H|].
  simpl. apply IH. destruct (bool_decide (Category.id c ∈ seen)) eqn:E; [exact H|].
  apply bool_decide_eq_false in E. apply NoDup_app. split; [exact H|].
  split; [|apply NoDup_singleton].
  intros x Hx Hx'. apply list_elem_of_singleton in Hx'. congruence.
Qed.

(** X7. The id set [rollupSeconds] walks holds every category id, each one
    once, and nothing else. *)
Theorem idSet_spec (categories : list Category.t) :
  NoDup (idSet categories) /\
  forall x, x ∈ idSet categories <->
            exists c, c ∈ categories /\ Category.id c = x.
Proof.
  split; [apply idSet_fold_NoDup, NoDup_nil_2|apply elem_of_idSet].
Qed.

(** * Further properties: rollup *)

Section RollupKeys.
Variable childMap : gmap string (list string).
Variable direct : gmap string Q.

Lemma sumKids_keys visit kids :
  (forall k memo memo' v, visit k memo = Some (memo', v) ->
                          keys_ok childMap k memo memo' /\ is_Some (memo' !! k)) ->
  forall p, (forall k, k ∈ kids -> k ∈ kidsOf childMap p) ->
  forall memo total memo' total',
    sumKids visit kids memo total = Some (memo', total') ->
    (forall y, is_Some (memo !! y) -> is_Some (memo' !! y)) /\
    (forall y, is_Some (memo' !! y) ->
               is_Some (memo !! y) \/ exists q, y ∈ kidsOf childMap q).
Proof.
  intros Hvisit p. induction kids as [|k rest IH]; intros Hp memo total memo' total'.
  - simpl. intros [= <- _]. split; auto.
  - simpl. destruct (visit k memo) as [[memo1 v]|] eqn:E; [|discriminate].
    intros Hrest. destruct (Hvisit _ _ _ _ E) as [[Hup Hnew] _].
    destruct (IH ltac:(intros; apply Hp; by right) _ _ _ _ Hrest) as [Hup' Hnew'].
    split; [auto|]. intros y Hy.
    destruct (Hnew' y Hy) as [Hy1|Hq]; [|by right].
    destruct (Hnew y Hy1) as [Hy0|[->|Hq]]; [by left| |by right].
    right. exists p. apply Hp. left.
Qed.

Lemma dfs_keys depth :
  forall id memo memo' v,
    dfs childMap direct depth id memo = Some (memo', v) ->
    keys_ok childMap id memo memo' /\ is_Some (memo' !! id).
Proof.
  induction depth as [|d IH]; intros id memo memo' v; simpl; [discriminate|].
  destruct (memo !! id) as [v0|] eqn:E.
  - intros [= <- _]. split; [split; auto|]. rewrite E. eauto.
  - destruct (sumKids (dfs childMap direct d) (kidsOf childMap id) memo
                      (seconds_of direct id)) as [[memo1 total]|] eqn:Ek;
      [|discriminate].
    intros [= <- _].
    destruct (sumKids_keys _ _ IH id (fun k H => H) _ _ _ _ Ek) as [Hup Hnew].
    split; [split|].
    + intros y Hy. apply lookup_insert_is_Some'. right. by apply Hup.
    + intros y Hy. apply lookup_insert_is_Some' in Hy as [<-|Hy]; [auto|].
      destruct (Hnew y Hy) as [Hy0|Hq]; auto.
    + rewrite lookup_insert_eq. eauto.
Qed.

Lemma forEachId_keys depth ids :
  forall memo memo',
    forEachId childMap direct depth ids memo = Some memo' ->
    (forall y, is_Some (memo !! y) -> is_Some (memo' !! y)) /\
    (forall y, y ∈ ids -> is_Some (memo' !! y)) /\
    (forall y, is_Some (memo' !! y) ->
               is_Some (memo !! y) \/ y ∈ ids \/ exists p, y ∈ kidsOf childMap p).
Proof.
  induction ids as [|id rest IH]; intros memo memo'; simpl.
  - intros [= <-]. split; [auto|]. split; [|auto]. intros y Hy. inversion Hy.
  - destruct (dfs childMap direct depth id memo) as [[memo1 v]|] eqn:E;
      [|discriminate].
    intros Hrest. destruct (dfs_keys _ _ _ _ _ E) as [[Hup Hnew] Hid].
    destruct (IH _ _ Hrest) as (Hup' & Hin' & Hnew').
    split; [auto|]. split.
    + intros y Hy. apply elem_of_cons in Hy as [->|Hy]; auto.
    + intros y Hy. destruct (Hnew' y Hy) as [Hy1|[Hy1|Hq]].
      * destruct (Hnew y Hy1) as [Hy0|[->|Hq]]; [by left| |by right; right].
        right. left. left.
      * right. left. by right.
      * by right; right.
Qed.

Hypothesis direct_nonneg : forall x v, direct !! x = Some v -> (0 <= v)%Q.

Lemma seconds_of_direct_nonneg x : (0 <= seconds_of direct x)%Q.
Proof.
  unfold seconds_of. destruct (direct !! x) as [v|] eqn:E; simpl.
  - exact (direct_nonneg _ _ E).
  - apply Qle_refl.
Qed.

Lemma sumKids_covers visit kids :
  (forall k memo memo' v, covers direct memo -> visit k memo = Some (memo', v) ->
                          covers direct memo' /\ (0 <= v)%Q) ->
  forall memo total memo' total',
    covers direct memo -> sumKids visit kids memo total = Some (memo', total') ->
    covers direct memo' /\ (total <= total')%Q.
Proof.
  intros Hvisit. induction kids as [|k rest IH]; intros memo total memo' total' Hc.
  - simpl. intros [= <- <-]. split; [exact Hc|apply Qle_refl].
  - simpl. destruct (visit k memo) as [[memo1 v]|] eqn:E; [|discriminate].
    intros Hrest. destruct (Hvisit _ _ _ _ Hc E) as [Hc1 Hv].
    destruct (IH _ _ _ _ Hc1 Hrest) as [Hc' Hle].
    split; [exact Hc'|]. eapply Qle_trans; [|exact Hle].
    rewrite <- (Qplus_0_r total) at 1. apply Qplus_le_compat; [apply Qle_refl|exact Hv].
Qed.

Lemma dfs_covers depth :
  forall id memo memo' v,
    covers direct memo -> dfs childMap direct depth id memo = Some (memo', v) ->
    covers direct memo' /\ (seconds_of direct id <= v)%Q.
Proof.
  induction depth as [|d IH]; intros id memo memo' v Hc; simpl; [discriminate|].
  destruct (memo !! id) as [v0|] eqn:E.
  - intros [= <- <-]. split; [exact Hc|exact (Hc _ _ E)].
  - destruct (sumKids (dfs childMap direct d) (kidsOf childMap id) memo
                      (seconds_of direct id)) as [[memo1 total]|] eqn:Ek;
      [|discriminate].
    intros [= <- <-].
    destruct (sumKids_covers (dfs childMap direct d) (kidsOf childMap id)) with
      (memo := memo) (total := seconds_of direct id) (memo' := memo1) (total' := total)
      as [Hc1 Hle]; [|exact Hc|exact Ek|].
    { intros k m m' w Hm Hk. destruct (IH _ _ _ _ Hm Hk) as [Hm' Hw].
      split; [exact Hm'|]. eapply Qle_trans; [apply seconds_of_direct_nonneg|exact Hw]. }
    split; [|exact Hle].
    intros x w. rewrite lookup_insert. destruct (decide (id = x)) as [<-|Hne].
    + intros [= <-]. exact Hle.
    + apply Hc1.
Qed.

Lemma forEachId_covers depth ids :
  forall memo memo',
    covers direct memo -> forEachId childMap direct depth ids memo = Some memo' ->
    covers direct memo'.
Proof.
  induction ids as [|id rest IH]; intros memo memo' Hc; simpl.
  - intros [= <-]. exact Hc.
  - destruct (dfs childMap direct depth id memo) as [[memo1 v]|] eqn:E;
      [|discriminate].
    intros Hrest. destruct (dfs_covers _ _ _ _ _ Hc E) as [Hc1 _].
    exact (IH _ _ Hc1 Hrest).
Qed.

End RollupKeys.

(** X8. Whenever [rollupSeconds] returns, the mapping has an entry for every
    category id and for nothing else: direct seconds recorded under an id
    that no category carries are dropped. *)
Theorem rollupSeconds_keys (depth : nat) (categories : list Category.t)
    (direct rolled : gmap string Q) :
  rollupSeconds depth categories direct = Some rolled ->
  forall x, is_Some (rolled !! x) <->
            exists c, c ∈ categories /\ Category.id c = x.
Proof.
  unfold rollupSeconds. intros H x.
  destruct (forEachId_keys _ _ _ _ _ _ H) as (_ & Hin & Hnew).
  split.
  - intros Hx. apply elem_of_idSet.
    destruct (Hnew x Hx) as [Hx0|[Hx0|[p Hp]]]; [|exact Hx0|].
    + rewrite lookup_empty in Hx0. by destruct Hx0.
    + eapply childOf_idSet. exact Hp.
  - intros Hc. apply Hin, elem_of_idSet, Hc.
Qed.

Lemma rollupSeconds_keys_witness :
  is_Some (familyRolled !! "ghost"%string)
  <-> exists c, c ∈ family /\ Category.id c = "ghost"%string.
Proof.
  apply (rollupSeconds_keys 2 family
           (<["ghost"%string := 7%Q]> familyDirect)).
  vm_compute. reflexivity.
Defined.

(** X9. Whenever [rollupSeconds] returns on direct seconds that are never
    negative, every rolled total is at least the direct seconds of its own
    category, and so never negative. *)
Theorem rollupSeconds_at_least_direct (depth : nat) (categories : list Category.t)
    (direct rolled : gmap string Q) :
  (forall x v, direct !! x = Some v -> (0 <= v)%Q) ->
  rollupSeconds depth categories direct = Some rolled ->
  forall x v, rolled !! x = Some v ->
              (seconds_of direct x <= v)%Q /\ (0 <= v)%Q.
Proof.
  intros Hd H x v Hx.
  assert (seconds_of direct x <= v)%Q as Hle.
  { eapply (forEachId_covers _ direct Hd); [|exact H|exact Hx].
    intros y w. rewrite lookup_empty. discriminate. }
  split; [exact Hle|].
  eapply Qle_trans; [apply (seconds_of_direct_nonneg direct Hd)|exact Hle].
Qed.

Lemma rollupSeconds_at_least_direct_witness :
  (seconds_of familyDirect "p" <= 35)%Q /\ (0 <= 35)%Q.
Proof.
  refine (rollupSeconds_at_least_direct 2 family familyDirect familyRolled
            _ _ "p"%string 35%Q _).
  - intros x v Hv. unfold familyDirect in Hv.
    repeat (apply lookup_insert_Some in Hv as [[_ <-]|[_ Hv]]; [discriminate|]).
    rewrite lookup_empty in Hv. discriminate.
  - vm_compute. reflexivity.
  - reflexivity.
Defined.




(** * Further properties: shares *)

(** X11. When no member of the visible list has a negative rolled total, the
    share of every member is a whole number from 0 to 100. *)
Theorem sharePct_range (visible : list Category.t) (rolledSeconds : gmap string Q)
    (c : Category.t) :
  (forall m, m ∈ visible -> (0 <= rolledOf rolledSeconds m)%Q) ->
  c ∈ visible ->
  0 <= sharePct visible rolledSeconds (Category.id c) <= 100.
Proof.
  intros Hpos Hc.
  destruct (member_le_total64 visible rolledSeconds c Hpos Hc) as [HT0 HrT].
  pose proof (binary64_nonneg _ (Hpos c Hc)) as Hr.
  set (T := grandTotalVisible64 visible rolledSeconds) in *.
  destruct (Qeq_bool T 0) eqn:E.
  { rewrite sharePct_formula. fold T. rewrite E. lia. }
  apply Qeq_bool_neq in E.
  assert (0 < T)%Q as HT.
  { destruct (Qlt_le_dec 0 T) as [H|H]; [exact H|]. exfalso. apply E.
    by apply Qle_antisym. }
  destruct (share_near64 visible rolledSeconds c Hpos Hc HT) as (-> & Y0 & YE).
  fold T in Y0, YE |- *.
  set (r := binary64 (rolledOf rolledSeconds c)) in *.
  set (y := binary64 (binary64 (r / T) * 100)) in *.
  assert (2 ^ (-45) == 1 # 35184372088832)%Q as P45 by reflexivity.
  rewrite P45 in YE. apply Qabs_Qle_condition in YE as [_ YE].
  assert (100 * r / T <= 100)%Q as Hx1.
  { apply Qle_shift_div_r; [exact HT|].
    apply Qmult_le_l; [reflexivity|exact HrT]. }
  unfold math_round. split.
  - change 0 with (Qfloor 0). apply Qfloor_resp_le. lra.
  - change 100 with (Qfloor (100 + (3 # 4))). apply Qfloor_resp_le. lra.
Qed.

Lemma sharePct_range_witness :
  0 <= sharePct thirds thirdsRolled (Category.id (cat "a" None None)) <= 100.
Proof.
  apply sharePct_range.
  - intros m Hm. unfold thirds in Hm.
    repeat (apply elem_of_cons in Hm as [->|Hm]); [| | |inversion Hm];
      vm_compute; discriminate.
  - left.
Defined.

(** * Further properties: goal sums and the editor *)

Lemma fold_left_cond_sum_acc {A : Type} (P : A -> bool) (f : A -> Z) (l : list A) :
  fold_left (fun sum c => if P c then sum + f c else sum) l 0
  = Zsum (map f (List.filter P l)).
Proof. rewrite fold_left_cond_sum. lia. Qed.

Lemma Zsum_app (l1 l2 : list Z) : Zsum (l1 ++ l2) = Zsum l1 + Zsum l2.
Proof. induction l1 as [|x l IH]; simpl; [reflexivity|]. rewrite IH. lia. Qed.

Lemma levelSum_spec categories level :
  levelSum categories level
  = Zsum (map (fun c => nullish (Category.goalPct c) 0) (siblingsAt categories level)).
Proof.
  unfold levelSum, siblingsAt.
  destruct level as [p|]; unfold computeChildGoalSum, computeRootGoalSum;
    rewrite fold_left_cond_sum_acc; reflexivity.
Qed.

Lemma adderSum_spec categories parentId goalPct :
  adderSum categories parentId goalPct
  = levelSum categories parentId + nullish goalPct 0.
Proof.
  rewrite levelSum_spec. unfold adderSum, siblingsAt.
  destruct parentId as [p|]; unfold computeChildGoalSum, computeRootGoalSum;
    rewrite fold_left_cond_sum_acc; simpl; reflexivity.
Qed.

(** X12. The sum checked before a category is added is the sum its level
    will hold once the category is in the list, wherever in the list it
    lands. *)
Theorem adderSum_predicts (before after : list Category.t) (c : Category.t)
    (goalPct : option Z) :
  nullish (Category.goalPct c) 0 = nullish goalPct 0 ->
  adderSum (before ++ after) (Category.parentId c) goalPct
  = levelSum (before ++ c :: after) (Category.parentId c).
Proof.
  intros Hg. rewrite adderSum_spec, !levelSum_spec. unfold siblingsAt.
  rewrite !List.filter_app, !map_app, !Zsum_app. simpl List.filter.
  rewrite (proj2 (same_true _ _) eq_refl). simpl. lia.
Qed.

Lemma adderSum_predicts_witness :
  adderSum ([cat "r1" None (Some 50)] ++ [cat "r2" None (Some 20)])
           (Category.parentId (cat "r3" None (Some 30))) (Some 30)
  = levelSum ([cat "r1" None (Some 50)] ++ cat "r3" None (Some 30)
                :: [cat "r2" None (Some 20)])
             (Category.parentId (cat "r3" None (Some 30))).
Proof. apply adderSum_predicts. reflexivity. Defined.

Lemma find_some_elem {A : Type} (P : A -> bool) (l : list A) a :
  List.find P l = Some a -> a ∈ l /\ P a = true.
Proof.
  intros H. apply find_some in H as [H1 H2]. split; [by apply list_elem_of_In|exact H2].
Qed.

Lemma goalOrUndefined_nullish goal : nullish (goalOrUndefined goal) 0 = goal.
Proof.
  unfold goalOrUndefined. destruct (goal =? 0) eqn:E; simpl; [|reflexivity].
  apply Z.eqb_eq in E. congruence.
Qed.

(** The level sum after every category called [id] got the goal [goal]. *)
Lemma levelSum_after_edit categories (update : Category.t -> Category.t) id goal level :
  (forall c, Category.parentId (update c) = Category.parentId c) ->
  (forall c, Category.id (update c) = Category.id c) ->
  (forall c, nullish (Category.goalPct (update c)) 0 = goal) ->
  levelSum (map (fun c => if same (Some (Category.id c)) (Some id) then update c else c)
                categories) level
  = Zsum (map (fun c => if same (Some id) (Some (Category.id c))
                        then goal else nullish (Category.goalPct c) 0)
              (siblingsAt categories level)).
Proof.
  intros Hp Hi Hg. rewrite levelSum_spec. unfold siblingsAt.
  induction categories as [|c l IH]; [reflexivity|].
  cbn [map List.filter].
  assert (Category.parentId
            (if same (Some (Category.id c)) (Some id) then update c else c)
          = Category.parentId c) as ->
    by (destruct (same (Some (Category.id c)) (Some id)); [apply Hp|reflexivity]).
  destruct (same (Category.parentId c) level); [|exact IH].
  cbn [map]. unfold Zsum in *. cbn [fold_right]. rewrite IH. f_equal.
  rewrite (same_sym (Some id)).
  destruct (same (Some (Category.id c)) (Some id)); [apply Hg|reflexivity].
Qed.

(** X13. When [saveEditor], for a user who is not signed in, saves an edit
    whose goal field holds decimal digits (at most fifteen, so that [Number]
    reads them exactly), the level of the edited category holds a goal sum of
    at most 100 afterwards, and the list keeps its ids and parent links in
    place: only name, goal, colour and icon of the edited id change. *)
Theorem saveEditorLocal_keeps_cap (trim : string -> string)
    (categories saved : list Category.t) (editingId : option string)
    (editName editGoal editColor editIcon : string) :
  (forall c, c ∈ categories -> Category.parentId c <> Some ""%string) ->
  allDigits editGoal = true -> (String.length editGoal <= 15)%nat ->
  saveEditorLocal trim categories editingId editName editGoal editColor editIcon
  = Some saved ->
  exists edited,
    getCategory categories editingId = Some edited /\
    levelSum saved (Category.parentId edited) <= 100 /\
    map Category.id saved = map Category.id categories /\
    map Category.parentId saved = map Category.parentId categories /\
    forall c, c ∈ saved -> Some (Category.id c) <> editingId -> c ∈ categories.
Proof.
  intros Hparents _ _. unfold saveEditorLocal, getCategory.
  destruct (negb (truthy_str editingId)) eqn:Et; [discriminate|].
  destruct (List.find _ categories) as [edited|] eqn:Ef; [|discriminate].
  destruct (String.eqb (trim editName) "") eqn:En; [discriminate|].
  set (goal := if String.eqb editGoal "" then 0 else Number editGoal).
  destruct (find_some_elem _ _ _ Ef) as [Hin Hid]. apply same_true in Hid.
  destruct editingId as [id|]; [|discriminate]. injection Hid as Hid.
  assert (id <> ""%string) as Hne by (intros ->; discriminate).
  set (sum := if truthy_str (Category.parentId edited) then _ else _).
  destruct (100 <? sum) eqn:Es; [discriminate|]. apply Z.ltb_ge in Es.
  intros [= <-]. exists edited. split; [reflexivity|].
  assert (sum = goalSum_spec categories (Category.parentId edited) (Some id) goal) as Hsum.
  { rewrite <- Hid. rewrite <- (editorSum_spec categories edited goal Hin);
      [|rewrite Hid; exact Hne|by apply Hparents].
    unfold sum, editorSum. rewrite Hid.
    destruct (Category.parentId edited) as [p|] eqn:Ep; [|reflexivity].
    simpl nullish. reflexivity. }
  split; [|split; [|split]].
  - rewrite (levelSum_after_edit categories _ id goal);
      [|reflexivity|reflexivity|intros; apply goalOrUndefined_nullish].
    rewrite Hsum in Es. unfold goalSum_spec in Es.
    assert (existsb (fun c => same (Some id) (Some (Category.id c)))
                    (siblingsAt categories (Category.parentId edited)) = true) as Hex.
    { apply existsb_elem. exists edited. split.
      - unfold siblingsAt. apply list_elem_of_In, filter_In.
        split; [by apply list_elem_of_In|by apply same_true].
      - apply same_true. congruence. }
    rewrite Hex in Es. lia.
  - rewrite map_map. apply map_ext. intros c.
    destruct (same (Some (Category.id c)) (Some id)); reflexivity.
  - rewrite map_map. apply map_ext. intros c.
    destruct (same (Some (Category.id c)) (Some id)); reflexivity.
  - intros c Hc Hcid. apply list_elem_of_fmap in Hc as [c0 [-> Hc0]].
    destruct (same (Some (Category.id c0)) (Some id)) eqn:E; [|exact Hc0].
    exfalso. apply Hcid. simpl. apply same_true in E. exact E.
Qed.

Lemma saveEditorLocal_keeps_cap_witness :
  exists edited,
    getCategory [cat "A" None (Some 60); cat "B" None (Some 40)] (Some "A"%string)
    = Some edited /\
    levelSum [Category.mk "A" "Alpha" "#112233" (Some 50) (Some "*"%string) None;
              cat "B" None (Some 40)] (Category.parentId edited) <= 100 /\
    map Category.id
        [Category.mk "A" "Alpha" "#112233" (Some 50) (Some "*"%string) None;
         cat "B" None (Some 40)]
    = map Category.id [cat "A" None (Some 60); cat "B" None (Some 40)] /\
    map Category.parentId
        [Category.mk "A" "Alpha" "#112233" (Some 50) (Some "*"%string) None;
         cat "B" None (Some 40)]
    = map Category.parentId [cat "A" None (Some 60); cat "B" None (Some 40)] /\
    forall c, c ∈ [Category.mk "A" "Alpha" "#112233" (Some 50) (Some "*"%string) None;
                   cat "B" None (Some 40)] ->
              Some (Category.id c) <> Some "A"%string ->
              c ∈ [cat "A" None (Some 60); cat "B" None (Some 40)].
Proof.
  apply (saveEditorLocal_keeps_cap (fun s => s)
           [cat "A" None (Some 60); cat "B" None (Some 40)] _
           (Some "A"%string) "Alpha" "50" "#112233" "*").
  - intros c Hc. repeat (apply elem_of_cons in Hc as [->|Hc]); [| |inversion Hc];
      discriminate.
  - reflexivity.
  - simpl. lia.
  - reflexivity.
Defined.

(** An edit that would push the level above 100 is not saved. *)
Example saveEditorLocal_refuses :
  saveEditorLocal (fun s => s) [cat "A" None (Some 60); cat "B" None (Some 40)]
                  (Some "A"%string) "Alpha" "70" "#112233" "*" = None.
Proof. reflexivity. Qed.

(** X14. At a child level a candidate whose id belongs to a category of the
    snapshot, but to none under that parent, changes nothing: the sum
    reported is the plain sum of the level, the candidate's value neither
    substituted nor added. *)
Theorem computeChildGoalSum_foreign_id (categories : list Category.t)
    (parentId id : string) (goal : option Z) :
  id <> ""%string ->
  id ∈ map Category.id categories ->
  id ∉ map Category.id (siblingsAt categories (Some parentId)) ->
  computeChildGoalSum categories parentId (Some (Override.mk (Some id) goal))
  = levelSum categories (Some parentId).
Proof.
  intros Hne Hin Hout. rewrite levelSum_spec. unfold computeChildGoalSum.
  rewrite fold_left_cond_sum. fold (siblingsAt categories (Some parentId)).
  assert (truthy_str (Some id) = true) as Ht by (destruct id; [congruence|reflexivity]).
  cbn [Override.id]. rewrite Ht. simpl negb. cbv iota.
  assert (existsb (fun c => same (Some (Category.id c)) (Some id)) categories = true)
    as ->.
  { apply existsb_elem. apply list_elem_of_fmap in Hin as [c [-> Hc]].
    exists c. split; [exact Hc|by apply same_true]. }
  simpl. rewrite Z.add_0_l. f_equal. apply map_ext_in. intros c Hc.
  unfold goalVal, overrides. cbn [Override.id].
  rewrite same_false; [reflexivity|].
  intros [= ->]. apply Hout. apply list_elem_of_fmap. exists c.
  split; [reflexivity|by apply list_elem_of_In].
Qed.

Lemma computeChildGoalSum_foreign_id_witness :
  computeChildGoalSum
    [cat "p" None None; cat "q" None None; cat "c1" (Some "p"%string) (Some 60);
     cat "x" (Some "q"%string) (Some 30)]
    "p" (Some (Override.mk (Some "x"%string) (Some 50)))
  = levelSum
      [cat "p" None None; cat "q" None None; cat "c1" (Some "p"%string) (Some 60);
       cat "x" (Some "q"%string) (Some 30)]
      (Some "p"%string).
Proof.
  apply computeChildGoalSum_foreign_id; [discriminate| |].
  - apply list_elem_of_In. simpl. tauto.
  - intros H. apply list_elem_of_In in H. vm_compute in H. intuition discriminate.
Defined.

(** * Further properties: percent input and labels *)

Lemma math_round_mono x y : (x <= y)%Q -> math_round x <= math_round y.
Proof. intros H. unfold math_round. apply Qfloor_resp_le. lra. Qed.

(** X15. [clampPercent] maps every finite number to a whole number from 0
    to 100, keeps the order of its arguments, and leaves its own results
    as they are. *)
Theorem clampPercent_spec (n m : Q) :
  (n <= m)%Q ->
  0 <= clampPercent n <= clampPercent m /\ clampPercent m <= 100 /\
  clampPercent (inject_Z (clampPercent n)) = clampPercent n.
Proof.
  intros H. apply math_round_mono in H. unfold clampPercent.
  rewrite math_round_Z. lia.
Qed.

Lemma clampPercent_spec_witness :
  0 <= clampPercent (-(7 # 2)) <= clampPercent (201 # 2) /\
  clampPercent (201 # 2) <= 100 /\
  clampPercent (inject_Z (clampPercent (-(7 # 2)))) = clampPercent (-(7 # 2)).
Proof. apply clampPercent_spec. discriminate. Defined.

Lemma clampPercent_range n : 0 <= clampPercent n <= 100.
Proof. unfold clampPercent. lia. Qed.

Lemma clampPercent_Z z : 0 <= z <= 100 -> clampPercent (inject_Z z) = z.
Proof. intros H. unfold clampPercent. rewrite math_round_Z. lia. Qed.

Lemma keepDigits_allDigits s : allDigits s = true -> keepDigits s = s.
Proof.
  induction s as [|a s IH]; [reflexivity|]. simpl.
  destruct (isDigit a); [|discriminate]. simpl. intros H. by rewrite IH.
Qed.

Lemma show_nonempty n : show n <> ""%string.
Proof.
  unfold show. destruct (Z.to_int n) as [d|d]; simpl.
  - unfold NilZero.string_of_uint. destruct d; discriminate.
  - discriminate.
Qed.

(** [Number(String(n))] is [n] for the whole numbers from 0 to 100. *)
Lemma Number_show n : 0 <= n <= 100 -> Number (show n) = n.
Proof.
  intros H.
  assert (forallb (fun k => Number (show (Z.of_nat k)) =? Z.of_nat k) (seq 0 101) = true)
    as Hall by (vm_compute; reflexivity).
  rewrite forallb_forall in Hall.
  specialize (Hall (Z.to_nat n)). rewrite Z2Nat.id in Hall by lia.
  apply Z.eqb_eq, Hall, in_seq. lia.
Qed.

Lemma sanitizeGoalInput_shape value :
  sanitizeGoalInput value = ""%string \/
  exists n, 0 <= n <= 100 /\ sanitizeGoalInput value = show n.
Proof.
  unfold sanitizeGoalInput. destruct (String.eqb (keepDigits value) ""); [by left|].
  right. eexists. split; [apply clampPercent_range|reflexivity].
Qed.

(** X16. [sanitizeGoalInput] returns the empty string or the decimal
    numeral of a whole number from 0 to 100; sanitising a second time
    changes nothing; and the number the goal forms read back from it lies
    between 0 and 100. *)
Theorem sanitizeGoalInput_spec (value : string) :
  (sanitizeGoalInput value = ""%string \/
   exists n, 0 <= n <= 100 /\ sanitizeGoalInput value = show n) /\
  sanitizeGoalInput (sanitizeGoalInput value) = sanitizeGoalInput value /\
  0 <= proposedGoal value <= 100.
Proof.
  split; [apply sanitizeGoalInput_shape|].
  destruct (sanitizeGoalInput_shape value) as [E|[n [Hn E]]].
  - split; [rewrite E; reflexivity|].
    unfold proposedGoal. rewrite E. unfold Number.
    destruct (String.eqb value ""); simpl; lia.
  - split.
    + rewrite E. unfold sanitizeGoalInput.
      rewrite keepDigits_allDigits by (apply allDigits_show; lia).
      destruct (String.eqb (show n) "") eqn:E0.
      * apply String.eqb_eq in E0. by apply show_nonempty in E0.
      * rewrite Number_show by exact Hn. rewrite clampPercent_Z by exact Hn. reflexivity.
    + unfold proposedGoal. rewrite E, Number_show by exact Hn.
      destruct (String.eqb value ""); lia.
Qed.

Lemma length_substring_0 n s :
  String.length (substring 0 n s) = Nat.min n (String.length s).
Proof.
  revert s. induction n as [|n IH]; intros [|a s]; simpl; try reflexivity.
  by rewrite IH.
Qed.

Lemma length_append s1 s2 :
  String.length (s1 +:+ s2) = (String.length s1 + String.length s2)%nat.
Proof. induction s1 as [|a s IH]; simpl; [reflexivity|]. by rewrite IH. Qed.

(** X17. With the default bound of 18, or any larger one, [truncateText]
    returns a label no longer than the bound, and a label it has returned
    passes through it unchanged. *)
Theorem truncateText_spec (text : string) (maxLength : option Z) :
  18 <= nullish maxLength 18 ->
  Z.of_nat (String.length (truncateText text maxLength)) <= nullish maxLength 18 /\
  truncateText (truncateText text maxLength) maxLength = truncateText text maxLength.
Proof.
  intros Hmax.
  assert (Z.of_nat (String.length (truncateText text maxLength))
          <= nullish maxLength 18) as Hlen.
  { unfold truncateText.
    destruct (Z.of_nat (String.length text) <=? nullish maxLength 18) eqn:E.
    - by apply Z.leb_le.
    - rewrite length_append, length_substring_0. simpl String.length. lia. }
  split; [exact Hlen|].
  unfold truncateText at 1. apply Z.leb_le in Hlen. by rewrite Hlen.
Qed.

Lemma truncateText_spec_witness :
  Z.of_nat (String.length (truncateText "Reading and correspondence" None))
  <= nullish None 18 /\
  truncateText (truncateText "Reading and correspondence" None) None
  = truncateText "Reading and correspondence" None.
Proof. apply truncateText_spec. simpl. lia. Defined.

(** Below 18 the bound is not kept: the cut is always at 16 characters. *)
Example truncateText_small_bound :
  truncateText "abcdefgh" (Some 5) = "abcdefgh.."%string.
Proof. reflexivity. Qed.

(** * Further properties: category lookup *)

(** X18. [getCategoryColor] gives the colour of the first category of the
    list that carries the id, and the grey [#6b7280] when no category
    carries it, or the id is empty or missing. *)
Theorem getCategoryColor_spec (categories : list Category.t) (id : option string) :
  (forall before c after,
     categories = before ++ c :: after ->
     Some (Category.id c) = id -> id <> Some ""%string ->
     (forall b, b ∈ before -> Some (Category.id b) <> id) ->
     getCategoryColor categories id = Category.color c) /\
  ((id = None \/ id = Some ""%string \/
    forall c, c ∈ categories -> Some (Category.id c) <> id) ->
   getCategoryColor categories id = "#6b7280"%string).
Proof.
  unfold getCategoryColor, getCategory. split.
  - intros before c after -> Hid Hne Hbefore.
    destruct id as [[|a i]|]; [congruence| |discriminate]. simpl negb. cbv iota.
    assert (List.find (fun c0 => same (Some (Category.id c0)) (Some (String a i)))
                      (before ++ c :: after) = Some c) as ->; [|reflexivity].
    induction before as [|b l IH]; simpl.
    + by rewrite (proj2 (same_true _ _) Hid).
    + rewrite same_false by (apply Hbefore; left).
      apply IH. intros x Hx. apply Hbefore. by right.
  - intros [->|[->|Hnone]]; [reflexivity|reflexivity|].
    destruct (negb (truthy_str id)); [reflexivity|].
    destruct (List.find _ categories) as [c|] eqn:E; [|reflexivity].
    apply find_some in E as [Hin Hc]. apply same_true in Hc.
    exfalso. eapply Hnone; [by apply list_elem_of_In|exact Hc].
Qed.

(** * Further properties: durations of a year and more *)

(** X19. For a duration of at least a year whose remainder holds at least
    one whole day, [formatHMS] returns three parts: the years, and the days
    twice. *)
Theorem formatHMS_years_and_days (seconds : Q) :
  YEAR <= Z.max 0 (Qfloor seconds) ->
  DAY <= Z.max 0 (Qfloor seconds) mod YEAR ->
  let '(years, days, _, _, _) := splitSeconds seconds in
  formatHMS seconds
  = (yrPart years +:+ " " +:+ dayPart days +:+ " " +:+ dayPart days)%string.
Proof.
  intros Hy Hd. rewrite formatHMS_parts. unfold splitSeconds. cbv zeta.
  set (s := Z.max 0 (Qfloor seconds)) in *.
  assert (1 <= s / YEAR) as Hy1
    by (unfold YEAR in *; Z.div_mod_to_equations; lia).
  assert (1 <= s mod YEAR / DAY) as Hd1
    by (unfold YEAR, DAY in *; Z.div_mod_to_equations; lia).
  set (years := s / YEAR) in *. set (days := s mod YEAR / DAY) in *.
  unfold firstParts, secondPart.
  destruct (Z.eqb_spec years 0) as [E|_]; [lia|].
  destruct (Z.eqb_spec days 0) as [E|_]; [lia|].
  cbn [negb app length Nat.eqb andb].
  assert (includes "yr" (yrPart years) = true) as Eyr.
  { unfold yrPart. rewrite includes_show by (reflexivity || lia).
    unfold suffix_s. destruct (years =? 1); reflexivity. }
  assert (includes "day" (yrPart years) = false) as Eday.
  { unfold yrPart. rewrite includes_show by (reflexivity || lia).
    unfold suffix_s. destruct (years =? 1); reflexivity. }
  unfold firstIncludes. rewrite Eyr, Eday. reflexivity.
Qed.

Lemma formatHMS_years_and_days_witness :
  formatHMS (inject_Z (400 * 24 * 3600))
  = (yrPart 1 +:+ " " +:+ dayPart 35 +:+ " " +:+ dayPart 35)%string.
Proof.
  apply (formatHMS_years_and_days (inject_Z (400 * 24 * 3600)));
    vm_compute; discriminate.
Defined.

(** * Further properties: stopping and starting timers *)

Lemma openCount_cons s l :
  openCount (s :: l)
  = ((match Session.end_ s with None => 1 | Some _ => 0 end) + openCount l)%nat.
Proof. unfold openCount. simpl. destruct (Session.end_ s); reflexivity. Qed.

Lemma openCount_app l1 l2 : openCount (l1 ++ l2) = (openCount l1 + openCount l2)%nat.
Proof. unfold openCount. by rewrite List.filter_app, length_app. Qed.

Lemma closeLastOpen_flag now l :
  snd (closeLastOpen now l) = (0 <? openCount l)%nat.
Proof.
  induction l as [|s l IH]; [reflexivity|]. simpl. rewrite openCount_cons.
  destruct (closeLastOpen now l) as [rest closed]. simpl in IH. subst closed.
  destruct (0 <? openCount l)%nat eqn:E; simpl.
  - apply Nat.ltb_lt in E. symmetry. apply Nat.ltb_lt. lia.
  - apply Nat.ltb_ge in E. destruct (Session.end_ s); simpl; [|reflexivity].
    symmetry. apply Nat.ltb_ge. lia.
Qed.

Lemma closeLastOpen_none now l :
  openCount l = 0%nat -> closeLastOpen now l = (l, false).
Proof.
  induction l as [|s l IH]; [reflexivity|]. rewrite openCount_cons. intros H.
  simpl. destruct (Session.end_ s) eqn:Es; [|lia].
  rewrite IH by (simpl in H; lia). reflexivity.
Qed.

(** The loop of [stopRunning] closes the last session without an end, and
    no other. *)
Lemma closeLastOpen_split now l :
  (0 < openCount l)%nat ->
  exists before s after,
    l = before ++ s :: after /\ Session.end_ s = None /\ openCount after = 0%nat /\
    fst (closeLastOpen now l) = before ++ withEnd s now :: after.
Proof.
  induction l as [|s l IH]; [unfold openCount; simpl; lia|].
  rewrite openCount_cons. intros H. simpl.
  destruct (Nat.eq_dec (openCount l) 0%nat) as [E|E].
  - rewrite (closeLastOpen_none now l E).
    destruct (Session.end_ s) eqn:Es; [lia|].
    exists [], s, l. simpl. by split_and!.
  - destruct (IH ltac:(lia)) as (before & s0 & after & Hl & H1 & H2 & H3).
    pose proof (closeLastOpen_flag now l) as Hflag.
    destruct (closeLastOpen now l) as [rest closed]. simpl in Hflag, H3. subst closed rest.
    assert ((0 <? openCount l)%nat = true) as -> by (apply Nat.ltb_lt; lia).
    exists (s :: before), s0, after. simpl. by rewrite Hl.
Qed.

Lemma find_running_open l :
  (0 < openCount l)%nat ->
  List.find (fun s => negb (truthy_num (Session.end_ s))) l <> None.
Proof.
  induction l as [|s l IH]; [unfold openCount; simpl; lia|].
  rewrite openCount_cons. simpl. destruct (Session.end_ s) as [e|] eqn:Es; simpl.
  - destruct (negb (negb (e =? 0))); [discriminate|exact IH].
  - discriminate.
Qed.

Lemma addSession_withEnd now ws we totals s :
  Session.end_ s = None ->
  addSession now ws we totals (withEnd s now) = addSession now ws we totals s.
Proof. intros E. unfold addSession, sessionMs, withEnd. simpl. by rewrite E. Qed.

(** X20. When a session without an end exists, [stopRunning], for a user
    who is not signed in, gives the end [now] to the last such session and
    changes no other; no category is active afterwards; and the direct
    seconds read at the instant [now] are what they were, for every window. *)
Theorem stopRunningLocal_spec (now : Z) (st : App.t) :
  (0 < openCount (App.sessions st))%nat ->
  (exists before s after,
     App.sessions st = before ++ s :: after /\ Session.end_ s = None /\
     openCount after = 0%nat /\
     App.sessions (stopRunningLocal now st) = before ++ withEnd s now :: after) /\
  S (openCount (App.sessions (stopRunningLocal now st))) = openCount (App.sessions st) /\
  App.activeId (stopRunningLocal now st) = None /\
  App.goals (stopRunningLocal now st) = App.goals st /\
  App.categories (stopRunningLocal now st) = App.categories st /\
  forall windowStart windowEnd goals,
    computeDirectSeconds now (App.sessions (stopRunningLocal now st))
                         windowStart windowEnd goals
    = computeDirectSeconds now (App.sessions st) windowStart windowEnd goals.
Proof.
  intros Hopen. unfold stopRunningLocal.
  pose proof (find_running_open _ Hopen) as Hfind.
  destruct (List.find _ (App.sessions st)) as [r|]; [clear Hfind|congruence].
  cbn [App.sessions App.activeId App.goals App.categories].
  destruct (closeLastOpen_split now _ Hopen) as (before & s & after & E1 & E2 & E3 & E4).
  split_and!; try reflexivity.
  - exists before, s, after. by split_and!.
  - rewrite E4, E1, !openCount_app, !openCount_cons, E2. simpl. lia.
  - intros ws we goals. unfold computeDirectSeconds.
    rewrite E4, E1, !fold_left_app. simpl fold_left.
    by rewrite addSession_withEnd.
Qed.

Lemma stopRunningLocal_spec_witness :
  S (openCount (App.sessions (stopRunningLocal 50000 desk))) = openCount (App.sessions desk)
  /\ App.activeId (stopRunningLocal 50000 desk) = None.
Proof.
  destruct (stopRunningLocal_spec 50000 desk) as (_ & H1 & H2 & _).
  - vm_compute. lia.
  - split; [exact H1|exact H2].
Defined.

Lemma or_zero_Some q : (or_zero (Some q) == q)%Q.
Proof.
  unfold or_zero. destruct (Qeq_bool q 0) eqn:E; [|reflexivity].
  apply Qeq_bool_eq in E. by rewrite E.
Qed.

Lemma stopGoal_total now now' g :
  truthy_bool (Goal.isActive g) = true ->
  (goalTotalSeconds now' (stopGoal now g) == goalTotalSeconds now g)%Q.
Proof.
  intros Ha. unfold goalTotalSeconds, currentElapsed.
  cbn [stopGoal Goal.isActive Goal.totalSeconds Goal.lastStartTime truthy_bool andb].
  rewrite Ha, or_zero_Some. cbn [andb]. ring.
Qed.

(** X21. Stopping a goal timer that is flagged active leaves the goal not
    active, with no resume instant, and its total seconds, read at any
    later instant, are the total it showed at the instant of the stop. *)
Theorem stopGoal_freezes (now now' : Z) (g : Goal.t) :
  truthy_bool (Goal.isActive g) = true ->
  (goalTotalSeconds now' (stopGoal now g) == goalTotalSeconds now g)%Q /\
  truthy_bool (Goal.isActive (stopGoal now g)) = false /\
  Goal.lastStartTime (stopGoal now g) = None /\
  Goal.id (stopGoal now g) = Goal.id g /\
  Goal.categoryId (stopGoal now g) = Goal.categoryId g /\
  Goal.completed (stopGoal now g) = Goal.completed g.
Proof. intros Ha. split; [by apply stopGoal_total|by split_and!]. Qed.

Lemma stopGoal_freezes_witness :
  Qeq (goalTotalSeconds 99000
         (stopGoal 28500 (goal "g1" "c1" (Some 12%Q) (Some true) (Some 20000))))
      (goalTotalSeconds 28500 (goal "g1" "c1" (Some 12%Q) (Some true) (Some 20000))).
Proof.
  apply (stopGoal_freezes 28500 99000
           (goal "g1" "c1" (Some 12%Q) (Some true) (Some 20000))).
  reflexivity.
Defined.

(** * Further properties: one timer at a time *)

Lemma Qltb_comp a b b' : (b == b')%Q -> Qltb a b = Qltb a b'.
Proof.
  intros H. destruct (Qltb a b') eqn:E.
  - apply Qltb_lt. apply Qltb_lt in E. by rewrite H.
  - apply Qltb_ge. apply Qltb_ge in E. by rewrite H.
Qed.

Lemma timerSeconds_map now now' c (f : Goal.t -> Goal.t) goals :
  (forall g, Goal.categoryId (f g) = Goal.categoryId g) ->
  (forall g, (timerTotal now' (f g) == timerTotal now g)%Q) ->
  (timerSeconds now' c (map f goals) == timerSeconds now c goals)%Q.
Proof.
  intros Hc Ht. unfold timerSeconds.
  induction goals as [|g l IH]; [reflexivity|]. cbn [map List.filter].
  rewrite Hc, (Qltb_comp 0 _ _ (Ht g)).
  destruct (String.eqb (Goal.categoryId g) c && Qltb 0 (timerTotal now g));
    [|exact IH].
  unfold Qsum in *. cbn [map fold_right]. by rewrite IH, Ht.
Qed.

Lemma activeCount_map_stop now (P : Goal.t -> bool) goals :
  (forall g, truthy_bool (Goal.isActive g) = true -> P g = true) ->
  activeCount (map (fun g => if P g then stopGoal now g else g) goals) = 0%nat.
Proof.
  intros HP. unfold activeCount. induction goals as [|g l IH]; [reflexivity|].
  cbn [map List.filter]. destruct (P g) eqn:E.
  - exact IH.
  - destruct (truthy_bool (Goal.isActive g)) eqn:Ea; [|exact IH].
    rewrite HP in E by exact Ea. discriminate.
Qed.

Lemma activeCount_map_le now (P : Goal.t -> bool) goals :
  (activeCount (map (fun g => if P g then stopGoal now g else g) goals)
   <= activeCount goals)%nat.
Proof.
  unfold activeCount. induction goals as [|g l IH]; [reflexivity|].
  cbn [map List.filter]. destruct (P g).
  - cbn [stopGoal Goal.isActive truthy_bool].
    destruct (truthy_bool (Goal.isActive g)); simpl; lia.
  - destruct (truthy_bool (Goal.isActive g)); simpl; lia.
Qed.

Lemma openCount_stopRunningLocal now st :
  openCount (App.sessions (stopRunningLocal now st))
  = Nat.pred (openCount (App.sessions st)).
Proof.
  destruct (Nat.eq_dec (openCount (App.sessions st)) 0%nat) as [E|E].
  - unfold stopRunningLocal. destruct (List.find _ _); [|by rewrite E].
    cbn [App.sessions]. rewrite closeLastOpen_none by exact E. simpl. by rewrite E.
  - unfold stopRunningLocal.
    pose proof (find_running_open (App.sessions st) ltac:(lia)) as Hf.
    destruct (List.find _ _); [|congruence]. cbn [App.sessions].
    destruct (closeLastOpen_split now (App.sessions st) ltac:(lia))
      as (before & s & after & E1 & E2 & E3 & E4).
    rewrite E4, E1, !openCount_app, !openCount_cons, E2. simpl. lia.
Qed.

Lemma sessions_stopRunningLocal_fold now st ws we totals :
  fold_left (addSession now ws we) (App.sessions (stopRunningLocal now st)) totals
  = fold_left (addSession now ws we) (App.sessions st) totals.
Proof.
  unfold stopRunningLocal. destruct (List.find _ _); [|reflexivity].
  cbn [App.sessions].
  destruct (Nat.eq_dec (openCount (App.sessions st)) 0%nat) as [E|E].
  - by rewrite closeLastOpen_none.
  - destruct (closeLastOpen_split now (App.sessions st) ltac:(lia))
      as (before & s & after & E1 & E2 & E3 & E4).
    rewrite E4, E1, !fold_left_app. simpl fold_left. by rewrite addSession_withEnd.
Qed.

Lemma goals_stopRunningLocal now st :
  App.goals (stopRunningLocal now st) = App.goals st.
Proof. unfold stopRunningLocal. by destruct (List.find _ _). Qed.

Lemma categories_stopRunningLocal now st :
  App.categories (stopRunningLocal now st) = App.categories st.
Proof. unfold stopRunningLocal. by destruct (List.find _ _). Qed.

Lemma direct_seconds_sessions now sessions sessions' ws we goals goals' c :
  (forall totals, fold_left (addSession now ws we) sessions' totals
                  = fold_left (addSession now ws we) sessions totals) ->
  (timerSeconds now c goals' == timerSeconds now c goals)%Q ->
  (seconds_of (computeDirectSeconds now sessions' ws we (Some goals')) c
   == seconds_of (computeDirectSeconds now sessions ws we (Some goals)) c)%Q.
Proof.
  intros Hs Hg. unfold computeDirectSeconds.
  rewrite !goals_fold_seconds, Hs, Hg. reflexivity.
Qed.

Lemma stopAllActiveTimersLocal_counts now st :
  activeCount (App.goals (stopAllActiveTimersLocal now st)) = 0%nat /\
  openCount (App.sessions (stopAllActiveTimersLocal now st))
  = Nat.pred (openCount (App.sessions st)).
Proof.
  unfold stopAllActiveTimersLocal. cbn [App.goals App.sessions]. split.
  - apply activeCount_map_stop. auto.
  - apply openCount_stopRunningLocal.
Qed.

(** X22. [stopAllActiveTimers], for a user who is not signed in, leaves no
    goal timer flagged active and one open session fewer (none, if there
    was at most one), and the direct seconds of every category, read at the
    instant of the stop, are what they were before it. *)
Theorem stopAllActiveTimersLocal_conserves (now : Z) (st : App.t)
    (windowStart windowEnd : Z) (c : string) :
  activeCount (App.goals (stopAllActiveTimersLocal now st)) = 0%nat /\
  openCount (App.sessions (stopAllActiveTimersLocal now st))
  = Nat.pred (openCount (App.sessions st)) /\
  (seconds_of (computeDirectSeconds now (App.sessions (stopAllActiveTimersLocal now st))
                 windowStart windowEnd
                 (Some (App.goals (stopAllActiveTimersLocal now st)))) c
   == seconds_of (computeDirectSeconds now (App.sessions st) windowStart windowEnd
                    (Some (App.goals st))) c)%Q.
Proof.
  destruct (stopAllActiveTimersLocal_counts now st) as [Ha Ho].
  split; [exact Ha|]. split; [exact Ho|].
  unfold stopAllActiveTimersLocal. cbn [App.goals App.sessions].
  apply direct_seconds_sessions.
  - intros totals. apply sessions_stopRunningLocal_fold.
  - rewrite goals_stopRunningLocal. apply timerSeconds_map.
    + intros g. by destruct (truthy_bool (Goal.isActive g)).
    + intros g. rewrite <- !goalTotalSeconds_timerTotal.
      destruct (truthy_bool (Goal.isActive g)) eqn:E; [|reflexivity].
      by apply stopGoal_total.
Qed.

Lemma addSession_closed now now' ws we totals s :
  Session.end_ s <> None ->
  addSession now' ws we totals s = addSession now ws we totals s.
Proof.
  intros E. unfold addSession, sessionMs. by destruct (Session.end_ s).
Qed.

Lemma fold_addSession_closed now now' ws we sessions totals :
  openCount sessions = 0%nat ->
  fold_left (addSession now' ws we) sessions totals
  = fold_left (addSession now ws we) sessions totals.
Proof.
  revert totals. induction sessions as [|s l IH]; intros totals; [reflexivity|].
  rewrite openCount_cons. intros H. simpl.
  rewrite (addSession_closed now now') by (destruct (Session.end_ s); [discriminate|lia]).
  apply IH. lia.
Qed.

Lemma timerTotal_idle now now' g :
  truthy_bool (Goal.isActive g) = false -> timerTotal now' g = timerTotal now g.
Proof. intros E. unfold timerTotal, timerRunning. by rewrite E. Qed.

Lemma timerSeconds_idle now now' c goals :
  activeCount goals = 0%nat -> timerSeconds now' c goals = timerSeconds now c goals.
Proof.
  unfold activeCount, timerSeconds. induction goals as [|g l IH]; [reflexivity|].
  cbn [List.filter]. destruct (truthy_bool (Goal.isActive g)) eqn:E;
    [intros H; cbn [length] in H; discriminate H|].
  intros H. rewrite (timerTotal_idle now now' g E).
  destruct (String.eqb (Goal.categoryId g) c && Qltb 0 (timerTotal now g)).
  - unfold Qsum in *. cbn [map fold_right].
    rewrite (IH H), (timerTotal_idle now now' g E). reflexivity.
  - by apply IH.
Qed.

(** X23. With at most one session open beforehand, the state
    [stopAllActiveTimers] leaves is at rest: for a fixed window its direct
    seconds no longer depend on the instant at which they are read. *)
Theorem stopAllActiveTimersLocal_at_rest (now now' now'' : Z) (st : App.t)
    (windowStart windowEnd : Z) (c : string) :
  (openCount (App.sessions st) <= 1)%nat ->
  (seconds_of (computeDirectSeconds now' (App.sessions (stopAllActiveTimersLocal now st))
                 windowStart windowEnd
                 (Some (App.goals (stopAllActiveTimersLocal now st)))) c
   == seconds_of (computeDirectSeconds now'' (App.sessions (stopAllActiveTimersLocal now st))
                    windowStart windowEnd
                    (Some (App.goals (stopAllActiveTimersLocal now st)))) c)%Q.
Proof.
  intros Hopen.
  destruct (stopAllActiveTimersLocal_counts now st) as [Ha Ho].
  unfold computeDirectSeconds. rewrite !goals_fold_seconds.
  rewrite (fold_addSession_closed now'' now') by lia.
  by rewrite (timerSeconds_idle now'' now').
Qed.

Lemma stopAllActiveTimersLocal_at_rest_witness :
  Qeq (seconds_of (computeDirectSeconds 60000
                     (App.sessions (stopAllActiveTimersLocal 50000 desk)) 0 90000
                     (Some (App.goals (stopAllActiveTimersLocal 50000 desk)))) "c1")
      (seconds_of (computeDirectSeconds 80000
                     (App.sessions (stopAllActiveTimersLocal 50000 desk)) 0 90000
                     (Some (App.goals (stopAllActiveTimersLocal 50000 desk)))) "c1").
Proof. apply stopAllActiveTimersLocal_at_rest. vm_compute. lia. Defined.

Lemma runningCount_startCategoryLocal now newId id st :
  (openCount (App.sessions st) <= 1)%nat ->
  runningCount (startCategoryLocal now newId id st) = 1%nat.
Proof.
  intros Hopen. destruct (stopAllActiveTimersLocal_counts now st) as [Ha Ho].
  unfold runningCount, startCategoryLocal. cbn [App.sessions App.goals].
  rewrite openCount_app, Ha, Ho. unfold openCount at 2. simpl. lia.
Qed.

(** X24. With at most one session open beforehand, [startCategory], for a
    user who is not signed in, leaves exactly one timer running: the new
    session of the category, open from [now], last in the list; no goal
    timer is flagged active, and the category is the active one. *)
Theorem startCategoryLocal_single (now : Z) (newId id : string) (st : App.t) :
  (openCount (App.sessions st) <= 1)%nat ->
  runningCount (startCategoryLocal now newId id st) = 1%nat /\
  activeCount (App.goals (startCategoryLocal now newId id st)) = 0%nat /\
  App.activeId (startCategoryLocal now newId id st) = Some id /\
  exists before,
    App.sessions (startCategoryLocal now newId id st)
    = before ++ [Session.mk newId id now None] /\
    openCount before = 0%nat /\
    map Session.id before = map Session.id (App.sessions st).
Proof.
  intros Hopen. destruct (stopAllActiveTimersLocal_counts now st) as [Ha Ho].
  split; [by apply runningCount_startCategoryLocal|].
  unfold startCategoryLocal. cbn [App.sessions App.goals App.activeId].
  split_and!; [exact Ha|reflexivity|].
  eexists. split; [reflexivity|]. split; [lia|].
  unfold stopAllActiveTimersLocal, stopRunningLocal. cbn [App.sessions].
  destruct (List.find _ _); [|reflexivity]. cbn [App.sessions].
  destruct (Nat.eq_dec (openCount (App.sessions st)) 0%nat) as [E|E].
  - by rewrite closeLastOpen_none.
  - destruct (closeLastOpen_split now (App.sessions st) ltac:(lia))
      as (before & s & after & E1 & E2 & E3 & E4).
    rewrite E4, E1, !map_app. reflexivity.
Qed.

Lemma startCategoryLocal_single_witness :
  runningCount (startCategoryLocal 50000 "s3" "p" desk) = 1%nat /\
  App.activeId (startCategoryLocal 50000 "s3" "p" desk) = Some "p"%string.
Proof.
  destruct (startCategoryLocal_single 50000 "s3" "p" desk) as (H1 & _ & H2 & _).
  - vm_compute. lia.
  - split; [exact H1|exact H2].
Defined.

Lemma activeCount_start now id goals :
  NoDup (map Goal.id goals) -> activeCount goals = 0%nat ->
  activeCount (map (fun g => if String.eqb (Goal.id g) id then startGoal now g else g)
                   goals)
  = if existsb (fun g => String.eqb (Goal.id g) id) goals then 1%nat else 0%nat.
Proof.
  unfold activeCount. induction goals as [|g l IH]; [reflexivity|].
  cbn [map List.filter existsb]. intros Hnd. apply NoDup_cons in Hnd as [Hg Hnd].
  destruct (truthy_bool (Goal.isActive g)) eqn:Ea;
    [intros H; cbn [length] in H; discriminate H|].
  intros H. specialize (IH Hnd H).
  destruct (String.eqb (Goal.id g) id) eqn:E.
  - apply String.eqb_eq in E. cbn [startGoal Goal.isActive truthy_bool orb length].
    rewrite IH.
    assert (existsb (fun g0 => String.eqb (Goal.id g0) id) l = false) as ->;
      [|reflexivity].
    destruct (existsb _ l) eqn:Ex; [|reflexivity]. exfalso.
    apply existsb_exists in Ex as [g0 [Hin E0]]. apply String.eqb_eq in E0.
    apply Hg. apply list_elem_of_fmap. exists g0.
    split; [congruence|by apply list_elem_of_In].
  - rewrite Ea. simpl. exact IH.
Qed.

Lemma map_id_stop now (P : Goal.t -> bool) goals :
  map Goal.id (map (fun g => if P g then stopGoal now g else g) goals)
  = map Goal.id goals.
Proof. rewrite map_map. apply map_ext. intros g. by destruct (P g). Qed.

Lemma existsb_map {A B : Type} (f : A -> B) (P : B -> bool) (l : list A) :
  existsb P (map f l) = existsb (fun a => P (f a)) l.
Proof. induction l as [|a l IH]; simpl; [reflexivity|]. by rewrite IH. Qed.

(** X25. For a goal of the list that is not completed, with goal ids
    distinct and at most one session open beforehand, [toggleGoalTimer], for
    a user who is not signed in, leaves exactly one timer running: no
    session is open, and the goals flagged active are those carrying the
    id, resumed at [now]. *)
Theorem toggleGoalTimerLocal_single (now : Z) (id : string) (st : App.t) (g : Goal.t) :
  NoDup (map Goal.id (App.goals st)) ->
  (openCount (App.sessions st) <= 1)%nat ->
  g ∈ App.goals st -> Goal.id g = id -> truthy_bool (Goal.completed g) = false ->
  runningCount (toggleGoalTimerLocal now id st) = 1%nat /\
  openCount (App.sessions (toggleGoalTimerLocal now id st)) = 0%nat /\
  forall g', g' ∈ App.goals (toggleGoalTimerLocal now id st) ->
             (truthy_bool (Goal.isActive g') = true <-> Goal.id g' = id) /\
             (Goal.id g' = id -> Goal.lastStartTime g' = Some now).
Proof.
  intros Hnd Hopen Hin Hid Hdone. unfold toggleGoalTimerLocal.
  assert (List.find (fun g0 => String.eqb (Goal.id g0) id) (App.goals st) = Some g)
    as ->.
  { clear Hopen. induction (App.goals st) as [|x l IH]; [inversion Hin|].
    simpl in Hnd. apply NoDup_cons in Hnd as [Hx Hnd]. simpl.
    apply elem_of_cons in Hin as [->|Hin].
    - by rewrite (proj2 (String.eqb_eq _ _) Hid).
    - destruct (String.eqb (Goal.id x) id) eqn:E; [|by apply IH].
      apply String.eqb_eq in E. exfalso. apply Hx. apply list_elem_of_fmap.
      exists g. split; [congruence|exact Hin]. }
  rewrite Hdone. destruct (stopAllActiveTimersLocal_counts now st) as [Ha Ho].
  unfold runningCount. cbn [App.sessions App.goals].
  assert (NoDup (map Goal.id (App.goals (stopAllActiveTimersLocal now st)))) as Hnd'.
  { unfold stopAllActiveTimersLocal. cbn [App.goals].
    rewrite map_id_stop, goals_stopRunningLocal. exact Hnd. }
  assert (existsb (fun g0 => String.eqb (Goal.id g0) id)
                  (App.goals (stopAllActiveTimersLocal now st)) = true) as Hex.
  { unfold stopAllActiveTimersLocal. cbn [App.goals]. rewrite goals_stopRunningLocal.
    rewrite existsb_map. apply existsb_exists. exists g.
    split; [by apply list_elem_of_In|].
    destruct (truthy_bool (Goal.isActive g)); by apply String.eqb_eq. }
  rewrite (activeCount_start now id _ Hnd' Ha), Hex, Ho.
  split; [lia|]. split; [lia|].
  intros g' Hg'. apply list_elem_of_fmap in Hg' as [g0 [-> Hg0]].
  destruct (String.eqb (Goal.id g0) id) eqn:E.
  - apply String.eqb_eq in E. cbn [startGoal Goal.isActive Goal.id Goal.lastStartTime].
    split; [split; [intros _; exact E|reflexivity]|reflexivity].
  - apply String.eqb_neq in E.
    assert (truthy_bool (Goal.isActive g0) = false) as Hidle.
    { destruct (truthy_bool (Goal.isActive g0)) eqn:Ea; [|reflexivity].
      exfalso. unfold activeCount in Ha.
      assert (In g0 (List.filter (fun g => truthy_bool (Goal.isActive g))
                                 (App.goals (stopAllActiveTimersLocal now st)))) as Hf
        by (apply filter_In; split; [by apply list_elem_of_In|exact Ea]).
      destruct (List.filter _ _); [inversion Hf|discriminate Ha]. }
    split; [split; [congruence|contradiction]|contradiction].
Qed.

Lemma toggleGoalTimerLocal_single_witness :
  runningCount (toggleGoalTimerLocal 50000 "g1" desk) = 1%nat /\
  openCount (App.sessions (toggleGoalTimerLocal 50000 "g1" desk)) = 0%nat.
Proof.
  destruct (toggleGoalTimerLocal_single 50000 "g1" desk
              (goal "g1" "c1" (Some 12%Q) (Some false) None)) as (H1 & H2 & _).
  - apply NoDup_cons. split; [apply not_elem_of_nil|apply NoDup_nil_2].
  - vm_compute. lia.
  - left.
  - reflexivity.
  - reflexivity.
  - split; [exact H1|exact H2].
Defined.

(** X26. [toggleCategory], for a user who is not signed in, never leaves
    more than one timer running when at most one was running before:
    sessions without an end and goal timers flagged active, counted
    together. *)
Theorem toggleCategoryLocal_one_timer (now : Z) (newId id : string) (st : App.t) :
  (runningCount st <= 1)%nat ->
  (runningCount (toggleCategoryLocal now newId id st) <= 1)%nat.
Proof.
  unfold runningCount at 1. intros H. unfold toggleCategoryLocal.
  destruct (same (App.activeId st) (Some id)).
  - unfold runningCount.
    rewrite openCount_stopRunningLocal, goals_stopRunningLocal. lia.
  - destruct (isCategoryHighlighted st id).
    + unfold runningCount, stopActiveGoalsUnderLocal. cbn [App.sessions App.goals].
      pose proof (activeCount_map_le now
                    (fun g => existsb (fun ag => String.eqb (Goal.id ag) (Goal.id g))
                                (List.filter
                                   (activeUnder
                                      (relatedIds
                                         (App.categories (stopRunningLocal now st)) id))
                                   (App.goals (stopRunningLocal now st))))
                    (App.goals (stopRunningLocal now st))) as Hle.
      rewrite goals_stopRunningLocal in *. rewrite openCount_stopRunningLocal. lia.
    + rewrite runningCount_startCategoryLocal; lia.
Qed.

Lemma toggleCategoryLocal_one_timer_witness :
  (runningCount (toggleCategoryLocal 50000 "s3" "p" deskGoal) <= 1)%nat.
Proof. apply toggleCategoryLocal_one_timer. vm_compute. lia. Defined.

Lemma activeId_stopRunningLocal now st :
  (App.activeId st <> None -> (0 < openCount (App.sessions st))%nat) ->
  App.activeId (stopRunningLocal now st) = None.
Proof.
  intros H. unfold stopRunningLocal.
  destruct (List.find _ (App.sessions st)) eqn:E; [reflexivity|].
  destruct (App.activeId st) as [a|] eqn:Ea; [|reflexivity].
  exfalso. by apply (find_running_open (App.sessions st)); [apply H|].
Qed.

Lemma no_active_none related goals :
  activeCount goals = 0%nat -> existsb (activeUnder related) goals = false.
Proof.
  unfold activeCount, activeUnder. induction goals as [|g l IH]; [reflexivity|].
  cbn [List.filter existsb]. destruct (truthy_bool (Goal.isActive g));
    [intros H; cbn [length] in H; discriminate H|]. exact IH.
Qed.

Lemma highlight_cleared st id :
  App.activeId st = None ->
  existsb (activeUnder (relatedIds (App.categories st) id)) (App.goals st) = false ->
  isCategoryHighlighted st id = false.
Proof.
  intros Ha Hg. unfold isCategoryHighlighted. rewrite Ha, Hg.
  rewrite same_false by discriminate.
  assert (existsb (fun c => same (Category.parentId c) (Some id)
                            && same None (Some (Category.id c)))
                  (App.categories st) = false) as ->; [|reflexivity].
  clear Hg. induction (App.categories st) as [|c l IH]; [reflexivity|]. simpl.
  rewrite (same_false None) by discriminate. rewrite andb_false_r. exact IH.
Qed.

Lemma stopActiveGoalsUnder_none now related goals :
  existsb (activeUnder related)
    (map (fun g => if existsb (fun ag => String.eqb (Goal.id ag) (Goal.id g))
                              (List.filter (activeUnder related) goals)
                   then stopGoal now g else g)
         goals) = false.
Proof.
  rewrite existsb_map.
  destruct (existsb _ goals) eqn:E; [|reflexivity]. exfalso.
  apply existsb_exists in E as [g [Hin Hg]].
  destruct (existsb (fun ag => String.eqb (Goal.id ag) (Goal.id g))
                    (List.filter (activeUnder related) goals)) eqn:Em.
  - unfold activeUnder in Hg. simpl in Hg. discriminate.
  - assert (existsb (fun ag => String.eqb (Goal.id ag) (Goal.id g))
                    (List.filter (activeUnder related) goals) = true) as Hm; [|congruence].
    apply existsb_exists. exists g. split; [|apply String.eqb_refl].
    apply filter_In. split; [exact Hin|exact Hg].
Qed.

(** X27. A click on a category flips its highlight. When every active
    category has an open session behind it and at most one timer runs,
    [toggleCategory], for a user who is not signed in, leaves a category
    that was highlighted not highlighted, and one that was not,
    highlighted. *)
Theorem toggleCategoryLocal_flips_highlight (now : Z) (newId id : string)
    (st : App.t) :
  (App.activeId st <> None -> (0 < openCount (App.sessions st))%nat) ->
  (runningCount st <= 1)%nat ->
  isCategoryHighlighted (toggleCategoryLocal now newId id st) id
  = negb (isCategoryHighlighted st id).
Proof.
  intros Hact Hone. unfold toggleCategoryLocal.
  destruct (same (App.activeId st) (Some id)) eqn:Eid.
  - assert (isCategoryHighlighted st id = true) as ->
      by (unfold isCategoryHighlighted; by rewrite Eid).
    apply same_true in Eid. simpl negb.
    apply highlight_cleared; [by apply activeId_stopRunningLocal|].
    rewrite goals_stopRunningLocal. apply no_active_none.
    assert (0 < openCount (App.sessions st))%nat by (apply Hact; congruence).
    unfold runningCount in Hone. lia.
  - destruct (isCategoryHighlighted st id) eqn:Eh; simpl negb.
    + apply highlight_cleared.
      * unfold stopActiveGoalsUnderLocal. cbn [App.activeId].
        by apply activeId_stopRunningLocal.
      * unfold stopActiveGoalsUnderLocal. cbn [App.categories App.goals].
        apply stopActiveGoalsUnder_none.
    + unfold isCategoryHighlighted, startCategoryLocal. cbn [App.activeId].
      by rewrite (proj2 (same_true _ _) eq_refl).
Qed.

Lemma toggleCategoryLocal_flips_highlight_witness :
  isCategoryHighlighted (toggleCategoryLocal 50000 "s3" "p" desk) "p"
  = negb (isCategoryHighlighted desk "p").
Proof.
  apply toggleCategoryLocal_flips_highlight; [intros _|]; vm_compute; lia.
Defined.

(** * Further properties: completing a goal, going back *)

(** X28. [toggleGoalCompletion], for a user who is not signed in, flips the
    completed flag of the goals carrying the id and clears their active
    flag without adding the stretch that was running: their total seconds
    fall by the elapsed seconds they showed. Other goals, the sessions and
    the active category stay as they are. *)
Theorem toggleGoalCompletionLocal_drops_stretch (now : Z) (id : string) (st : App.t) :
  Forall2 (fun g g' =>
             if String.eqb (Goal.id g) id
             then Goal.id g' = Goal.id g /\
                  truthy_bool (Goal.completed g') = negb (truthy_bool (Goal.completed g)) /\
                  truthy_bool (Goal.isActive g') = false /\
                  (goalTotalSeconds now g'
                   == goalTotalSeconds now g - inject_Z (currentElapsed now g))%Q
             else g' = g)
          (App.goals st) (App.goals (toggleGoalCompletionLocal id st)) /\
  App.sessions (toggleGoalCompletionLocal id st) = App.sessions st /\
  App.activeId (toggleGoalCompletionLocal id st) = App.activeId st.
Proof.
  unfold toggleGoalCompletionLocal.
  destruct (List.find _ (App.goals st)) as [g0|] eqn:Ef.
  - cbn [App.goals App.sessions App.activeId]. split; [|split; reflexivity].
    clear Ef. induction (App.goals st) as [|g l IH]; [constructor|].
    cbn [map]. constructor; [|exact IH].
    destruct (String.eqb (Goal.id g) id); [|reflexivity].
    split_and!; [reflexivity| |reflexivity|].
    + cbn [flipCompleted Goal.completed].
      by destruct (truthy_bool (Goal.completed g)).
    + unfold goalTotalSeconds, currentElapsed.
      cbn [flipCompleted Goal.isActive Goal.totalSeconds Goal.lastStartTime
           truthy_bool andb].
      change (inject_Z 0) with 0%Q. ring.
  - split; [|split; reflexivity].
    assert (forall g, In g (App.goals st) -> String.eqb (Goal.id g) id = false) as Hno
      by (intros g Hg; exact (find_none _ _ Ef g Hg)).
    induction (App.goals st) as [|g l IH]; [constructor|].
    constructor.
    + rewrite Hno by (by left). reflexivity.
    + apply IH; [|intros x Hx; apply Hno; by right].
      simpl in Ef. rewrite Hno in Ef by (by left). exact Ef.
Qed.

(** A goal with 12 stored seconds whose timer has run 8 more shows 20; once
    completed it shows 12. *)
Example toggleGoalCompletionLocal_loses_8 :
  Forall2 Qeq (map (goalTotalSeconds 28000) (App.goals deskGoal)) [20%Q; 0%Q] /\
  Forall2 Qeq (map (goalTotalSeconds 28000)
                   (App.goals (toggleGoalCompletionLocal "g1" deskGoal)))
              [12%Q; 0%Q].
Proof. split; repeat constructor. Qed.

Lemma goBack_root_iter categories n : Nat.iter n (goBack categories) None = None.
Proof. induction n as [|n IH]; [reflexivity|]. simpl. by rewrite IH. Qed.

Lemma goBack_step categories level q :
  goBack categories level = Some q ->
  exists p c, level = Some p /\ c ∈ categories /\ Category.id c = p /\
              Category.parentId c = Some q.
Proof.
  unfold goBack. destruct level as [p|]; [|discriminate].
  destruct (List.find _ categories) as [c|] eqn:E; [|discriminate].
  intros Hq. apply find_some in E as [Hin Hid]. apply same_true in Hid.
  exists p, c. split_and!; [reflexivity|by apply list_elem_of_In|congruence|exact Hq].
Qed.

(** The levels passed on the way up are ids of the list, all different. *)
Lemma goBack_chain categories :
  (forall x, ~ tc (parentLink categories) x x) ->
  forall k level q,
    Nat.iter k (goBack categories) level = Some q ->
    exists l, length l = k /\ NoDup l /\
              (forall x, x ∈ l -> x ∈ map Category.id categories) /\
              (forall x, x ∈ l -> tc (parentLink categories) q x).
Proof.
  intros Hac. induction k as [|k IH]; intros level q Hq.
  - exists []. split_and!; [reflexivity|constructor| |]; intros x Hx; inversion Hx.
  - simpl in Hq. apply goBack_step in Hq as (p & c & Hp & Hin & Hid & Hpar).
    destruct (IH level p Hp) as (l & Hlen & Hnd & Hids & Htc).
    assert (parentLink categories q p) as Hlink by (exists c; by split_and!).
    exists (p :: l). split_and!.
    + simpl. by rewrite Hlen.
    + constructor; [|exact Hnd]. intros Hpl. exact (Hac p (Htc p Hpl)).
    + intros x Hx. apply elem_of_cons in Hx as [->|Hx]; [|by apply Hids].
      apply list_elem_of_fmap. exists c. by split.
    + intros x Hx. apply elem_of_cons in Hx as [->|Hx]; [by apply tc_once|].
      eapply tc_l; [exact Hlink|by apply Htc].
Qed.

(** X29. When no category is its own ancestor by parent links, [goBack]
    leads to the root level: from any level, after at most one step more
    than there are categories. Each single step lands on the level where
    the category just left is listed. *)
Theorem goBack_reaches_root (categories : list Category.t) (level : option string) :
  (forall x, ~ tc (parentLink categories) x x) ->
  Nat.iter (S (length categories)) (goBack categories) level = None /\
  forall p c,
    List.find (fun c => same (Some (Category.id c)) (Some p)) categories = Some c ->
    c ∈ visibleCategories categories (goBack categories (Some p)).
Proof.
  intros Hac. split.
  - destruct (Nat.iter (S (length categories)) (goBack categories) level) as [q|] eqn:E;
      [|reflexivity].
    exfalso. destruct (goBack_chain categories Hac _ _ _ E) as (l & Hlen & Hnd & Hids & _).
    assert (length l <= length (map Category.id categories))%nat as Hle.
    { apply NoDup_incl_length.
      - by apply NoDup_ListNoDup.
      - intros x Hx. apply list_elem_of_In, Hids. by apply list_elem_of_In. }
    rewrite length_map in Hle. lia.
  - intros p c Hf. unfold goBack. rewrite Hf. unfold visibleCategories.
    apply find_some in Hf as [Hin _].
    apply list_elem_of_In, filter_In. split; [exact Hin|by apply same_true].
Qed.

Lemma goBack_reaches_root_witness :
  Nat.iter (S (length family)) (goBack family) (Some "c1"%string) = None.
Proof.
  apply (goBack_reaches_root family (Some "c1"%string)). exact family_parent_links.
Defined.

(** * Further properties: shades of a colour *)

Lemma in_allAscii a : In a allAscii.
Proof.
  unfold allAscii. rewrite <- (ascii_nat_embedding a). apply in_map, in_seq.
  pose proof (nat_ascii_bounded a). lia.
Qed.

Lemma parse_pair a b da db :
  hexValue a = Some da -> hexValue b = Some db ->
  parseInt16 (String a (String b EmptyString)) = Some (16 * da + db).
Proof.
  intros Ha Hb.
  assert (forallb (fun a => forallb (pairParses a) allAscii) allAscii = true) as Hall
    by (vm_compute; reflexivity).
  rewrite forallb_forall in Hall. specialize (Hall a (in_allAscii a)).
  rewrite forallb_forall in Hall. specialize (Hall b (in_allAscii b)).
  unfold pairParses in Hall. rewrite Ha, Hb in Hall.
  destruct (parseInt16 _) as [v|]; [|discriminate].
  apply Z.eqb_eq in Hall. by rewrite Hall.
Qed.

Lemma hexValue_range a d : hexValue a = Some d -> 0 <= d <= 15.
Proof.
  unfold hexValue. intros H.
  repeat match type of H with
         | (if ?c then _ else _) = _ => destruct c eqn:?
         end; try discriminate; injection H as <-; lia.
Qed.

Lemma toHex_byte v :
  0 <= v <= 255 ->
  exists a b, toHex (Some v) = String a (String b EmptyString) /\
              hexValue a = Some (v / 16) /\ hexValue b = Some (v mod 16).
Proof.
  intros Hv.
  assert (forallb byteShows (seq 0 256) = true) as Hall by (vm_compute; reflexivity).
  rewrite forallb_forall in Hall.
  specialize (Hall (Z.to_nat v) ltac:(apply in_seq; lia)).
  unfold byteShows in Hall. rewrite Z2Nat.id in Hall by lia.
  destruct (toHex (Some v)) as [|a [|b [|]]]; try discriminate.
  destruct (hexValue a) as [x|] eqn:Ea; [|discriminate].
  destruct (hexValue b) as [y|] eqn:Eb; [|discriminate].
  apply andb_prop in Hall as [Hx Hy]. apply Z.eqb_eq in Hx, Hy. subst x y.
  by exists a, b.
Qed.

Lemma multiplier_positive (shadeIndex : nat) :
  (0 < nth (shadeIndex mod length multipliers) multipliers 1)%Q.
Proof.
  assert (shadeIndex mod length multipliers < 7)%nat as H
    by (apply Nat.mod_upper_bound; discriminate).
  destruct (shadeIndex mod length multipliers)%nat as [|[|[|[|[|[|[|n]]]]]]];
    [reflexivity..|lia].
Qed.

Lemma shade_range (m : Q) v :
  (0 < m)%Q -> 0 <= v <= 255 -> 0 <= Z.min 255 (math_round (inject_Z v * m)) <= 255.
Proof.
  intros Hm Hv. split; [|lia]. apply Z.min_glb; [lia|].
  unfold math_round. change 0 with (Qfloor 0). apply Qfloor_resp_le.
  assert (0 <= inject_Z v)%Q by (change 0%Q with (inject_Z 0); rewrite <- Zle_Qle; lia).
  assert (0 <= inject_Z v * m)%Q by (apply Qmult_le_0_compat; [assumption|lra]).
  lra.
Qed.

Lemma isHexColor_inv color :
  isHexColor color = true ->
  exists a1 a2 a3 a4 a5 a6 d1 d2 d3 d4 d5 d6,
    color = String "#" (String a1 (String a2 (String a3 (String a4 (String a5
              (String a6 EmptyString)))))) /\
    hexValue a1 = Some d1 /\ hexValue a2 = Some d2 /\ hexValue a3 = Some d3 /\
    hexValue a4 = Some d4 /\ hexValue a5 = Some d5 /\ hexValue a6 = Some d6.
Proof.
  unfold isHexColor.
  destruct color as [|c0 [|a1 [|a2 [|a3 [|a4 [|a5 [|a6 [|]]]]]]]]; try discriminate.
  intros H. apply andb_prop in H as [H0 H]. apply Ascii.eqb_eq in H0. subst c0.
  cbn [forallb] in H. unfold isHexDigit in H.
  destruct (hexValue a1) as [d1|] eqn:E1; [|discriminate].
  destruct (hexValue a2) as [d2|] eqn:E2; [|discriminate].
  destruct (hexValue a3) as [d3|] eqn:E3; [|discriminate].
  destruct (hexValue a4) as [d4|] eqn:E4; [|discriminate].
  destruct (hexValue a5) as [d5|] eqn:E5; [|discriminate].
  destruct (hexValue a6) as [d6|] eqn:E6; [|discriminate].
  by exists a1, a2, a3, a4, a5, a6, d1, d2, d3, d4, d5, d6.
Qed.

Lemma channels_six a1 a2 a3 a4 a5 a6 :
  channels (String "#" (String a1 (String a2 (String a3 (String a4 (String a5
              (String a6 EmptyString)))))))
  = [parseInt16 (String a1 (String a2 EmptyString));
     parseInt16 (String a3 (String a4 EmptyString));
     parseInt16 (String a5 (String a6 EmptyString))].
Proof. reflexivity. Qed.

Lemma generateColorShade_six a1 a2 a3 a4 a5 a6 shadeIndex :
  generateColorShade
    (String "#" (String a1 (String a2 (String a3 (String a4 (String a5
       (String a6 EmptyString))))))) shadeIndex
  = let m := nth (shadeIndex mod length multipliers) multipliers 1%Q in
    ("#" +:+ toHex (shadeChannel m (parseInt16 (String a1 (String a2 EmptyString))))
         +:+ toHex (shadeChannel m (parseInt16 (String a3 (String a4 EmptyString))))
         +:+ toHex (shadeChannel m (parseInt16 (String a5 (String a6 EmptyString)))))%string.
Proof. reflexivity. Qed.

(** X30. [generateColorShade] keeps colours well formed: from [#] and six
    hex digits, at any shade index, it returns [#] and six hex digits, whose
    red, green and blue are the source's, each multiplied, rounded and capped
    at 255. At the third of every seven shade indices the multiplier is 1 and
    the channels come back unchanged. *)
Theorem generateColorShade_closed (baseColor : string) (shadeIndex : nat) :
  isHexColor baseColor = true ->
  isHexColor (generateColorShade baseColor shadeIndex) = true /\
  channels (generateColorShade baseColor shadeIndex)
  = map (shadeChannel (nth (shadeIndex mod 7) multipliers 1%Q)) (channels baseColor) /\
  Forall (fun c => exists v, c = Some v /\ 0 <= v <= 255)
         (channels (generateColorShade baseColor shadeIndex)) /\
  ((shadeIndex mod 7)%nat = 2%nat ->
   channels (generateColorShade baseColor shadeIndex) = channels baseColor).
Proof.
  intros Hc.
  destruct (isHexColor_inv _ Hc)
    as (a1 & a2 & a3 & a4 & a5 & a6 & d1 & d2 & d3 & d4 & d5 & d6 & -> &
        H1 & H2 & H3 & H4 & H5 & H6).
  rewrite generateColorShade_six, channels_six. cbv zeta.
  change (length multipliers) with 7%nat.
  pose proof (multiplier_positive shadeIndex) as Hm.
  change (length multipliers) with 7%nat in Hm.
  set (m := nth (shadeIndex mod 7) multipliers 1%Q) in *.
  rewrite (parse_pair a1 a2 d1 d2 H1 H2), (parse_pair a3 a4 d3 d4 H3 H4),
          (parse_pair a5 a6 d5 d6 H5 H6).
  apply hexValue_range in H1, H2, H3, H4, H5, H6.
  cbn [shadeChannel option_map map].
  set (r := Z.min 255 (math_round (inject_Z (16 * d1 + d2) * m))).
  set (g := Z.min 255 (math_round (inject_Z (16 * d3 + d4) * m))).
  set (b := Z.min 255 (math_round (inject_Z (16 * d5 + d6) * m))).
  assert (0 <= r <= 255) as Hr by (apply shade_range; [exact Hm|lia]).
  assert (0 <= g <= 255) as Hg by (apply shade_range; [exact Hm|lia]).
  assert (0 <= b <= 255) as Hb by (apply shade_range; [exact Hm|lia]).
  destruct (toHex_byte r Hr) as (x1 & x2 & -> & Hx1 & Hx2).
  destruct (toHex_byte g Hg) as (x3 & x4 & -> & Hx3 & Hx4).
  destruct (toHex_byte b Hb) as (x5 & x6 & -> & Hx5 & Hx6).
  assert (("#" +:+ String x1 (String x2 EmptyString)
               +:+ String x3 (String x4 EmptyString)
               +:+ String x5 (String x6 EmptyString))%string
          = String "#" (String x1 (String x2 (String x3 (String x4
              (String x5 (String x6 EmptyString))))))) as -> by reflexivity.
  assert (channels (String "#" (String x1 (String x2 (String x3 (String x4
                     (String x5 (String x6 EmptyString)))))))
          = [Some r; Some g; Some b]) as Hch.
  { rewrite channels_six.
    rewrite (parse_pair x1 x2 _ _ Hx1 Hx2), (parse_pair x3 x4 _ _ Hx3 Hx4),
            (parse_pair x5 x6 _ _ Hx5 Hx6).
    rewrite <- !Z.div_mod by lia. reflexivity. }
  split_and!.
  - unfold isHexColor. cbn [forallb]. unfold isHexDigit.
    by rewrite Hx1, Hx2, Hx3, Hx4, Hx5, Hx6.
  - exact Hch.
  - rewrite Hch. repeat constructor; eexists; (split; [reflexivity|assumption]).
  - intros H2m. rewrite Hch. subst r g b m. rewrite H2m.
    cbn [nth multipliers].
    rewrite !(math_round_comp _ _ (Qmult_1_r _)), !math_round_Z.
    rewrite !Z.min_r by lia. reflexivity.
Qed.

Lemma generateColorShade_closed_witness :
  isHexColor (generateColorShade "#60A5FA" 9) = true.
Proof. apply (generateColorShade_closed "#60A5FA" 9). reflexivity. Defined.

(** The palette's blue in its seven shades. *)
Example generateColorShade_blue :
  map (generateColorShade "#60A5FA") (seq 0 8)
  = ["#3a6396"; "#4d84c8"; "#60a5fa"; "#73c6ff"; "#86e7ff"; "#9affff";
     "#adffff"; "#3a6396"]%string.
Proof. vm_compute. reflexivity. Qed.
